(** * dependency-guardian: the package graph resolver and the impact analyzer

    A shallow embedding of [pkg/analysis] (the dependency tree of [pkg.go]
    and the analyzer built on it) and of the pattern predicates of
    [pkg/config], followed by the properties proved about them.

    Conventions of the embedding.
    - A Go [string] is a [string] of bytes; comparison is bytewise, as in Go.
    - [map[string]*Pkg] is a [gmap string Pkg]; [map[string]bool] used as a
      set is a [gset string].
    - A [*Pkg] held in [Dependencies] is represented by the [Name] of the
      node it points to.  Nodes are allocated only in [Resolve], stored in
      [Packages] under their [Name] in the same breath, never replaced and
      never removed, and the only field ever read through such a pointer is
      [Name], which is immutable; so the name carries all that the pointer
      is used for, and a node mutated after it was referenced is still seen
      up to date through the map.
    - The file system, the Go parser and the glob matcher are the
      environment: they appear as data ([fs], [walk]) or as a section
      variable ([Match]).
    - The order in which a Go [range] visits a map is unspecified.  Where a
      map is produced by the environment (the result of [parser.ParseDir])
      the model receives its entries as a list, in the order of the visit;
      where the map is built by the program it is a [gmap]/[gset] and the
      visit is [map_to_list]/[elements], with lemmas stating which results
      do not depend on that order. *)

From Stdlib Require Import Ascii String List.
From stdpp Require Import base gmap strings list sorting pretty.

Local Open Scope string_scope.

(** ** Go's [strings] package (the functions the analysis calls) *)

Module strings.

(** [strings.HasPrefix(s, prefix)] *)
Definition HasPrefix (s prefix : string) : bool := String.prefix prefix s.

(** [strings.HasSuffix(s, suffix)]:
    [len(s) >= len(suffix) && s[len(s)-len(suffix):] == suffix] *)
Definition HasSuffix (s suffix : string) : bool :=
  (String.length suffix <=? String.length s)%nat &&
  String.eqb
    (String.substring (String.length s - String.length suffix)
                      (String.length suffix) s)
    suffix.

(** [strings.TrimPrefix(s, prefix)] *)
Definition TrimPrefix (s prefix : string) : string :=
  if HasPrefix s prefix
  then String.substring (String.length prefix)
                        (String.length s - String.length prefix) s
  else s.

Definition inCutset (c : ascii) (cutset : string) : bool :=
  existsb (Ascii.eqb c) (list_ascii_of_string cutset).

Fixpoint TrimLeft (s cutset : string) : string :=
  match s with
  | EmptyString => EmptyString
  | String c s' => if inCutset c cutset then TrimLeft s' cutset else s
  end.

Definition TrimRight (s cutset : string) : string :=
  String.rev (TrimLeft (String.rev s) cutset).

(** [strings.Trim(s, cutset)]: all leading and trailing bytes of [cutset]
    removed (the cut sets used here are ASCII). *)
Definition Trim (s cutset : string) : string :=
  TrimLeft (TrimRight s cutset) cutset.

(** [strings.Join(elems, sep)] *)
Fixpoint Join (elems : list string) (sep : string) : string :=
  match elems with
  | [] => ""
  | [e] => e
  | e :: rest => e ++ sep ++ Join rest sep
  end.

End strings.

(** ** Go's [path/filepath] on a Unix system (separator [/], no volume) *)

Module filepath.

Definition slash : ascii := "/"%char.

(** The elements of a path between separators, empty ones included. *)
Fixpoint splitAcc (cur : string) (s : string) : list string :=
  match s with
  | EmptyString => [String.rev cur]
  | String c s' =>
      if Ascii.eqb c slash then String.rev cur :: splitAcc "" s'
      else splitAcc (String c cur) s'
  end.

Definition split (s : string) : list string := splitAcc "" s.

Definition isRooted (s : string) : bool :=
  match s with
  | String c _ => Ascii.eqb c slash
  | EmptyString => false
  end.

(** One element of the path pushed on the elements kept so far (held in
    reverse): empty and [.] elements vanish, [..] removes the element
    before it, stays at the front of a relative path and vanishes at the
    root. *)
Definition cleanStep (rooted : bool) (out : list string) (e : string)
  : list string :=
  if String.eqb e "" || String.eqb e "." then out
  else if String.eqb e ".." then
    match out with
    | top :: out' => if String.eqb top ".." then e :: out else out'
    | [] => if rooted then [] else [e]
    end
  else e :: out.

(** [filepath.Clean(path)] *)
Definition Clean (path : string) : string :=
  let rooted := isRooted path in
  let out := rev (fold_left (cleanStep rooted) (split path) []) in
  let body := strings.Join out "/" in
  if rooted then "/" ++ body
  else if String.eqb body "" then "." else body.

(** [filepath.Join(a, b)]: empty leading elements are dropped, the rest
    is joined with the separator and cleaned; all empty gives [""]. *)
Definition Join (a b : string) : string :=
  if negb (String.eqb a "") then Clean (a ++ "/" ++ b)
  else if negb (String.eqb b "") then Clean b
  else "".

(** The prefix of [path] up to and including its last separator. *)
Fixpoint upToLastSlash (path : string) : string :=
  match path with
  | EmptyString => EmptyString
  | String c s' =>
      let r := upToLastSlash s' in
      if Ascii.eqb c slash then String c r
      else match r with
           | EmptyString => EmptyString
           | _ => String c r
           end
  end.

(** [filepath.Dir(path)] *)
Definition Dir (path : string) : string := Clean (upToLastSlash path).

(** [filepath.ToSlash(path)]: the identity where the separator is [/]. *)
Definition ToSlash (path : string) : string := path.

End filepath.

(** ** [pkg/analysis/pkg.go]: the dependency tree *)

(** The double quote that delimits an import path literal. *)
Definition dquote : string := String "034"%char EmptyString.

(** [Pkg]: a Go package and its dependencies. *)
Record Pkg : Type := mkPkg {
  Name : string;
  Files : list string;
  Imports : list string;
  Dependencies : list string;
  Internal : bool
}.

(** [Tree]: the package dependency tree.  [Root] is a [*Pkg] that no code
    ever assigns; [None] is the nil pointer. *)
Record Tree : Type := mkTree {
  Root : option string;
  Packages : gmap string Pkg;
  RootDir : string;
  RootPkgPath : string
}.

(** The errors built with [fmt.Errorf], by the site that builds them. *)
Inductive error : Type :=
| ErrParse (pkgName pkgPath : string)
| ErrNoPackages (pkgPath : string)
| ErrNotInitialized
| ErrWalk.

(** What [parser.ParseDir(fset, dir, nil, parser.ImportsOnly)] yields for a
    directory that [os.Stat] finds: an error, or the packages found there,
    each with its files (test files included, the filter being nil) and,
    per file, the literals [imp.Path.Value] of its import declarations in
    source order.  Packages and files are listed in the order in which the
    two [range] loops of [Resolve] visit the two maps. *)
Definition ParsedFile : Type := string * list string.
Definition ParsedPkg : Type := string * list ParsedFile.

Inductive DirEntry : Type :=
| ParseFailed
| Parsed (pkgs : list ParsedPkg).

(** [NewTree] *)
Definition NewTree (rootDir rootPkgPath : string) : Tree :=
  {| Root := None; Packages := ∅; RootDir := rootDir;
     RootPkgPath := rootPkgPath |}.

Definition setPackages (t : Tree) (m : gmap string Pkg) : Tree :=
  {| Root := Root t; Packages := m; RootDir := RootDir t;
     RootPkgPath := RootPkgPath t |}.

(** A mutation of the node [pkg] that [Resolve pkgName] holds: the node is
    the one stored under [pkgName]. *)
Definition modifyPkg (pkgName : string) (f : Pkg → Pkg) (t : Tree) : Tree :=
  setPackages t (alter f pkgName (Packages t)).

Definition appendFile (filename : string) (p : Pkg) : Pkg :=
  {| Name := Name p; Files := Files p ++ [filename]; Imports := Imports p;
     Dependencies := Dependencies p; Internal := Internal p |}.

Definition appendImport (importPath : string) (p : Pkg) : Pkg :=
  {| Name := Name p; Files := Files p; Imports := Imports p ++ [importPath];
     Dependencies := Dependencies p; Internal := Internal p |}.

Definition appendDependency (dep : string) (p : Pkg) : Pkg :=
  {| Name := Name p; Files := Files p; Imports := Imports p;
     Dependencies := Dependencies p ++ [dep]; Internal := Internal p |}.

(** A [for ... range] loop whose body may fail to return (fuel). *)
Fixpoint forRange {A S : Type} (body : S → A → option S) (l : list A) (s : S)
  : option S :=
  match l with
  | [] => Some s
  | a :: l' =>
      match body s a with
      | Some s' => forRange body l' s'
      | None => None
      end
  end.

(** The directory of a package: the root package path and a leading slash
    are trimmed from the package path and the rest is joined to the root
    directory. *)
Definition pkgDir (t : Tree) (pkgName : string) : string :=
  let relPath := strings.TrimPrefix pkgName (RootPkgPath t) in
  let relPath := strings.TrimPrefix relPath "/" in
  filepath.Join (RootDir t) relPath.

Section Resolve.

(** The file system as [Resolve] meets it, by path.  An absent path is
    one for which [os.Stat] fails with an error that [os.IsNotExist]
    recognises.  For every other path [parser.ParseDir] is called, and
    the entry is what it yields.  A path that is no directory and for
    which [os.Stat] fails with another error (a path that runs through a
    regular file, for one, which gives [ENOTDIR]) is of the second kind:
    [IsNotExist] is false of the error, and [ParseDir], which cannot
    read the directory, returns an error. *)
Variable fs : gmap string DirEntry.

(** The outcome of a call: [None] when the fuel ran out, else the
    returned error ([None] for nil) and the tree as the call left it. *)
Definition Outcome : Type := option (option error * Tree).

(** The state of the loops of [Resolve]: the tree and [importSet]. *)
Definition LoopState : Type := Tree * gset string.

Section body.
Variable rec : Tree → string → Outcome.
Variable pkgName : string.

(** The body of [for _, imp := range file.Imports]. *)
Definition visitImport (st : LoopState) (lit : string) : option LoopState :=
  let '(t, importSet) := st in
  let importPath := strings.Trim lit dquote in
  if strings.HasPrefix importPath (RootPkgPath t)
     && negb (bool_decide (importPath ∈ importSet))
  then
    let importSet := {[importPath]} ∪ importSet in
    let t := modifyPkg pkgName (appendImport importPath) t in
    match rec t importPath with
    | None => None
    | Some (Some _, t) => Some (t, importSet)
    | Some (None, t) =>
        match Packages t !! importPath with
        | Some depPkg =>
            Some (modifyPkg pkgName (appendDependency (Name depPkg)) t,
                  importSet)
        | None => Some (t, importSet)
        end
    end
  else Some st.

(** The body of [for filename, file := range parsedPkg.Files]. *)
Definition visitFile (st : LoopState) (f : ParsedFile) : option LoopState :=
  let '(filename, imports) := f in
  if strings.HasSuffix filename "_test.go" then Some st
  else
    let '(t, importSet) := st in
    forRange visitImport imports
             (modifyPkg pkgName (appendFile filename) t, importSet).

(** The body of [for _, parsedPkg := range pkgs]. *)
Definition visitPackage (st : LoopState) (p : ParsedPkg) : option LoopState :=
  forRange visitFile (snd p) st.
End body.

(** [Tree.Resolve] *)
Fixpoint Resolve (fuel : nat) (t : Tree) (pkgName : string) : Outcome :=
  match fuel with
  | O => None
  | S fuel' =>
      match Packages t !! pkgName with
      | Some _ => Some (None, t)
      | None =>
          let pkg :=
            {| Name := pkgName;
               Internal := strings.HasPrefix pkgName (RootPkgPath t);
               Files := []; Imports := []; Dependencies := [] |} in
          let t := setPackages t (<[pkgName := pkg]> (Packages t)) in
          let pkgPath := pkgDir t pkgName in
          match fs !! pkgPath with
          | None => Some (None, t)
          | Some ParseFailed => Some (Some (ErrParse pkgName pkgPath), t)
          | Some (Parsed pkgs) =>
              match pkgs with
              | [] => Some (Some (ErrNoPackages pkgPath), t)
              | _ =>
                  match forRange (visitPackage (Resolve fuel') pkgName)
                                 pkgs (t, ∅) with
                  | Some (t, _) => Some (None, t)
                  | None => None
                  end
              end
          end
      end
  end.

End Resolve.

(** The inner loop of [FindReverseDependencies]: does some [dep] of
    [pkg.Dependencies] have [dep.Name == pkgName]? *)
Fixpoint hasDependency (deps : list string) (pkgName : string) : bool :=
  match deps with
  | [] => false
  | dep :: deps' =>
      if String.eqb dep pkgName then true else hasDependency deps' pkgName
  end.

(** The body of [for _, pkg := range t.Packages]. *)
Definition visitNode (pkgName : string) (deps : list Pkg) (pkg : Pkg)
  : list Pkg :=
  if String.eqb (Name pkg) pkgName then deps
  else if hasDependency (Dependencies pkg) pkgName then (deps ++ [pkg])%list
  else deps.

(** [Tree.FindReverseDependencies] over the nodes of [t.Packages] in the
    order [nodes] of one visit of the map. *)
Definition FindReverseDependenciesIn (nodes : list Pkg) (pkgName : string)
  : list Pkg :=
  fold_left (visitNode pkgName) nodes [].

(** [Tree.FindReverseDependencies] *)
Definition FindReverseDependencies (t : Tree) (pkgName : string) : list Pkg :=
  FindReverseDependenciesIn (map snd (map_to_list (Packages t))) pkgName.

(** [Tree.IsInternal] *)
Definition IsInternal (t : Tree) (pkgName : string) : bool :=
  strings.HasPrefix pkgName (RootPkgPath t).

(** ** [pkg/config]: the configuration and its pattern predicates *)

Module config.

Record TargetConfig : Type := mkTargetConfig {
  HighLevelPackages : list string
}.

Record PatternConfig : Type := mkPatternConfig {
  IgnorePatterns : list string;
  IncludePatterns : list string
}.

Record AnalysisConfig : Type := mkAnalysisConfig {
  MaxDepth : Z;
  MinImpactThreshold : Z
}.

Record CriticalConfig : Type := mkCriticalConfig {
  Packages : list string
}.

Record Config : Type := mkConfig {
  Targets : TargetConfig;
  Patterns : PatternConfig;
  Analysis : AnalysisConfig;
  Critical : CriticalConfig
}.

(** [DefaultConfig] *)
Definition DefaultConfig : Config :=
  {| Targets := {| HighLevelPackages := ["**"] |};
     Patterns := {| IgnorePatterns := ["*_test.go"];
                    IncludePatterns := [] |};
     Analysis := {| MaxDepth := 10; MinImpactThreshold := 0 |};
     Critical := {| Packages := [] |} |}.

Section predicates.

(** [doublestar.Match(pattern, name)] with its error dropped, as every
    call site does ([matched, _ := ...]). *)
Variable Match : string → string → bool.

(** [for _, pattern := range patterns { if matched { return true } }
    return false] *)
Fixpoint matchesAny (patterns : list string) (pkgPath : string) : bool :=
  match patterns with
  | [] => false
  | pattern :: rest =>
      if Match pattern pkgPath then true else matchesAny rest pkgPath
  end.

(** [Config.IsHighLevelPackage] *)
Definition IsHighLevelPackage (c : Config) (pkgPath : string) : bool :=
  if (length (HighLevelPackages (Targets c)) =? 0)%nat then true
  else matchesAny (HighLevelPackages (Targets c)) pkgPath.

(** [Config.IsCriticalPackage] *)
Definition IsCriticalPackage (c : Config) (pkgPath : string) : bool :=
  matchesAny (Packages (Critical c)) pkgPath.

(** [Config.ShouldIgnorePackage] *)
Definition ShouldIgnorePackage (c : Config) (pkgPath : string) : bool :=
  matchesAny (IgnorePatterns (Patterns c)) pkgPath.

End predicates.

End config.

(** ** The analyzer *)

Module AffectedPackage.
(** [AffectedPackage]: a package that is impacted by a change. *)
Record t : Type := mk {
  Name : string;
  IsCritical : bool
}.
End AffectedPackage.

(** [PackageImpact]: the packages affected by a change in one package. *)
Record PackageImpact : Type := mkPackageImpact {
  ChangedPackage : string;
  AffectedPackages : list AffectedPackage.t
}.

(** [AnalysisResult] *)
Record AnalysisResult : Type := mkAnalysisResult {
  Impacts : list PackageImpact;
  DirectDependencies : list string;
  IndirectDependencies : list string
}.

(** [Analyzer]; a nil [tree] is [None]. *)
Record Analyzer : Type := mkAnalyzer {
  cfg : config.Config;
  tree : option Tree;
  repoPath : string;
  rootPkgPath : string
}.

(** [NewAnalyzer] *)
Definition NewAnalyzer (cfg : config.Config) (repoPath : string) : Analyzer :=
  {| cfg := cfg; tree := None; repoPath := repoPath; rootPkgPath := "" |}.

(** [Analyzer.SetRootPackage] *)
Definition SetRootPackage (a : Analyzer) (rootPkg : string) : Analyzer :=
  {| cfg := cfg a; tree := Some (NewTree (repoPath a) rootPkg);
     repoPath := repoPath a; rootPkgPath := rootPkg |}.

(** [sort.Strings]: the result of a sort of strings is the one sorted
    arrangement of its input, whatever the algorithm. *)
Definition sort_Strings (l : list string) : list string :=
  merge_sort String.le l.

(** The [less] of the [sort.Slice] call, as a non-strict order. *)
Definition nameLe (x y : AffectedPackage.t) : Prop :=
  String.le (AffectedPackage.Name x) (AffectedPackage.Name y).

#[global] Instance nameLe_dec : RelDecision nameLe.
Proof. intros x y. unfold nameLe. apply _. Defined.

(** [sort.Slice(affectedForPkg, less)].  Go's sort is not stable; the
    entries sorted here come from distinct nodes of one tree, whose names
    differ, and then every sort gives the same arrangement. *)
Definition sort_Slice (l : list AffectedPackage.t) : list AffectedPackage.t :=
  merge_sort nameLe l.

Section Analyze.

Variable Match : string → string → bool.
Variable fs : gmap string DirEntry.

(** What [filepath.Walk(a.repoPath, ...)] meets: [None] when the walk (or
    [filepath.Rel]) reports an error; else the directories in which
    [filepath.Glob] finds a [*.go] file, as paths relative to the
    repository root ([.] for the root itself), in the lexical order of
    the walk. *)
Variable walk : option (list string).

(** The callback of the walk at a directory holding Go files.  The error
    of [Resolve] is printed as a warning and dropped. *)
Definition walkDir (fuel : nat) (rootPkgPath : string) (t : Tree)
    (relPath : string) : option Tree :=
  let pkgPath := filepath.ToSlash relPath in
  if String.eqb pkgPath "." then Some t
  else
    let fullPkgPath := rootPkgPath ++ "/" ++ pkgPath in
    match Resolve fs fuel t fullPkgPath with
    | Some (_, t) => Some t
    | None => None
    end.

(** The body of the first pass over [changedFiles]. *)
Definition visitChangedFile (rootPkgPath : string) (changedPkgs : gset string)
    (file : string) : gset string :=
  if negb (strings.HasSuffix file ".go") || strings.HasSuffix file "_test.go"
  then changedPkgs
  else
    let pkgPath := filepath.Dir file in
    let fullPkgPath :=
      if String.eqb pkgPath "." then rootPkgPath
      else rootPkgPath ++ "/" ++ pkgPath in
    {[fullPkgPath]} ∪ changedPkgs.

(** The body of [for _, dep := range revDeps]; the state is
    [affectedForPkg] and [allAffectedPkgs]. *)
Definition visitRevDep (c : config.Config)
    (st : list AffectedPackage.t * gset string) (dep : Pkg)
  : list AffectedPackage.t * gset string :=
  let '(affectedForPkg, allAffectedPkgs) := st in
  if config.ShouldIgnorePackage Match c (Name dep) then st
  else if negb (config.IsHighLevelPackage Match c (Name dep)) then st
  else
    let affectedPkg :=
      {| AffectedPackage.Name := Name dep;
         AffectedPackage.IsCritical :=
           config.IsCriticalPackage Match c (Name dep) |} in
    ((affectedForPkg ++ [affectedPkg])%list,
     {[Name dep]} ∪ allAffectedPkgs).

(** The body of the second pass, [for _, pkgName := range
    sortedChangedPkgs]; the state is [impacts] and [allAffectedPkgs]. *)
Definition visitChangedPkg (c : config.Config) (t : Tree)
    (st : list PackageImpact * gset string) (pkgName : string)
  : list PackageImpact * gset string :=
  let '(impacts, allAffectedPkgs) := st in
  let revDeps := FindReverseDependencies t pkgName in
  let '(affectedForPkg, allAffectedPkgs) :=
    fold_left (visitRevDep c) revDeps ([], allAffectedPkgs) in
  let affectedForPkg := sort_Slice affectedForPkg in
  ((impacts ++ [{| ChangedPackage := pkgName;
                   AffectedPackages := affectedForPkg |}])%list,
   allAffectedPkgs).

(** The body of the loop that fills [directDeps]. *)
Definition visitDirect (t : Tree) (directDeps : gset string)
    (pkgName : string) : gset string :=
  match Packages t !! pkgName with
  | Some p =>
      fold_left (fun acc dep => {[dep]} ∪ acc) (Dependencies p) directDeps
  | None => directDeps
  end.

(** [Analyzer.AnalyzeChangedPackages].  [None] when the fuel ran out;
    else the error, or the result together with the tree the analyzer
    holds afterwards. *)
Definition AnalyzeChangedPackages (fuel : nat) (a : Analyzer)
    (changedFiles : list string) : option (error + AnalysisResult * Tree) :=
  match tree a with
  | None => Some (inl ErrNotInitialized)
  | Some t =>
      match walk with
      | None => Some (inl ErrWalk)
      | Some dirs =>
          match forRange (walkDir fuel (rootPkgPath a)) dirs t with
          | None => None
          | Some t =>
              let changedPkgs :=
                fold_left (visitChangedFile (rootPkgPath a)) changedFiles ∅ in
              let sortedChangedPkgs := sort_Strings (elements changedPkgs) in
              let '(impacts, allAffectedPkgs) :=
                fold_left (visitChangedPkg (cfg a) t) sortedChangedPkgs
                          ([], ∅) in
              let directDeps :=
                fold_left (visitDirect t) sortedChangedPkgs ∅ in
              let directDepList := elements directDeps in
              let indirectDepList :=
                List.filter (fun pkg => negb (bool_decide (pkg ∈ directDeps)))
                            (elements allAffectedPkgs) in
              Some (inr ({| Impacts := impacts;
                            DirectDependencies := sort_Strings directDepList;
                            IndirectDependencies :=
                              sort_Strings indirectDepList |}, t))
          end
      end
  end.

End Analyze.

(** [fmt.Sprintf("%d", n)] for a length or a count. *)
Definition fmt_d (n : nat) : string := pretty n.

Definition newline : string := String "010"%char EmptyString.

(** The UTF-8 bytes of the two pictographs of the report. *)
Definition magnifier : string :=
  String "240"%char (String "159"%char (String "148"%char
    (String "141"%char EmptyString))).
Definition siren : string :=
  String "240"%char (String "159"%char (String "154"%char
    (String "168"%char EmptyString))).

(** The line of one affected package. *)
Definition renderAffected (pkg : AffectedPackage.t) : string :=
  if AffectedPackage.IsCritical pkg
  then "- " ++ siren ++ " **`" ++ AffectedPackage.Name pkg ++ "`** (Critical)"
       ++ newline
  else "- `" ++ AffectedPackage.Name pkg ++ "`" ++ newline.

(** The section of one changed package. *)
Definition renderImpact (impact : PackageImpact) : string :=
  "#### Changed Package: `" ++ ChangedPackage impact ++ "`" ++ newline ++ newline
  ++ (if (0 <? length (AffectedPackages impact))%nat
      then "<details><summary>Affected Packages ("
           ++ fmt_d (length (AffectedPackages impact)) ++ ")</summary>"
           ++ newline ++ newline
           ++ String.concat "" (map renderAffected (AffectedPackages impact))
           ++ newline ++ "</details>" ++ newline ++ newline
      else "This change does not affect any other packages." ++ newline
           ++ newline).

(** The count of distinct affected names: the loop over [affectedSet]. *)
Definition countAffected (impacts : list PackageImpact) : nat :=
  snd (fold_left
         (fun (st : gset string * nat) (pkg : AffectedPackage.t) =>
            let '(affectedSet, totalAffected) := st in
            if bool_decide (AffectedPackage.Name pkg ∈ affectedSet) then st
            else ({[AffectedPackage.Name pkg]} ∪ affectedSet,
                  S totalAffected))
         (concat (map AffectedPackages impacts)) (∅, 0)).

(** [AnalysisResult.String] *)
Definition AnalysisResult_String (r : AnalysisResult) : string :=
  let header :=
    "<!-- dependency-guardian -->" ++ newline
    ++ "## " ++ magnifier ++ " Dependency Impact Analysis" ++ newline
    ++ newline in
  if (length (Impacts r) =? 0)%nat
  then header ++ "No changed packages found." ++ newline
  else
    header
    ++ "### Changed Packages and Their Impacts" ++ newline ++ newline
    ++ String.concat "" (map renderImpact (Impacts r))
    ++ "### Analysis Summary:" ++ newline ++ newline
    ++ "- **Changed packages**: " ++ fmt_d (length (Impacts r)) ++ newline
    ++ "- **Affected packages**: " ++ fmt_d (countAffected (Impacts r))
    ++ newline
    ++ "- **Direct dependencies of changed packages**: "
    ++ fmt_d (length (DirectDependencies r)) ++ newline
    ++ "- **Indirectly affected packages**: "
    ++ fmt_d (length (IndirectDependencies r)) ++ newline.

(** ** Predicates used to state the properties of [Resolve] *)

(** The fields of a tree that no method assigns. *)
Definition sameRoot (t t' : Tree) : Prop :=
  Root t = Root t' ∧ RootDir t = RootDir t' ∧ RootPkgPath t = RootPkgPath t'.

(** [t'] has every node of [t], with the same content. *)
Definition extends (t t' : Tree) : Prop :=
  sameRoot t t' ∧
  ∀ k p, Packages t !! k = Some p → Packages t' !! k = Some p.

(** Every node is stored under its own name. *)
Definition wfTree (t : Tree) : Prop :=
  ∀ k p, Packages t !! k = Some p → Name p = k.

(** The import paths that the loops of [Resolve] treat for a parsed
    directory: those of its non-test files that have the root prefix. *)
Definition isTestFile (f : ParsedFile) : bool :=
  strings.HasSuffix (fst f) "_test.go".

Definition fileImports (f : ParsedFile) : list string :=
  map (fun lit => strings.Trim lit dquote) (snd f).

Definition trackedImports (root : string) (pkgs : list ParsedPkg)
  : list string :=
  List.filter (fun i => strings.HasPrefix i root)
    (flat_map (fun p : ParsedPkg =>
                 flat_map fileImports
                          (List.filter (fun f => negb (isTestFile f)) (snd p)))
              pkgs).

(** Every import path written anywhere in the file system. *)
Definition entryImports (e : DirEntry) : list string :=
  match e with
  | ParseFailed => []
  | Parsed pkgs =>
      flat_map (fun p : ParsedPkg => flat_map fileImports (snd p)) pkgs
  end.

Definition universe (fs : gmap string DirEntry) : gset string :=
  list_to_set (flat_map (fun kv => entryImports (snd kv)) (map_to_list fs)).

(** The node that [Resolve] registers on entry. *)
Definition emptyNode (t : Tree) (pkgName : string) : Pkg :=
  {| Name := pkgName; Files := []; Imports := []; Dependencies := [];
     Internal := strings.HasPrefix pkgName (RootPkgPath t) |}.

(** A tree in which the call [Resolve name], entered on [t0] where [name]
    was not registered, is at work: the nodes of [t0] are as they were and
    [name] is registered. *)
Definition atWork (t0 : Tree) (name : string) (t : Tree) : Prop :=
  extends t0 t ∧ is_Some (Packages t !! name) ∧ (wfTree t0 → wfTree t).

(** The tree after the import [i] was resolved with outcome [r], leaving
    [t]: the edge is added when there was no error. *)
Definition afterImport (name i : string) (r : option error) (t : Tree) : Tree :=
  match r with
  | Some _ => t
  | None =>
      match Packages t !! i with
      | Some depPkg => modifyPkg name (appendDependency (Name depPkg)) t
      | None => t
      end
  end.

(** The node of [k] holds [i] in [Dependencies]. *)
Definition edge (t : Tree) (k i : string) : Prop :=
  ∃ p, Packages t !! k = Some p ∧ In i (Dependencies p).

Section graph.
Variable fs : gmap string DirEntry.

(** The internal imports of the package [k] as its directory has them. *)
Definition internalImports (t : Tree) (k : string) : list string :=
  match fs !! pkgDir t k with
  | Some (Parsed pkgs) => trackedImports (RootPkgPath t) pkgs
  | _ => []
  end.

(** A first [Resolve] of [k] returns no error. *)
Definition resolvable (t : Tree) (k : string) : Prop :=
  fs !! pkgDir t k ≠ Some ParseFailed ∧ fs !! pkgDir t k ≠ Some (Parsed []).

(** The node of [k] has an edge to each of its internal imports that
    resolves, and all of them are registered. *)
Definition complete (t : Tree) (k : string) : Prop :=
  ∀ i, In i (internalImports t k) →
    is_Some (Packages t !! i) ∧
    (resolvable t i → edge t k i).
End graph.

(** [t'] has every node of [t], each with at least the edges it had. *)
Definition grows (t t' : Tree) : Prop :=
  sameRoot t t' ∧
  ∀ k p, Packages t !! k = Some p →
    ∃ p', Packages t' !! k = Some p' ∧
          ∀ d, In d (Dependencies p) → In d (Dependencies p').

(** The state of the loops of [Resolve name], entered on [t0]: the nodes
    registered since the call began, [name] apart, are complete, and every
    import path in [importSet] is registered and has its edge from [name]
    if it resolves. *)
Definition loopInv (fs : gmap string DirEntry) (t0 : Tree) (name : string)
    (st : LoopState) : Prop :=
  atWork t0 name (fst st) ∧
  (∀ k, k ≠ name → Packages t0 !! k = None →
        is_Some (Packages (fst st) !! k) → complete fs (fst st) k) ∧
  (∀ i, i ∈ snd st →
        is_Some (Packages (fst st) !! i) ∧
        (resolvable fs (fst st) i → edge (fst st) name i)).

(** An import path with the root prefix is in [importSet]. *)
Definition seen (root : string) (l : string) (st : LoopState) : Prop :=
  strings.HasPrefix (strings.Trim l dquote) root = true →
  strings.Trim l dquote ∈ snd st.

(** ** The second pass in closed form *)

Section impact.
Variable Match : string → string → bool.
Variable c : config.Config.

(** A dependent passes the two filters of the second pass. *)
Definition qualifies (dep : Pkg) : bool :=
  negb (config.ShouldIgnorePackage Match c (Name dep))
  && config.IsHighLevelPackage Match c (Name dep).

(** The entry built for a dependent that passes. *)
Definition affectedOf (dep : Pkg) : AffectedPackage.t :=
  {| AffectedPackage.Name := Name dep;
     AffectedPackage.IsCritical :=
       config.IsCriticalPackage Match c (Name dep) |}.

(** The dependents of [pkgName] that pass, in the order of the query. *)
Definition survivors (t : Tree) (pkgName : string) : list Pkg :=
  List.filter qualifies (FindReverseDependencies t pkgName).

(** The impact recorded for the changed package [pkgName]. *)
Definition impactOf (t : Tree) (pkgName : string) : PackageImpact :=
  {| ChangedPackage := pkgName;
     AffectedPackages := sort_Slice (map affectedOf (survivors t pkgName)) |}.
End impact.

(** The paths of the universe that are not registered yet. *)
Definition pending (fs : gmap string DirEntry) (t : Tree) : nat :=
  size (universe fs ∖ dom (Packages t)).

(** What the proof of completeness asks of the recursive calls. *)
Definition recSpec (fs : gmap string DirEntry)
    (rec : Tree → string → Outcome) : Prop :=
  ∀ t i r tb, wfTree t → rec t i = Some (r, tb) →
    extends t tb ∧ is_Some (Packages tb !! i) ∧ wfTree tb ∧
    (r ≠ None → ¬ resolvable fs t i) ∧
    (∀ k, Packages t !! k = None → is_Some (Packages tb !! k) →
          complete fs tb k).

(** ** Source trees used as examples *)

(** An import path as the parser hands it over: between double quotes. *)
Definition quoted (path : string) : string := dquote ++ path ++ dquote.

(** Module [m] checked out in [/r]. *)
Definition treeM : Tree := NewTree "/r" "m".

(** Packages [a] and [b] import each other; [b] has a test file too. *)
Definition fsCycle : gmap string DirEntry :=
  {[ "/r/a" := Parsed [("a", [("/r/a/a.go", [quoted "m/b"; quoted "fmt"])])];
     "/r/b" := Parsed [("b", [("/r/b/b.go", [quoted "m/a"]);
                              ("/r/b/b_test.go", [quoted "m/a"; quoted "testing"])])] ]}.

(** Package [p] has one file, a test. *)
Definition fsTestOnly : gmap string DirEntry :=
  {[ "/r/p" := Parsed [("p", [("/r/p/p_test.go", [quoted "testing"])])] ]}.

(** Directory [e] exists and holds no Go file; [x.go] in [bad] does not
    parse. *)
Definition fsBroken : gmap string DirEntry :=
  {[ "/r/e" := Parsed []; "/r/bad" := ParseFailed ]}.

(** [a] imports [b], [b] imports [c]. *)
Definition fsChain : gmap string DirEntry :=
  {[ "/r/a" := Parsed [("a", [("/r/a/a.go", [quoted "m/b"])])];
     "/r/b" := Parsed [("b", [("/r/b/b.go", [quoted "m/c"])])];
     "/r/c" := Parsed [("c", [("/r/c/c.go", [])])] ]}.

(** [p] imports [q] in [a.go] and [z] in [b.go]; [q] imports [z]; the file
    of [z] does not parse.  The two file systems are the same directory
    tree: they differ in the order in which the files of [p] are visited. *)
Definition fsOrder1 : gmap string DirEntry :=
  {[ "/r/p" := Parsed [("p", [("/r/p/a.go", [quoted "m/q"]);
                              ("/r/p/b.go", [quoted "m/z"])])];
     "/r/q" := Parsed [("q", [("/r/q/q.go", [quoted "m/z"])])];
     "/r/z" := ParseFailed ]}.

Definition fsOrder2 : gmap string DirEntry :=
  {[ "/r/p" := Parsed [("p", [("/r/p/b.go", [quoted "m/z"]);
                              ("/r/p/a.go", [quoted "m/q"])])];
     "/r/q" := Parsed [("q", [("/r/q/q.go", [quoted "m/z"])])];
     "/r/z" := ParseFailed ]}.

(** A configuration file that empties every pattern list. *)
Definition cfgNoPatterns : config.Config :=
  {| config.Targets := {| config.HighLevelPackages := [] |};
     config.Patterns := {| config.IgnorePatterns := [];
                           config.IncludePatterns := [] |};
     config.Analysis := {| config.MaxDepth := 10;
                           config.MinImpactThreshold := 0 |};
     config.Critical := {| config.Packages := [] |} |}.

(** The analyzer of module [m] checked out in [/r]. *)
Definition analyzerM (c : config.Config) : Analyzer :=
  SetRootPackage (NewAnalyzer c "/r") "m".

(** A matcher for the examples: the pattern [**] matches every path and
    no other pattern matches any, which is what [doublestar.Match] answers
    for the two patterns of [DefaultConfig] on the package paths of the
    examples. *)
Definition matchDoubleStar (pattern name : string) : bool :=
  String.eqb pattern "**".

(** Two file systems hold the same directory tree when each directory has
    the same outcome of parsing in both, up to the order in which the
    files of a package are visited. *)
Definition sameEntry (e1 e2 : DirEntry) : Prop :=
  match e1, e2 with
  | ParseFailed, ParseFailed => True
  | Parsed pkgs1, Parsed pkgs2 =>
      Forall2 (fun p1 p2 : ParsedPkg =>
                 fst p1 = fst p2 ∧ Permutation (snd p1) (snd p2))
              pkgs1 pkgs2
  | _, _ => False
  end.

Definition sameDirectoryTree (fs1 fs2 : gmap string DirEntry) : Prop :=
  ∀ dir, match fs1 !! dir, fs2 !! dir with
         | Some e1, Some e2 => sameEntry e1 e2
         | None, None => True
         | _, _ => False
         end.

(** The result and the tree of a completed analysis, for use in
    examples. *)
Definition resultOf (o : option (error + AnalysisResult * Tree))
  : AnalysisResult * Tree :=
  match o with
  | Some (inr x) => x
  | _ => ({| Impacts := []; DirectDependencies := [];
             IndirectDependencies := [] |}, treeM)
  end.

(** The analysis of the tree of [fsOrder1], or of [fsOrder2], when
    [z/z.go] changed, with no pattern configured. *)
Definition orderRun (Match : string → string → bool)
    (fs : gmap string DirEntry) (fuel : nat)
  : option (error + AnalysisResult * Tree) :=
  AnalyzeChangedPackages Match fs (Some ["p"; "q"; "z"]) fuel
    (analyzerM cfgNoPatterns) ["z/z.go"].

(** The analysis of the chain [a], [b], [c] when [c/c.go] and [b/b.go]
    changed, under the default configuration. *)
Definition chainRun : option (error + AnalysisResult * Tree) :=
  AnalyzeChangedPackages matchDoubleStar fsChain (Some ["."; "a"; "b"; "c"]) 5
    (analyzerM config.DefaultConfig) ["c/c.go"; "b/b.go"; "b/b_test.go"].

(** The tree a completed call leaves, for use in examples. *)
Definition treeAfter (o : Outcome) : Tree :=
  match o with
  | Some (_, t) => t
  | None => treeM
  end.

(** The tree that resolving [m/a] on [fsCycle] leaves. *)
Definition cycleTree : Tree := treeAfter (Resolve fsCycle 3 treeM "m/a").

(** The tree that resolving [m/c] on [fsChain] leaves. *)
Definition chainTreeC : Tree := treeAfter (Resolve fsChain 4 treeM "m/c").

(** Two nodes that both depend on [m/z]. *)
Definition nodeP : Pkg :=
  {| Name := "m/p"; Files := ["/r/p/a.go"]; Imports := ["m/z"];
     Dependencies := ["m/z"]; Internal := true |}.
Definition nodeQ : Pkg :=
  {| Name := "m/q"; Files := ["/r/q/q.go"]; Imports := ["m/z"];
     Dependencies := ["m/z"]; Internal := true |}.

(** ** Invariants of the trees the program builds *)

(** The shape of a node: [Internal] is the prefix test on the name, the
    imports are distinct and have the root prefix, the dependencies are a
    subsequence of the imports, and no file is a test file. *)
Definition nodeOK (root : string) (p : Pkg) : Prop :=
  Internal p = strings.HasPrefix (Name p) root ∧
  NoDup (Imports p) ∧
  Forall (fun i => strings.HasPrefix i root = true) (Imports p) ∧
  sublist (Dependencies p) (Imports p) ∧
  Forall (fun f => strings.HasSuffix f "_test.go" = false) (Files p).

Definition treeShape (t : Tree) : Prop :=
  ∀ k p, Packages t !! k = Some p → nodeOK (RootPkgPath t) p.

(** The names of the non-test files of the directory of the package
    [k]. *)
Definition dirFiles (fs : gmap string DirEntry) (t : Tree) (k : string)
  : list string :=
  match fs !! pkgDir t k with
  | Some (Parsed pkgs) =>
      map fst (List.filter (fun f => negb (isTestFile f))
                           (flat_map (fun p : ParsedPkg => snd p) pkgs))
  | _ => []
  end.

(** The imports and the files of every node are imports and files of its
    directory. *)
Definition treeSound (fs : gmap string DirEntry) (t : Tree) : Prop :=
  ∀ k p, Packages t !! k = Some p →
    (∀ i, In i (Imports p) → In i (internalImports fs t k)) ∧
    (∀ f, In f (Files p) → In f (dirFiles fs t k)).

(** Every node is complete. *)
Definition treeComplete (fs : gmap string DirEntry) (t : Tree) : Prop :=
  ∀ k, is_Some (Packages t !! k) → complete fs t k.

(** A tree as the program builds it: [NewTree] followed by calls of
    [Resolve] that have returned. *)
Definition builtTree (fs : gmap string DirEntry) (t : Tree) : Prop :=
  wfTree t ∧ treeShape t ∧ treeSound fs t ∧ treeComplete fs t.

(** The nodes of [t'] are nodes of [t], the node of [name], or nodes of
    import paths of the file system that have the root prefix. *)
Definition registeredWithin (fs : gmap string DirEntry) (t : Tree)
    (name : string) (t' : Tree) : Prop :=
  ∀ k, is_Some (Packages t' !! k) →
    is_Some (Packages t !! k) ∨ k = name ∨
    (k ∈ universe fs ∧ strings.HasPrefix k (RootPkgPath t) = true).

(** The state of the loops of [Resolve name] for the invariants above:
    the imports of the node at work are in [importSet]. *)
Definition shapeInv (fs : gmap string DirEntry) (t0 : Tree) (name : string)
    (st : LoopState) : Prop :=
  atWork t0 name (fst st) ∧ treeShape (fst st) ∧ treeSound fs (fst st) ∧
  registeredWithin fs t0 name (fst st) ∧
  (∀ p, Packages (fst st) !! name = Some p →
        ∀ i, In i (Imports p) → i ∈ snd st).

(** What the proof of the invariants asks of the recursive calls. *)
Definition recShape (fs : gmap string DirEntry)
    (rec : Tree → string → Outcome) : Prop :=
  ∀ t i r tb, wfTree t → treeShape t → treeSound fs t →
    rec t i = Some (r, tb) →
    extends t tb ∧ is_Some (Packages tb !! i) ∧ wfTree tb ∧
    treeShape tb ∧ treeSound fs tb ∧ registeredWithin fs t i tb.

(** The analyzer [a] holding the tree [t]: what [a] is after a call of
    [AnalyzeChangedPackages] that left its tree as [t]. *)
Definition withTree (a : Analyzer) (t : Tree) : Analyzer :=
  {| cfg := cfg a; tree := Some t; repoPath := repoPath a;
     rootPkgPath := rootPkgPath a |}.

(** The changed package of a changed file, if the file is a Go file and
    not a test. *)
Definition changedPackageOf (rootPkgPath file : string) : option string :=
  if negb (strings.HasSuffix file ".go") || strings.HasSuffix file "_test.go"
  then None
  else Some (if String.eqb (filepath.Dir file) "." then rootPkgPath
             else rootPkgPath ++ "/" ++ filepath.Dir file).

(** ** [pkg/github] and [cmd]: the callers of the analysis *)

Module gostrings.

(** [strings.Split(s, sep)] for a separator of one byte: the pieces of
    [s] between the separators, empty ones included. *)
Fixpoint splitFrom (cur : string) (sep : ascii) (s : string) : list string :=
  match s with
  | EmptyString => [String.rev cur]
  | String c s' =>
      if Ascii.eqb c sep then String.rev cur :: splitFrom "" sep s'
      else splitFrom (String c cur) sep s'
  end.

Definition Split (s : string) (sep : ascii) : list string :=
  splitFrom "" sep s.

(** [strings.Contains(s, substr)] *)
Fixpoint Contains (s substr : string) : bool :=
  if String.prefix substr s then true
  else match s with
       | EmptyString => false
       | String _ s' => Contains s' substr
       end.

End gostrings.

Module github.

Section pagination.
Context {File : Type}.

(** [c.client.PullRequests.ListFiles] called with [opts.Page = page] ([0]
    while the field is unset): [None] for an error, else the files of the
    page and [resp.NextPage]. *)
Variable ListFiles : Z → option (list File * Z).

(** The loop of [GetPullRequestFiles], entered with [opts.Page = page]
    and the files gathered so far.  [None] when the fuel ran out, else
    the returned error ([None]) or list. *)
Fixpoint listFrom (fuel : nat) (page : Z) (allFiles : list File)
  : option (option (list File)) :=
  match fuel with
  | O => None
  | S fuel' =>
      match ListFiles page with
      | None => Some None
      | Some (files, nextPage) =>
          let allFiles := (allFiles ++ files)%list in
          if (nextPage =? 0)%Z then Some (Some allFiles)
          else listFrom fuel' nextPage allFiles
      end
  end.

(** [Client.GetPullRequestFiles] *)
Definition GetPullRequestFiles (fuel : nat) : option (option (list File)) :=
  listFrom fuel 0%Z [].

End pagination.

(** A server that holds the files of a pull request in [pages]: a request
    without a page number gets the first page, a request for page [n]
    gets page [n], each with the number of the next page, or [0] after
    the last one. *)
Definition servePages {File : Type} (pages : list (list File)) (page : Z)
  : option (list File * Z) :=
  let n := if (page =? 0)%Z then 1%Z else page in
  Some (nth (Z.to_nat (n - 1)) pages [],
        if (n <? Z.of_nat (length pages))%Z then (n + 1)%Z else 0%Z).

End github.

Module cmd.

(** The marker that [AnalysisResult.String] writes and [runAnalyze]
    looks for. *)
Definition marker : string := "<!-- dependency-guardian -->".

(** The errors of [runAnalyze] that concern the repository. *)
Inductive repoError : Type :=
| ErrRepositoryUnset
| ErrRepositoryFormat.

(** [runAnalyze], "Determine owner and repo": the two flags and the
    value of [GITHUB_REPOSITORY] (empty when unset). *)
Definition ownerAndRepo (ownerFlag repoFlag repoEnv : string)
  : repoError + string * string :=
  if negb (String.eqb ownerFlag "") && negb (String.eqb repoFlag "")
  then inr (ownerFlag, repoFlag)
  else if String.eqb repoEnv "" then inl ErrRepositoryUnset
  else
    match gostrings.Split repoEnv "/"%char with
    | [part0; part1] =>
        let owner := if negb (String.eqb ownerFlag "") then ownerFlag
                     else part0 in
        let repoName := if negb (String.eqb repoFlag "") then repoFlag
                        else part1 in
        inr (owner, repoName)
    | _ => inl ErrRepositoryFormat
    end.

(** A comment of the pull request as [runAnalyze] reads it: [GetBody]
    and [GetID], which are [""] and [0] for a missing field. *)
Record IssueComment : Type := mkIssueComment {
  Body : string;
  ID : Z
}.

(** The loop that finds the existing comment: the [ID] of the first
    comment whose body contains the marker, [0] if there is none. *)
Fixpoint existingCommentID (comments : list IssueComment) : Z :=
  match comments with
  | [] => 0%Z
  | comment :: rest =>
      if gostrings.Contains (Body comment) marker then ID comment
      else existingCommentID rest
  end.

(** The call that [runAnalyze] makes to post the report. *)
Inductive commentCall : Type :=
| UpdateComment (commentID : Z) (body : string)
| CreateComment (prNum : Z) (body : string).

(** What the last part of [runAnalyze] does: nothing, under
    [--no-comment]; a return with the error of [ListComments]; or one
    call, whose own error [runAnalyze] returns. *)
Inductive postOutcome : Type :=
| Skipped
| ErrListComments
| Posted (call : commentCall).

(** [runAnalyze], "Post or update PR comment".  [listed] is what
    [client.ListComments] returned: [None] for an error, else the
    comments of its one request, which passes nil options and so gets
    the first page of the comments of the pull request, not all of
    them. *)
Definition postReport (noCommentFlag : bool)
    (listed : option (list IssueComment)) (prNum : Z)
    (result : AnalysisResult) : postOutcome :=
  if negb noCommentFlag then
    match listed with
    | None => ErrListComments
    | Some comments =>
        let existingCommentID := existingCommentID comments in
        let report := AnalysisResult_String result in
        if negb (existingCommentID =? 0)%Z
        then Posted (UpdateComment existingCommentID report)
        else Posted (CreateComment prNum report)
    end
  else Skipped.

(** The number of slashes of a string. *)
Definition slashes (s : string) : nat :=
  length (List.filter (fun c => Ascii.eqb c "/"%char) (list_ascii_of_string s)).

End cmd.

(** The names of the affected packages of a list of impacts. *)
Definition affectedNames (impacts : list PackageImpact) : list string :=
  map AffectedPackage.Name (concat (map AffectedPackages impacts)).

(** ** Reachability along the internal imports *)

(** [k] is one of [roots] or is reached from one of them along internal
    imports, as the directories of the file system have them. *)
Inductive reachable (fs : gmap string DirEntry) (t : Tree)
    (roots : list string) : string → Prop :=
| reach_root k : In k roots → reachable fs t roots k
| reach_step j k :
    reachable fs t roots j → In k (internalImports fs t j) →
    reachable fs t roots k.

(** No directory fails to parse and none is without a Go file. *)
Definition noFailure (fs : gmap string DirEntry) : Prop :=
  ∀ dir, fs !! dir ≠ Some ParseFailed ∧ fs !! dir ≠ Some (Parsed []).

(** The package paths that the walk passes to [Resolve]. *)
Definition walkRoots (rootPkgPath : string) (dirs : list string)
  : list string :=
  map (fun d => rootPkgPath ++ "/" ++ filepath.ToSlash d)
      (List.filter (fun d => negb (String.eqb (filepath.ToSlash d) ".")) dirs).

(** What the proof of reachability asks of the recursive calls. *)
Definition recReach (fs : gmap string DirEntry)
    (rec : Tree → string → Outcome) : Prop :=
  ∀ t i r tb, rec t i = Some (r, tb) →
    ∀ k, is_Some (Packages tb !! k) →
         is_Some (Packages t !! k) ∨ reachable fs t [i] k.

(** The state of the loops of [Resolve name] for reachability. *)
Definition reachInv (fs : gmap string DirEntry) (t0 : Tree) (name : string)
    (st : LoopState) : Prop :=
  atWork t0 name (fst st) ∧
  ∀ k, is_Some (Packages (fst st) !! k) →
       is_Some (Packages t0 !! k) ∨ reachable fs t0 [name] k.

(** Two trees with the same graph: the same names registered and, under
    each, the same dependencies as a set. *)
Definition sameGraph (t1 t2 : Tree) : Prop :=
  ∀ k, match Packages t1 !! k, Packages t2 !! k with
       | Some p1, Some p2 =>
           ∀ i, In i (Dependencies p1) ↔ In i (Dependencies p2)
       | None, None => True
       | _, _ => False
       end.

(** The directory tree of [fsOrder1] with a file of [z] that parses, read
    with the two files of [p] in the two orders. *)
Definition fsWhole1 : gmap string DirEntry :=
  {[ "/r/p" := Parsed [("p", [("/r/p/a.go", [quoted "m/q"]);
                              ("/r/p/b.go", [quoted "m/z"])])];
     "/r/q" := Parsed [("q", [("/r/q/q.go", [quoted "m/z"])])];
     "/r/z" := Parsed [("z", [("/r/z/z.go", [])])] ]}.

Definition fsWhole2 : gmap string DirEntry :=
  {[ "/r/p" := Parsed [("p", [("/r/p/b.go", [quoted "m/z"]);
                              ("/r/p/a.go", [quoted "m/q"])])];
     "/r/q" := Parsed [("q", [("/r/q/q.go", [quoted "m/z"])])];
     "/r/z" := Parsed [("z", [("/r/z/z.go", [])])] ]}.

(** A second matcher for the examples: what [doublestar.Match] answers
    for a pattern of one of three shapes, on a package path.  The pattern
    [**] matches every path; [**/x], where [x] has no metacharacter,
    matches [x] and every path that ends in [/x]; a pattern without
    metacharacter matches the path equal to it. *)
Definition matchPath (pattern name : string) : bool :=
  if String.eqb pattern "**" then true
  else if strings.HasPrefix pattern "**/" then
    String.eqb name (strings.TrimPrefix pattern "**/")
    || strings.HasSuffix name ("/" ++ strings.TrimPrefix pattern "**/")
  else String.eqb pattern name.

(** The test of the repository, [TestAnalyzeChangedPackages_SimpleDependency]:
    module [github.com/a/b], package [c] imports package [d], the
    configuration is the default one with [**/c] critical, and [d/d.go]
    changed. *)
Definition cfgCriticalC : config.Config :=
  {| config.Targets := config.Targets config.DefaultConfig;
     config.Patterns := config.Patterns config.DefaultConfig;
     config.Analysis := config.Analysis config.DefaultConfig;
     config.Critical := {| config.Packages := ["**/c"] |} |}.

Definition fsTest : gmap string DirEntry :=
  {[ "/repo/c" := Parsed [("c", [("/repo/c/c.go",
                                  [quoted "github.com/a/b/d"])])];
     "/repo/d" := Parsed [("d", [("/repo/d/d.go", [])])] ]}.

Definition testRun : option (error + AnalysisResult * Tree) :=
  AnalyzeChangedPackages matchPath fsTest (Some ["c"; "d"]) 5
    (SetRootPackage (NewAnalyzer cfgCriticalC "/repo") "github.com/a/b")
    ["d/d.go"].

(** Two configurations that filter: one ignores [m/q] and names no
    high-level package, the other names [m/q] as the one high-level
    package and ignores [m/x]. *)
Definition cfgIgnoreQ : config.Config :=
  {| config.Targets := {| config.HighLevelPackages := [] |};
     config.Patterns := {| config.IgnorePatterns := ["m/q"];
                           config.IncludePatterns := [] |};
     config.Analysis := {| config.MaxDepth := 10;
                           config.MinImpactThreshold := 0 |};
     config.Critical := {| config.Packages := [] |} |}.

Definition cfgTargetQ : config.Config :=
  {| config.Targets := {| config.HighLevelPackages := ["m/q"] |};
     config.Patterns := {| config.IgnorePatterns := ["m/x"];
                           config.IncludePatterns := [] |};
     config.Analysis := {| config.MaxDepth := 10;
                           config.MinImpactThreshold := 0 |};
     config.Critical := {| config.Packages := [] |} |}.

(** The analysis of [fsWhole1] under a configuration, when [z/z.go]
    changed: [m/z] has the dependents [m/p] and [m/q]. *)
Definition filterRun (c : config.Config)
  : option (error + AnalysisResult * Tree) :=
  AnalyzeChangedPackages matchPath fsWhole1 (Some ["p"; "q"; "z"]) 5
    (analyzerM c) ["z/z.go"].

(** The analysis of [fsWhole1] when [z/z.go] and [q/q.go] changed:
    [m/p] depends on both changed packages. *)
Definition sharedRun : option (error + AnalysisResult * Tree) :=
  AnalyzeChangedPackages matchDoubleStar fsWhole1 (Some ["p"; "q"; "z"]) 5
    (analyzerM cfgNoPatterns) ["z/z.go"; "q/q.go"].

(** The state of the loops of [Resolve name] for the imports of the node
    at work: every path of [importSet] is among them. *)
Definition importsInv (t0 : Tree) (name : string) (st : LoopState) : Prop :=
  sameRoot t0 (fst st) ∧
  ∃ p, Packages (fst st) !! name = Some p ∧
       ∀ i, i ∈ snd st → In i (Imports p).

(** Module [example.com/repo] checked out in [/r]: package [a] imports
    [example.com/repo-other/x], which is not under the module root, and
    [fmt]. *)
Definition treeRepo : Tree := NewTree "/r" "example.com/repo".

Definition fsRepo : gmap string DirEntry :=
  {[ "/r/a" := Parsed [("a", [("/r/a/a.go",
                               [quoted "example.com/repo-other/x";
                                quoted "fmt"])])] ]}.

(** The regular files that a file system shows: the files of the
    directories that parse, under the path by which the parser names
    them. *)
Definition isRegularFile (fs : gmap string DirEntry) (path : string) : Prop :=
  ∃ dir pkgs (pkg : ParsedPkg) (f : ParsedFile),
    fs !! dir = Some (Parsed pkgs) ∧ In pkg pkgs ∧ In f (snd pkg) ∧
    fst f = path.

(** A path that runs through a regular file: no directory exists
    there. *)
Definition underRegularFile (fs : gmap string DirEntry) (dir : string)
  : Prop :=
  ∃ file rest, isRegularFile fs file ∧ dir = file ++ "/" ++ rest.

(** Package [p] imports [m/p/a.go/x], whose directory would lie under
    the regular file [a.go] of [p]: [os.Stat] fails with [ENOTDIR] and
    [ParseDir] fails. *)
Definition fsUnderFile : gmap string DirEntry :=
  {[ "/r/p" := Parsed [("p", [("/r/p/a.go", [quoted "m/p/a.go/x"])])];
     "/r/p/a.go/x" := ParseFailed ]}.

(** Package [a] imports [m/gone], which has no directory, and then
    [m/b]. *)
Definition fsGone : gmap string DirEntry :=
  {[ "/r/a" := Parsed [("a", [("/r/a/a.go", [quoted "m/gone"; quoted "m/b"])])];
     "/r/b" := Parsed [("b", [("/r/b/b.go", [])])] ]}.


(** A path without double quote and without backslash: the literal
    [quoted path] is a valid interpreted string literal, without escape,
    and denotes [path]. *)
Definition plainPath (path : string) : bool :=
  forallb (fun c => negb (Ascii.eqb c "034"%char)
                    && negb (Ascii.eqb c "092"%char))
          (list_ascii_of_string path).

(** Every import of every file is written as an interpreted string
    literal without escape. *)
Definition interpretedImports (fs : gmap string DirEntry) : Prop :=
  ∀ dir pkgs (pkg : ParsedPkg) (f : ParsedFile) l,
    fs !! dir = Some (Parsed pkgs) → In pkg pkgs → In f (snd pkg) →
    In l (snd f) → ∃ path, l = quoted path ∧ plainPath path = true.


(** * Properties *)

Example Clean_ex1 : filepath.Clean "a//b/./c/.." = "a/b". Proof. reflexivity. Qed.
Example Clean_ex2 : filepath.Clean "/../a/" = "/a". Proof. reflexivity. Qed.
Example Clean_ex3 : filepath.Clean "a/../../b" = "../b". Proof. reflexivity. Qed.
Example Clean_ex4 : filepath.Clean "" = ".". Proof. reflexivity. Qed.
Example Join_ex1 : filepath.Join "/repo" "" = "/repo". Proof. reflexivity. Qed.
Example Join_ex2 : filepath.Join "/repo" "pkg/x" = "/repo/pkg/x". Proof. reflexivity. Qed.
Example Dir_ex1 : filepath.Dir "d/d.go" = "d". Proof. reflexivity. Qed.
Example Dir_ex2 : filepath.Dir "main.go" = ".". Proof. reflexivity. Qed.
Example Dir_ex3 : filepath.Dir "/a" = "/". Proof. reflexivity. Qed.
Example Suffix_ex : strings.HasSuffix "x_test.go" "_test.go" = true. Proof. reflexivity. Qed.
Example Suffix_ex2 : strings.HasSuffix "go" "_test.go" = false. Proof. reflexivity. Qed.
Example TrimPrefix_ex : strings.TrimPrefix "m/p" "m" = "/p". Proof. reflexivity. Qed.

(** ** Loops *)

Section forRange.
Context {A S : Type}.
Implicit Types (body : S → A → option S) (l : list A) (s : S).

(** An invariant kept by every completed iteration holds at the end. *)
Lemma forRange_inv (I : S → Prop) body l s s' :
  I s →
  (∀ s a s', In a l → I s → body s a = Some s' → I s') →
  forRange body l s = Some s' → I s'.
Proof.
  revert s. induction l as [|a l IH]; simpl; intros s Hs Hstep Hrun.
  - congruence.
  - destruct (body s a) as [s1|] eqn:Hb; [|discriminate].
    apply (IH s1); eauto.
Qed.

(** With an invariant, a fact established by the iteration on [a] and
    kept by the other iterations holds at the end for every [a]. *)
Lemma forRange_post (I : S → Prop) (Q : A → S → Prop) body l s s' :
  I s →
  (∀ s a s', In a l → I s → body s a = Some s' → I s' ∧ Q a s') →
  (∀ b s a s', In a l → I s → body s a = Some s' → Q b s → Q b s') →
  forRange body l s = Some s' →
  I s' ∧ ∀ a, In a l → Q a s'.
Proof.
  intros Hs Hstep Hkeep Hrun.
  cut (I s' ∧ ∀ a, In a l ∨ Q a s → Q a s').
  { intros [? H]. split; [done|]. intros a Ha. apply H. by left. }
  revert s Hs Hrun. induction l as [|a l IH]; simpl; intros s Hs Hrun.
  - inversion Hrun; subst. split; [done|]. intros a [[]|]; done.
  - destruct (body s a) as [s1|] eqn:Hb; [|discriminate].
    destruct (Hstep s a s1 (or_introl eq_refl) Hs Hb) as [Hs1 Hq].
    destruct (IH (fun s a s' H => Hstep s a s' (or_intror H))
                 (fun b s a s' H => Hkeep b s a s' (or_intror H))
                 s1 Hs1 Hrun) as [HI HQ].
    split; [done|]. intros b [[->|Hb']|Hb'].
    + apply HQ. by right.
    + apply HQ. by left.
    + apply HQ. right.
      exact (Hkeep b s a s1 (or_introl eq_refl) Hs Hb Hb').
Qed.

(** A loop whose iterations all complete, completes. *)
Lemma forRange_total (I : S → Prop) body l s :
  I s →
  (∀ s a, In a l → I s → ∃ s', body s a = Some s' ∧ I s') →
  ∃ s', forRange body l s = Some s' ∧ I s'.
Proof.
  revert s. induction l as [|a l IH]; simpl; intros s Hs Hstep.
  - eauto.
  - destruct (Hstep s a (or_introl eq_refl) Hs) as (s1 & -> & Hs1). auto.
Qed.

(** A loop keeps its result when its body is replaced by one that
    completes at least where it did, with the same result. *)
Lemma forRange_mono body body' l s s' :
  (∀ s a s', In a l → body s a = Some s' → body' s a = Some s') →
  forRange body l s = Some s' → forRange body' l s = Some s'.
Proof.
  revert s. induction l as [|a l IH]; simpl; intros s Hle Hrun; [done|].
  destruct (body s a) as [s1|] eqn:Hb; [|discriminate].
  rewrite (Hle s a s1); auto.
Qed.
End forRange.

(** ** Elementary facts on trees *)

Lemma sameRoot_refl t : sameRoot t t.
Proof. by repeat split. Qed.

Lemma sameRoot_trans t1 t2 t3 : sameRoot t1 t2 → sameRoot t2 t3 → sameRoot t1 t3.
Proof. unfold sameRoot. intros (?&?&?) (?&?&?). repeat split; congruence. Qed.

Lemma sameRoot_sym t1 t2 : sameRoot t1 t2 → sameRoot t2 t1.
Proof. unfold sameRoot. intros (?&?&?). repeat split; congruence. Qed.

Lemma sameRoot_setPackages t m : sameRoot t (setPackages t m).
Proof. by repeat split. Qed.

Lemma sameRoot_pkgDir t t' k : sameRoot t t' → pkgDir t k = pkgDir t' k.
Proof. unfold pkgDir. intros (_ & -> & ->). done. Qed.

Lemma pkgDir_setPackages t m k : pkgDir (setPackages t m) k = pkgDir t k.
Proof. reflexivity. Qed.

Lemma extends_refl t : extends t t.
Proof. split; [apply sameRoot_refl | done]. Qed.

Lemma extends_trans t1 t2 t3 : extends t1 t2 → extends t2 t3 → extends t1 t3.
Proof.
  intros [R12 F12] [R23 F23]. split; [by eapply sameRoot_trans | auto].
Qed.

Lemma lookup_modifyPkg n f t k :
  Packages (modifyPkg n f t) !! k =
  if decide (n = k) then f <$> Packages t !! k else Packages t !! k.
Proof.
  unfold modifyPkg. simpl. rewrite lookup_alter. by case_decide; subst.
Qed.

Lemma lookup_modifyPkg_ne n f t k :
  n ≠ k → Packages (modifyPkg n f t) !! k = Packages t !! k.
Proof. intros. rewrite lookup_modifyPkg. by case_decide. Qed.

Lemma lookup_modifyPkg_is_Some n f t k :
  is_Some (Packages (modifyPkg n f t) !! k) ↔ is_Some (Packages t !! k).
Proof.
  rewrite lookup_modifyPkg. case_decide; [|done].
  by rewrite fmap_is_Some.
Qed.

Lemma wfTree_modifyPkg n f t :
  (∀ p, Name (f p) = Name p) → wfTree t → wfTree (modifyPkg n f t).
Proof.
  intros Hf Hwf k p. rewrite lookup_modifyPkg. case_decide.
  - destruct (Packages t !! k) as [p0|] eqn:E; simpl; [|done].
    intros [= <-]. rewrite Hf. eauto.
  - apply Hwf.
Qed.

Lemma atWork_modifyPkg t0 name f t :
  Packages t0 !! name = None →
  (∀ p, Name (f p) = Name p) →
  atWork t0 name t → atWork t0 name (modifyPkg name f t).
Proof.
  intros Hnew Hf ([HR HF] & Hin & Hwf). split; [split|split].
  - eapply sameRoot_trans; [done|]. apply sameRoot_setPackages.
  - intros k p Hk. rewrite lookup_modifyPkg_ne; [auto|]. congruence.
  - by apply lookup_modifyPkg_is_Some.
  - intros. apply wfTree_modifyPkg; auto.
Qed.

Lemma atWork_extends t0 name t t' :
  atWork t0 name t → extends t t' → (wfTree t → wfTree t') → atWork t0 name t'.
Proof.
  intros (Hext & [p Hin] & Hwf) Hext' Hwf'. split; [|split].
  - by eapply extends_trans.
  - exists p. by apply Hext'.
  - auto.
Qed.

(** The trees the program builds are well formed: [NewTree] is, and
    [Resolve] keeps a tree so ([Resolve_extends] below). *)
Lemma wfTree_NewTree rootDir rootPkgPath : wfTree (NewTree rootDir rootPkgPath).
Proof. intros k p Hk. simpl in Hk. by rewrite lookup_empty in Hk. Qed.

(** ** The steps of [Resolve] *)

Lemma Resolve_S fs fuel t pkgName :
  Resolve fs (S fuel) t pkgName =
  match Packages t !! pkgName with
  | Some _ => Some (None, t)
  | None =>
      let pkg :=
        {| Name := pkgName;
           Internal := strings.HasPrefix pkgName (RootPkgPath t);
           Files := []; Imports := []; Dependencies := [] |} in
      let t := setPackages t (<[pkgName := pkg]> (Packages t)) in
      let pkgPath := pkgDir t pkgName in
      match fs !! pkgPath with
      | None => Some (None, t)
      | Some ParseFailed => Some (Some (ErrParse pkgName pkgPath), t)
      | Some (Parsed pkgs) =>
          match pkgs with
          | [] => Some (Some (ErrNoPackages pkgPath), t)
          | _ =>
              match forRange (visitPackage (Resolve fs fuel) pkgName)
                             pkgs (t, ∅) with
              | Some (t, _) => Some (None, t)
              | None => None
              end
          end
      end
  end.
Proof. reflexivity. Qed.

(** What one iteration over an import does. *)
Lemma visitImport_inv rec name t S lit st' :
  visitImport rec name (t, S) lit = Some st' →
  let i := strings.Trim lit dquote in
  ((strings.HasPrefix i (RootPkgPath t) = false ∨ i ∈ S) ∧ st' = (t, S)) ∨
  (strings.HasPrefix i (RootPkgPath t) = true ∧ (i ∉ S) ∧
   ∃ r tb, rec (modifyPkg name (appendImport i) t) i = Some (r, tb) ∧
           st' = (afterImport name i r tb, {[i]} ∪ S)).
Proof.
  unfold visitImport. simpl.
  destruct (strings.HasPrefix _ _) eqn:Hp; simpl.
  - case_bool_decide as Hin; simpl.
    + intros [= <-]. left. auto.
    + destruct (rec _ _) as [[r tb]|] eqn:Hrec; [|discriminate].
      intros Hst. right. split; [done|]. split; [done|].
      exists r, tb. split; [done|].
      unfold afterImport. destruct r; [congruence|].
      destruct (Packages tb !! _); congruence.
  - intros [= <-]. left. auto.
Qed.

(** The three nested loops keep an invariant that the two mutations of
    the node and the treatment of one import keep. *)
Lemma loops_inv (I : LoopState → Prop) rec name pkgs st st' :
  I st →
  (∀ t S filename, I (t, S) → I (modifyPkg name (appendFile filename) t, S)) →
  (∀ st lit st', I st → visitImport rec name st lit = Some st' → I st') →
  forRange (visitPackage rec name) pkgs st = Some st' → I st'.
Proof.
  intros Hst Hfile Himp. apply forRange_inv; [done|].
  intros s p s1 _ Hs. unfold visitPackage. apply forRange_inv; [done|].
  clear s Hs s1. intros s [filename imports] s1 _ Hs. unfold visitFile.
  destruct (strings.HasSuffix filename "_test.go"); [by intros [= <-]|].
  destruct s as [t S]. apply forRange_inv; [by apply Hfile|].
  intros ? ? ? _. apply Himp.
Qed.

(** ** What a call of [Resolve] leaves untouched *)

Lemma Resolve_extends fs fuel : ∀ t name r t',
  Resolve fs fuel t name = Some (r, t') →
  extends t t' ∧ is_Some (Packages t' !! name) ∧ (wfTree t → wfTree t').
Proof.
  induction fuel as [|fuel IH]; intros t name r t'; [done|].
  rewrite Resolve_S.
  destruct (Packages t !! name) as [p|] eqn:Hlook.
  { intros [= <- <-]. split; [apply extends_refl|]. split; [by eexists|done]. }
  cbv zeta.
  set (pkg := {| Name := name; Internal := _; Files := []; Imports := [];
                 Dependencies := [] |}).
  set (t1 := setPackages t (<[name:=pkg]> (Packages t))).
  assert (Hw1 : atWork t name t1).
  { split; [split|split].
    - apply sameRoot_setPackages.
    - intros k p Hk. simpl. rewrite lookup_insert_ne; [done|congruence].
    - simpl. rewrite lookup_insert_eq. by eexists.
    - intros Hwf k p. simpl. rewrite lookup_insert. case_decide.
      + intros [= <-]. by subst.
      + apply Hwf. }
  destruct (fs !! pkgDir t1 name) as [[|pkgs]|]; [| |].
  - intros [= <- <-]. apply Hw1.
  - destruct pkgs as [|p0 pkgs0]; [intros [= <- <-]; apply Hw1|].
    destruct (forRange _ _ _) as [[t2 S2]|] eqn:Hloop; [|discriminate].
    intros [= <- <-].
    change (atWork t name (fst (t2, S2))).
    eapply (loops_inv (fun st => atWork t name (fst st))); [| | |exact Hloop].
    + exact Hw1.
    + intros t3 S3 filename H3. simpl in *. by apply atWork_modifyPkg.
    + intros [t3 S3] lit st3 H3 Hstep. simpl in H3.
      apply visitImport_inv in Hstep as [[_ ->]|(_ & _ & r0 & tb & Hrec & ->)];
        [done|]. simpl.
      apply IH in Hrec as (Hext & Hin & Hwf).
      assert (Hb : atWork t name tb).
      { eapply atWork_extends; [|exact Hext|exact Hwf].
        by apply atWork_modifyPkg. }
      unfold afterImport. destruct r0; [done|].
      destruct (Packages tb !! _); [|done].
      by apply atWork_modifyPkg.
  - intros [= <- <-]. apply Hw1.
Qed.

(** ** Idempotence (C2) *)

(** C2.  [Resolve] is idempotent.  On a package path that is already in
    the package map it returns at once with no error and the tree, that is
    the map and with it every node's [Files], [Imports] and
    [Dependencies], is the very tree it was given; and since a completed
    call leaves its path registered, a second call on the same path right
    after the first changes nothing. *)
Theorem Resolve_idempotent fs fuel t pkgName :
  (is_Some (Packages t !! pkgName) →
   Resolve fs (S fuel) t pkgName = Some (None, t)) ∧
  (∀ r t', Resolve fs fuel t pkgName = Some (r, t') →
           ∀ fuel', Resolve fs (S fuel') t' pkgName = Some (None, t')).
Proof.
  split.
  - intros [p Hp]. rewrite Resolve_S. by rewrite Hp.
  - intros r t' Hrun fuel'.
    apply Resolve_extends in Hrun as (_ & [p Hp] & _).
    rewrite Resolve_S. by rewrite Hp.
Qed.

(** ** Missing directories (C5) *)


(** ** Directories without source (C4) *)

(** A loop over files that are all test files leaves the state as it is. *)
Lemma visitPackage_all_tests rec name (p : ParsedPkg) st :
  Forall (fun f => isTestFile f = true) (snd p) →
  visitPackage rec name st p = Some st.
Proof.
  unfold visitPackage. induction 1 as [|[filename imports] fl Hf _ IH];
    simpl; [done|].
  unfold isTestFile in Hf. simpl in Hf. by rewrite Hf.
Qed.

Lemma forRange_all_tests rec name (pkgs : list ParsedPkg) st :
  Forall (fun p : ParsedPkg =>
            Forall (fun f => isTestFile f = true) (snd p)) pkgs →
  forRange (visitPackage rec name) pkgs st = Some st.
Proof.
  induction 1 as [|p pl Hp _ IH]; simpl; [done|].
  by rewrite visitPackage_all_tests.
Qed.

(** C4, as the code has it.  For a package path not yet registered whose
    directory exists: the call fails when the parser fails and when the
    directory holds no Go file at all, test files counted; when the
    directory holds Go files that are all test files the call returns no
    error and leaves the empty node. *)
Theorem Resolve_no_source fs fuel t pkgName :
  Packages t !! pkgName = None →
  let t1 := setPackages t (<[pkgName := emptyNode t pkgName]> (Packages t)) in
  (fs !! pkgDir t pkgName = Some ParseFailed →
   Resolve fs (S fuel) t pkgName =
   Some (Some (ErrParse pkgName (pkgDir t pkgName)), t1)) ∧
  (fs !! pkgDir t pkgName = Some (Parsed []) →
   Resolve fs (S fuel) t pkgName =
   Some (Some (ErrNoPackages (pkgDir t pkgName)), t1)) ∧
  (∀ pkgs, fs !! pkgDir t pkgName = Some (Parsed pkgs) → pkgs ≠ [] →
     Forall (fun p : ParsedPkg =>
               Forall (fun f => isTestFile f = true) (snd p)) pkgs →
     Resolve fs (S fuel) t pkgName = Some (None, t1)).
Proof.
  intros Hp t1. rewrite Resolve_S, Hp. cbv zeta.
  rewrite pkgDir_setPackages. split; [|split].
  - by intros ->.
  - by intros ->.
  - intros pkgs -> Hne Hall. destruct pkgs as [|p0 pkgs0]; [done|].
    by rewrite forRange_all_tests.
Qed.

(** A directory holding only a test file: [Resolve] returns no error and
    leaves the empty node.  This is the input on which C4 as worded fails. *)
Lemma Resolve_test_only_counterexample :
  fsTestOnly !! pkgDir treeM "m/p" =
    Some (Parsed [("p", [("/r/p/p_test.go", [quoted "testing"])])]) ∧
  strings.HasSuffix "/r/p/p_test.go" "_test.go" = true ∧
  Resolve fsTestOnly 1 treeM "m/p" =
    Some (None, setPackages treeM {[ "m/p" := emptyNode treeM "m/p" ]}) ∧
  ¬ ∃ e t', Resolve fsTestOnly 1 treeM "m/p" = Some (Some e, t').
Proof.
  split; [reflexivity|]. split; [reflexivity|].
  assert (H : Resolve fsTestOnly 1 treeM "m/p" =
    Some (None, setPackages treeM {[ "m/p" := emptyNode treeM "m/p" ]})).
  { vm_compute. reflexivity. }
  split; [exact H|]. intros (e & t' & He). congruence.
Qed.

Lemma Resolve_no_source_witness :
  Resolve fsBroken 1 treeM "m/bad" =
    Some (Some (ErrParse "m/bad" "/r/bad"),
          setPackages treeM {[ "m/bad" := emptyNode treeM "m/bad" ]}) ∧
  Resolve fsBroken 1 treeM "m/e" =
    Some (Some (ErrNoPackages "/r/e"),
          setPackages treeM {[ "m/e" := emptyNode treeM "m/e" ]}) ∧
  Resolve fsTestOnly 1 treeM "m/p" =
    Some (None, setPackages treeM {[ "m/p" := emptyNode treeM "m/p" ]}).
Proof.
  split; [|split].
  - apply (Resolve_no_source fsBroken 0 treeM "m/bad"); reflexivity.
  - apply (Resolve_no_source fsBroken 0 treeM "m/e"); reflexivity.
  - apply (Resolve_no_source fsTestOnly 0 treeM "m/p" eq_refl) with
      (pkgs := [("p", [("/r/p/p_test.go", [quoted "testing"])])]).
    + reflexivity.
    + discriminate.
    + repeat constructor.
Defined.


Lemma Resolve_idempotent_witness :
  Resolve fsCycle 1 cycleTree "m/b" = Some (None, cycleTree) ∧
  Resolve fsCycle 1 cycleTree "m/a" = Some (None, cycleTree).
Proof.
  split.
  - apply (Resolve_idempotent fsCycle 0 cycleTree "m/b").
    vm_compute. by eexists.
  - apply (proj2 (Resolve_idempotent fsCycle 3 treeM "m/a") None cycleTree).
    vm_compute. reflexivity.
Defined.

(** ** Pattern predicates (C9) *)

(** C9.  With an empty list of critical patterns [IsCriticalPackage] is
    false for every package path, whatever the matcher; with an empty list
    of high-level patterns [IsHighLevelPackage] is, on the contrary, true
    for every package path. *)
Theorem IsCriticalPackage_empty (Match : string → string → bool)
    (c : config.Config) (pkgPath : string) :
  (config.Packages (config.Critical c) = [] →
   config.IsCriticalPackage Match c pkgPath = false) ∧
  (config.HighLevelPackages (config.Targets c) = [] →
   config.IsHighLevelPackage Match c pkgPath = true).
Proof.
  unfold config.IsCriticalPackage, config.IsHighLevelPackage.
  split; intros ->; reflexivity.
Qed.

Lemma IsCriticalPackage_empty_witness :
  config.IsCriticalPackage (fun _ _ => true) config.DefaultConfig "m/p" = false ∧
  config.IsHighLevelPackage (fun _ _ => false) cfgNoPatterns "m/p" = true.
Proof.
  split.
  - apply (IsCriticalPackage_empty (fun _ _ => true) config.DefaultConfig "m/p").
    reflexivity.
  - apply (IsCriticalPackage_empty (fun _ _ => false) cfgNoPatterns "m/p").
    reflexivity.
Defined.

(** ** Internal packages (C10) *)

Lemma prefix_iff_app (s1 s2 : string) :
  String.prefix s1 s2 = true ↔ ∃ rest, s2 = s1 ++ rest.
Proof.
  revert s2. induction s1 as [|a s1 IH]; intros s2; simpl.
  - destruct s2; split; eauto.
  - destruct s2 as [|b s2]; simpl.
    + split; [done|]. intros [rest H]. discriminate.
    + destruct (ascii_dec a b) as [->|Hne].
      * rewrite IH. split; intros [rest H]; exists rest.
        -- by rewrite H.
        -- by injection H.
      * split; [done|]. intros [rest H]. injection H. congruence.
Qed.


(** ** Reverse dependencies (C6) *)

Lemma hasDependency_In deps pkgName :
  hasDependency deps pkgName = true ↔ In pkgName deps.
Proof.
  induction deps as [|d deps IH]; simpl; [done|].
  destruct (String.eqb d pkgName) eqn:E.
  - apply String.eqb_eq in E. split; auto.
  - apply String.eqb_neq in E. rewrite IH. split; [auto|]. by intros [|].
Qed.

(** The loop is a filter: it keeps the order of the visit. *)
Lemma FindReverseDependenciesIn_filter nodes pkgName :
  FindReverseDependenciesIn nodes pkgName =
  List.filter (fun pkg => negb (String.eqb (Name pkg) pkgName)
                          && hasDependency (Dependencies pkg) pkgName) nodes.
Proof.
  unfold FindReverseDependenciesIn.
  rewrite <- (app_nil_l (List.filter _ nodes)).
  generalize (@nil Pkg) as acc.
  induction nodes as [|pkg nodes IH]; intros acc; simpl.
  - by rewrite app_nil_r.
  - rewrite IH. unfold visitNode.
    destruct (String.eqb (Name pkg) pkgName); simpl; [done|].
    destruct (hasDependency _ _); simpl; [|done].
    by rewrite <- app_assoc.
Qed.

(** C6.  [FindReverseDependencies] returns exactly the registered nodes
    that hold the queried path, by name, in their own [Dependencies] and
    whose name is not the queried path.  Only the node's own list counts:
    a node that reaches the path through other nodes and does not hold it
    is not returned. *)
Theorem FindReverseDependencies_spec (t : Tree) (pkgName : string) (p : Pkg) :
  In p (FindReverseDependencies t pkgName) ↔
  (∃ k, Packages t !! k = Some p) ∧
  In pkgName (Dependencies p) ∧ Name p ≠ pkgName.
Proof.
  unfold FindReverseDependencies. rewrite FindReverseDependenciesIn_filter.
  rewrite filter_In, in_map_iff, andb_true_iff, negb_true_iff.
  rewrite hasDependency_In, String.eqb_neq. split.
  - intros ([[k p'] [Heq Hin]] & Hne & Hdep). simpl in Heq. subst p'.
    split; [|done]. exists k.
    apply elem_of_map_to_list. by apply list_elem_of_In.
  - intros ([k Hk] & Hdep & Hne). split; [|done].
    exists (k, p). split; [done|].
    apply list_elem_of_In. by apply elem_of_map_to_list.
Qed.

(** One hop only: in the chain [a] imports [b] imports [c], the dependents
    of [c] are [b] alone. *)
Example FindReverseDependencies_one_hop :
  map Name (FindReverseDependencies
              (treeAfter (Resolve fsChain 4 treeM "m/a")) "m/c") = ["m/b"].
Proof. vm_compute. reflexivity. Qed.

(** ** More fuel changes nothing *)

Section mono.
Variables rec rec' : Tree → string → Outcome.
Hypothesis rec_le : ∀ t i x, rec t i = Some x → rec' t i = Some x.

Lemma visitImport_mono name st lit st' :
  visitImport rec name st lit = Some st' →
  visitImport rec' name st lit = Some st'.
Proof.
  destruct st as [t S]. unfold visitImport.
  destruct (_ && _); [|done].
  destruct (rec _ _) as [x|] eqn:Hrec; [|discriminate].
  by rewrite (rec_le _ _ _ Hrec).
Qed.

Lemma visitFile_mono name st f st' :
  visitFile rec name st f = Some st' → visitFile rec' name st f = Some st'.
Proof.
  destruct f as [filename imports], st as [t S]. unfold visitFile.
  destruct (strings.HasSuffix _ _); [done|].
  apply forRange_mono. intros ? ? ? _. apply visitImport_mono.
Qed.

Lemma visitPackage_mono name st p st' :
  visitPackage rec name st p = Some st' →
  visitPackage rec' name st p = Some st'.
Proof.
  unfold visitPackage. apply forRange_mono. intros ? ? ? _.
  apply visitFile_mono.
Qed.
End mono.

Lemma Resolve_fuel_mono fs fuel : ∀ fuel' t name x,
  (fuel ≤ fuel')%nat →
  Resolve fs fuel t name = Some x → Resolve fs fuel' t name = Some x.
Proof.
  induction fuel as [|fuel IH]; intros fuel' t name x Hle; [done|].
  destruct fuel' as [|fuel']; [lia|].
  rewrite !Resolve_S. destruct (Packages t !! name); [done|]. cbv zeta.
  destruct (fs !! _) as [[|pkgs]|]; [done| |done].
  destruct pkgs as [|p0 pkgs0]; [done|].
  destruct (forRange (visitPackage (Resolve fs fuel) name) _ _)
    as [st|] eqn:Hloop; [|discriminate].
  erewrite forRange_mono; [done| |exact Hloop].
  intros s a s' _. apply visitPackage_mono.
  intros t0 i x0. apply IH. lia.
Qed.

(** ** Termination *)

Lemma universe_intro fs dir pkgs (p : ParsedPkg) (f : ParsedFile) l :
  fs !! dir = Some (Parsed pkgs) → In p pkgs → In f (snd p) → In l (snd f) →
  strings.Trim l dquote ∈ universe fs.
Proof.
  intros Hdir Hp Hf Hl. unfold universe.
  apply elem_of_list_to_set, list_elem_of_In, in_flat_map.
  exists (dir, Parsed pkgs). split.
  { apply list_elem_of_In. by apply elem_of_map_to_list. }
  simpl. apply in_flat_map. exists p. split; [done|].
  apply in_flat_map. exists f. split; [done|].
  unfold fileImports. by apply (in_map (fun x => strings.Trim x dquote)).
Qed.

Lemma extends_dom t t' : extends t t' → dom (Packages t) ⊆ dom (Packages t').
Proof.
  intros [_ HF] k [p Hk]%elem_of_dom. apply elem_of_dom. exists p. auto.
Qed.

Lemma pending_le fs t t' : extends t t' → (pending fs t' ≤ pending fs t)%nat.
Proof.
  intros H%extends_dom. unfold pending. apply subseteq_size. set_solver.
Qed.

Lemma pending_lt fs t name t' :
  Packages t !! name = None → name ∈ universe fs → atWork t name t' →
  (pending fs t' < pending fs t)%nat.
Proof.
  intros Hnew HU (Hext%extends_dom & Hin%elem_of_dom & _).
  apply not_elem_of_dom in Hnew.
  unfold pending. apply subset_size. set_solver.
Qed.

(** The loops complete when the recursive calls they make do. *)
Lemma loops_total fs rec t name pkgs st :
  Packages t !! name = None →
  (∀ t3 i, i ∈ universe fs → atWork t name t3 →
     ∃ r tb, rec t3 i = Some (r, tb) ∧ extends t3 tb ∧
             (wfTree t3 → wfTree tb)) →
  (∀ (p : ParsedPkg) (f : ParsedFile) l,
     In p pkgs → In f (snd p) → In l (snd f) →
     strings.Trim l dquote ∈ universe fs) →
  atWork t name (fst st) →
  ∃ st', forRange (visitPackage rec name) pkgs st = Some st' ∧
         atWork t name (fst st').
Proof.
  intros Hnew Hrec HU Hst.
  apply (forRange_total (fun st => atWork t name (fst st))); [done|].
  clear st Hst. intros st p Hp Hst. unfold visitPackage.
  apply (forRange_total (fun st => atWork t name (fst st))); [done|].
  clear st Hst. intros st [filename imports] Hf Hst. unfold visitFile.
  destruct (strings.HasSuffix filename "_test.go"); [by eexists|].
  destruct st as [t2 S2]. simpl in Hst.
  apply (forRange_total (fun st => atWork t name (fst st))).
  { simpl. by apply atWork_modifyPkg. }
  clear t2 S2 Hst. intros [t3 S3] l Hl Hst. simpl in Hst.
  unfold visitImport.
  destruct (_ && _); [|by eexists].
  set (i := strings.Trim l dquote).
  set (t4 := modifyPkg name (appendImport i) t3).
  assert (H4 : atWork t name t4) by by apply atWork_modifyPkg.
  destruct (Hrec t4 i) as (r & tb & -> & Hext & Hwf); [by eapply HU|done|].
  assert (Hb : atWork t name tb) by by eapply atWork_extends.
  destruct r as [e|]; [by eexists|].
  destruct (Packages tb !! i); [|by eexists].
  eexists. split; [done|]. simpl. by apply atWork_modifyPkg.
Qed.

Lemma atWork_register t name pkg :
  Packages t !! name = None → Name pkg = name →
  atWork t name (setPackages t (<[name:=pkg]> (Packages t))).
Proof.
  intros Hnew Hname. split; [split|split].
  - apply sameRoot_setPackages.
  - intros k p Hk. simpl. rewrite lookup_insert_ne; [done|congruence].
  - simpl. rewrite lookup_insert_eq. by eexists.
  - intros Hwf k p. simpl. rewrite lookup_insert. case_decide.
    + intros [= <-]. by subst.
    + apply Hwf.
Qed.

(** A call on the tree [t] completes when the fuel exceeds the number of
    pending paths by two; by one when the path is itself an import of the
    file system or is registered. *)
Lemma Resolve_total_aux fs fuel : ∀ t name,
  (pending fs t + (if bool_decide (name ∈ universe fs ∨
                                   is_Some (Packages t !! name))
                   then 0 else 1) < fuel)%nat →
  ∃ r t', Resolve fs fuel t name = Some (r, t').
Proof.
  induction fuel as [|fuel IH]; intros t name Hfuel; [lia|].
  rewrite Resolve_S.
  destruct (Packages t !! name) as [p|] eqn:Hnew; [by eexists _, _|].
  cbv zeta.
  set (pkg := {| Name := name; Internal := _; Files := []; Imports := [];
                 Dependencies := [] |}).
  set (t1 := setPackages t (<[name:=pkg]> (Packages t))).
  assert (H1 : atWork t name t1) by by apply atWork_register.
  destruct (fs !! pkgDir t1 name) as [[|pkgs]|] eqn:Hdir;
    [by eexists _, _| |by eexists _, _].
  destruct pkgs as [|p0 pkgs0]; [by eexists _, _|].
  destruct (loops_total fs (Resolve fs fuel) t name (p0 :: pkgs0) (t1, ∅))
    as ([t2 S2] & -> & _); [done| | |done|by eexists _, _].
  - intros t3 i Hi H3.
    destruct (IH t3 i) as (r & tb & Hcall).
    { rewrite bool_decide_true by auto. rewrite Nat.add_0_r.
      case_bool_decide as Hn.
      - destruct Hn as [Hn|[? ?]]; [|congruence].
        pose proof (pending_lt fs t name t3 Hnew Hn H3). lia.
      - pose proof (pending_le fs t t3 (proj1 H3)). lia. }
    exists r, tb. split; [done|].
    apply Resolve_extends in Hcall as (? & _ & ?). done.
  - intros p f l. exact (universe_intro fs _ _ p f l Hdir).
Qed.

(** [Resolve] terminates: on every file system, tree and package path
    there is an outcome that every large enough fuel gives. *)
Lemma Resolve_terminates fs t name :
  ∃ r t', ∀ fuel, (pending fs t + 2 ≤ fuel)%nat →
                  Resolve fs fuel t name = Some (r, t').
Proof.
  destruct (Resolve_total_aux fs (pending fs t + 2) t name) as (r & t' & H).
  { case_bool_decide; lia. }
  exists r, t'. intros fuel Hle. by eapply Resolve_fuel_mono.
Qed.

(** ** The edges a call of [Resolve] leaves *)

Lemma grows_refl t : grows t t.
Proof. split; [apply sameRoot_refl|]. intros k p Hk. by exists p. Qed.

Lemma grows_trans t1 t2 t3 : grows t1 t2 → grows t2 t3 → grows t1 t3.
Proof.
  intros [R12 G12] [R23 G23]. split; [by eapply sameRoot_trans|].
  intros k p Hk. destruct (G12 k p Hk) as (p2 & Hk2 & Hd2).
  destruct (G23 k p2 Hk2) as (p3 & Hk3 & Hd3). exists p3. auto.
Qed.

Lemma extends_grows t t' : extends t t' → grows t t'.
Proof. intros [HR HF]. split; [done|]. intros k p Hk. exists p. auto. Qed.

Lemma grows_modifyPkg n f t :
  (∀ p d, In d (Dependencies p) → In d (Dependencies (f p))) →
  grows t (modifyPkg n f t).
Proof.
  intros Hf. split; [apply sameRoot_setPackages|].
  intros k p Hk. rewrite lookup_modifyPkg, Hk. case_decide; simpl; eauto.
Qed.

Lemma grows_is_Some t t' k :
  grows t t' → is_Some (Packages t !! k) → is_Some (Packages t' !! k).
Proof. intros [_ G] [p Hk]. destruct (G k p Hk) as (p' & -> & _). eauto. Qed.

Lemma grows_edge t t' k i : grows t t' → edge t k i → edge t' k i.
Proof.
  intros [_ G] (p & Hk & Hi). destruct (G k p Hk) as (p' & Hk' & Hd).
  exists p'. auto.
Qed.

Lemma internalImports_sameRoot fs t t' k :
  sameRoot t t' → internalImports fs t k = internalImports fs t' k.
Proof.
  intros HR. unfold internalImports. rewrite (sameRoot_pkgDir t t' k HR).
  by destruct HR as (_ & _ & ->).
Qed.

Lemma resolvable_sameRoot fs t t' k :
  sameRoot t t' → resolvable fs t k → resolvable fs t' k.
Proof. intros HR. unfold resolvable. by rewrite (sameRoot_pkgDir t t' k HR). Qed.

Lemma complete_grows fs t t' k : grows t t' → complete fs t k → complete fs t' k.
Proof.
  intros HG Hc i Hi.
  rewrite <- (internalImports_sameRoot fs t t' k (proj1 HG)) in Hi.
  destruct (Hc i Hi) as [Hreg Hedge]. split.
  - by eapply grows_is_Some.
  - intros Hr. eapply grows_edge; [done|]. apply Hedge.
    eapply resolvable_sameRoot; [|exact Hr]. apply sameRoot_sym, HG.
Qed.

Lemma appendFile_deps p d filename :
  In d (Dependencies p) → In d (Dependencies (appendFile filename p)).
Proof. done. Qed.

Lemma appendImport_deps p d i :
  In d (Dependencies p) → In d (Dependencies (appendImport i p)).
Proof. done. Qed.

Lemma appendDependency_deps p d i :
  In d (Dependencies p) → In d (Dependencies (appendDependency i p)).
Proof. simpl. intros. apply in_or_app. by left. Qed.

(** The invariant of the loops passes to a tree that grew, provided the
    call is still at work there. *)
Lemma loopInv_grows fs t0 name t S t' :
  loopInv fs t0 name (t, S) → grows t t' → atWork t0 name t' →
  (∀ k, is_Some (Packages t' !! k) → is_Some (Packages t !! k)) →
  loopInv fs t0 name (t', S).
Proof.
  intros (Hw & Hc & Hs) HG Hw' Hdom. simpl in *. split; [done|split]; simpl.
  - intros k Hne Hnew Hin. eapply complete_grows; [done|]. auto.
  - intros i Hi. destruct (Hs i Hi) as [Hreg Hedge]. split.
    + by eapply grows_is_Some.
    + intros Hr. eapply grows_edge; [done|]. apply Hedge.
      eapply resolvable_sameRoot; [|exact Hr]. apply sameRoot_sym, HG.
Qed.

(** The three nested loops: an invariant, and a fact per import literal
    of a non-test file that its iteration establishes and the other steps
    keep. *)
Lemma loops_post (I : LoopState → Prop) (Q : string → LoopState → Prop)
    rec name pkgs st st' :
  I st →
  (∀ t S filename, I (t, S) → I (modifyPkg name (appendFile filename) t, S)) →
  (∀ b t S filename,
     Q b (t, S) → Q b (modifyPkg name (appendFile filename) t, S)) →
  (∀ st l st', I st → visitImport rec name st l = Some st' → I st' ∧ Q l st') →
  (∀ b st l st', I st → visitImport rec name st l = Some st' →
                 Q b st → Q b st') →
  forRange (visitPackage rec name) pkgs st = Some st' →
  I st' ∧
  ∀ (p : ParsedPkg) (f : ParsedFile) l,
    In p pkgs → In f (snd p) → isTestFile f = false → In l (snd f) → Q l st'.
Proof.
  intros Hst HfI HfQ HiI HiQ Hrun.
  pose (Qf := fun (f : ParsedFile) st =>
                isTestFile f = false → ∀ l, In l (snd f) → Q l st).
  pose (Qp := fun (p : ParsedPkg) st => ∀ f, In f (snd p) → Qf f st).
  assert (Hfile : ∀ st f st', I st → visitFile rec name st f = Some st' →
            I st' ∧ Qf f st' ∧ ∀ b, Q b st → Q b st').
  { clear st st' Hst Hrun. intros [t S] [filename imports] st' Hst.
    unfold visitFile, Qf, isTestFile. simpl.
    destruct (strings.HasSuffix filename "_test.go").
    { intros [= <-]. split; [done|]. split; [done|auto]. }
    intros Hrun.
    destruct (forRange_post
                (fun st => I st ∧ ∀ b, Q b (t, S) → Q b st) Q
                (visitImport rec name) imports
                (modifyPkg name (appendFile filename) t, S) st')
      as [[H1 H2] H3];
      [ | | |exact Hrun| ].
    - split; [by apply HfI|]. intros b. apply HfQ.
    - intros s l s' _ [Hs Hk] Hstep.
      destruct (HiI s l s' Hs Hstep) as [Hs' Hq]. split; [|done].
      split; [done|]. intros b Hb. apply (HiQ b s l s' Hs Hstep). auto.
    - intros b s l s' _ [Hs _] Hstep. by eapply HiQ.
    - split; [done|]. split; [|done]. intros _ l Hl. auto. }
  destruct (forRange_post I Qp (visitPackage rec name) pkgs st st')
    as [H1 H2]; [done| | |done|].
  - clear st st' Hst Hrun. intros st p st' _ Hst Hrun. unfold visitPackage in Hrun.
    destruct (forRange_post I Qf (visitFile rec name) (snd p) st st')
      as [H1 H2]; [done| | |done|done].
    + intros s f s' _ Hs Hstep. destruct (Hfile s f s' Hs Hstep) as (?&?&?).
      done.
    + intros b s f s' _ Hs Hstep Hb Hnt l Hl.
      destruct (Hfile s f s' Hs Hstep) as (_ & _ & Hk). auto.
  - clear st st' Hst Hrun. intros b st p st' _ Hst Hrun Hb f Hf Hnt l Hl.
    unfold visitPackage in Hrun.
    cut (I st' ∧ Q l st'); [by intros [_ ?]|].
    revert Hrun. apply (forRange_inv (fun st => I st ∧ Q l st)).
    + split; [done|]. exact (Hb f Hf Hnt l Hl).
    + intros s f' s' _ [Hs Hq] Hstep.
      destruct (Hfile s f' s' Hs Hstep) as (? & _ & Hk). auto.
  - split; [done|]. intros p f l Hp Hf Hnt Hl. exact (H2 p Hp f Hf Hnt l Hl).
Qed.

Lemma afterImport_grows name i r t : grows t (afterImport name i r t).
Proof.
  unfold afterImport. destruct r; [apply grows_refl|].
  destruct (Packages t !! i); [|apply grows_refl].
  apply grows_modifyPkg. intros. by apply appendDependency_deps.
Qed.

Lemma afterImport_is_Some name i r t k :
  is_Some (Packages (afterImport name i r t) !! k) ↔ is_Some (Packages t !! k).
Proof.
  unfold afterImport. destruct r; [done|].
  destruct (Packages t !! i); [|done]. apply lookup_modifyPkg_is_Some.
Qed.

Lemma atWork_afterImport t0 name i r t :
  Packages t0 !! name = None →
  atWork t0 name t → atWork t0 name (afterImport name i r t).
Proof.
  intros Hnew Hw. unfold afterImport. destruct r; [done|].
  destruct (Packages t !! i); [|done]. by apply atWork_modifyPkg.
Qed.

Lemma visitImport_loopInv fs rec t0 name st l st' :
  recSpec fs rec →
  Packages t0 !! name = None → wfTree t0 →
  loopInv fs t0 name st → visitImport rec name st l = Some st' →
  loopInv fs t0 name st' ∧ seen (RootPkgPath t0) l st'.
Proof.
  intros Hrec Hnew Hwf0 Hinv Hstep. destruct st as [t3 S3].
  assert (Hroot : RootPkgPath t0 = RootPkgPath t3).
  { destruct Hinv as (((HR & _) & _) & _). simpl in HR. apply HR. }
  apply visitImport_inv in Hstep as
      [[Hskip ->]|(Hpre & Hfresh & r & tb & Hcall & ->)].
  { split; [done|]. unfold seen. simpl. rewrite Hroot.
    destruct Hskip as [->|?]; [done|auto]. }
  set (i := strings.Trim l dquote) in *.
  set (t4 := modifyPkg name (appendImport i) t3) in *.
  pose proof Hinv as (Hw3 & _). simpl in Hw3.
  assert (Hw4 : atWork t0 name t4) by by apply atWork_modifyPkg.
  assert (Hinv4 : loopInv fs t0 name (t4, S3)).
  { eapply loopInv_grows; [exact Hinv| |done|].
    - apply grows_modifyPkg. intros. by apply appendImport_deps.
    - intros k. apply lookup_modifyPkg_is_Some. }
  assert (Hwf4 : wfTree t4) by by apply Hw4.
  destruct (Hrec t4 i r tb Hwf4 Hcall) as (Hext & Hreg & Hwfb & Herr & Hnewc).
  assert (Hwb : atWork t0 name tb) by by eapply atWork_extends.
  set (t5 := afterImport name i r tb).
  assert (G45 : grows t4 t5).
  { eapply grows_trans; [by apply extends_grows|apply afterImport_grows]. }
  split; [|unfold seen; simpl; set_solver].
  split; [|split]; simpl.
  - by apply atWork_afterImport.
  - intros k Hne Hk0 Hk5. apply afterImport_is_Some in Hk5.
    destruct (Packages t4 !! k) as [pk|] eqn:Hk4.
    + eapply complete_grows; [exact G45|].
      apply Hinv4; [done|done|]. by exists pk.
    + eapply complete_grows; [apply afterImport_grows|]. by apply Hnewc.
  - intros j [Hj|Hj]%elem_of_union.
    + apply elem_of_singleton in Hj as ->. split.
      { by apply afterImport_is_Some. }
      intros Hres. unfold t5, afterImport. destruct r as [e|].
      { exfalso. apply Herr; [done|].
        eapply resolvable_sameRoot; [|exact Hres].
        apply sameRoot_sym, G45. }
      destruct Hreg as [dep Hdep]. rewrite Hdep.
      rewrite (Hwfb i dep Hdep).
      destruct Hwb as (_ & [pn Hpn] & _).
      exists (appendDependency i pn). split.
      * rewrite lookup_modifyPkg, Hpn. by case_decide.
      * simpl. apply in_or_app. right. by left.
    + destruct Hinv4 as (_ & _ & Hs). destruct (Hs j Hj) as [Hjr Hje].
      simpl in *. split; [by eapply grows_is_Some|].
      intros Hres. eapply grows_edge; [exact G45|]. apply Hje.
      eapply resolvable_sameRoot; [|exact Hres]. apply sameRoot_sym, G45.
Qed.

Lemma visitImport_seen rec name st l st' b root :
  visitImport rec name st l = Some st' → seen root b st → seen root b st'.
Proof.
  destruct st as [t S]. intros Hstep Hb.
  apply visitImport_inv in Hstep as [[_ ->]|(_ & _ & r & tb & _ & ->)];
    [done|].
  unfold seen in *. simpl in *. set_solver.
Qed.

Lemma trackedImports_inv root pkgs i :
  In i (trackedImports root pkgs) →
  strings.HasPrefix i root = true ∧
  ∃ (p : ParsedPkg) (f : ParsedFile) l,
    In p pkgs ∧ In f (snd p) ∧ isTestFile f = false ∧ In l (snd f) ∧
    strings.Trim l dquote = i.
Proof.
  unfold trackedImports. rewrite filter_In, in_flat_map.
  intros [(p & Hp & Hi) Hpre]. split; [done|].
  apply in_flat_map in Hi as (f & Hf & Hi).
  apply filter_In in Hf as [Hf Hnt]. apply negb_true_iff in Hnt.
  unfold fileImports in Hi. apply in_map_iff in Hi as (l & Hl & Hin).
  by exists p, f, l.
Qed.

Lemma trackedImports_intro root pkgs (p : ParsedPkg) (f : ParsedFile) l :
  In p pkgs → In f (snd p) → isTestFile f = false → In l (snd f) →
  strings.HasPrefix (strings.Trim l dquote) root = true →
  In (strings.Trim l dquote) (trackedImports root pkgs).
Proof.
  intros Hp Hf Hnt Hl Hpre. unfold trackedImports.
  apply filter_In. split; [|done].
  apply in_flat_map. exists p. split; [done|].
  apply in_flat_map. exists f. split.
  - apply filter_In. split; [done|]. by rewrite Hnt.
  - unfold fileImports. by apply (in_map (fun x => strings.Trim x dquote)).
Qed.

(** The node registered on entry is complete when its directory yields no
    import to follow. *)
Lemma complete_no_imports fs t k :
  internalImports fs t k = [] → complete fs t k.
Proof. intros H i. rewrite H. intros []. Qed.

(** Every call of [Resolve], at every fuel, meets [recSpec]. *)
Lemma Resolve_recSpec fs fuel : recSpec fs (Resolve fs fuel).
Proof.
  induction fuel as [|fuel IH]; intros t name r t' Hwf Hrun; [done|].
  destruct (Resolve_extends _ _ _ _ _ _ Hrun) as (Hext & Hreg & Hwf').
  split; [done|]. split; [done|]. split; [auto|].
  rewrite Resolve_S in Hrun.
  destruct (Packages t !! name) as [p|] eqn:Hnew.
  { injection Hrun as <- <-. split; [done|].
    intros k Hk [pk Hpk]. congruence. }
  cbv zeta in Hrun.
  set (pkg := {| Name := name; Internal := _; Files := []; Imports := [];
                 Dependencies := [] |}) in Hrun.
  set (t1 := setPackages t (<[name:=pkg]> (Packages t))) in Hrun.
  assert (Hfresh : ∀ k, Packages t !! k = None →
                        is_Some (Packages t1 !! k) → k = name).
  { intros k Hk [pk Hpk]. simpl in Hpk. rewrite lookup_insert in Hpk.
    case_decide; [done|congruence]. }
  assert (Hdir1 : pkgDir t1 name = pkgDir t name) by reflexivity.
  rewrite Hdir1 in Hrun.
  destruct (fs !! pkgDir t name) as [[|pkgs]|] eqn:Hdir.
  - injection Hrun as <- <-. split.
    + intros _ [Hr _]. by apply Hr.
    + intros k Hk Hk1. rewrite (Hfresh k Hk Hk1).
      apply complete_no_imports. unfold internalImports.
      by rewrite Hdir1, Hdir.
  - destruct pkgs as [|p0 pkgs0].
    { injection Hrun as <- <-. split.
      + intros _ [_ Hr]. by apply Hr.
      + intros k Hk Hk1. rewrite (Hfresh k Hk Hk1).
        apply complete_no_imports. unfold internalImports.
        by rewrite Hdir1, Hdir. }
    destruct (forRange _ _ _) as [[t2 S2]|] eqn:Hloop; [|discriminate].
    injection Hrun as <- <-. split; [done|].
    destruct (loops_post (loopInv fs t name) (seen (RootPkgPath t))
                (Resolve fs fuel) name (p0 :: pkgs0) (t1, ∅) (t2, S2))
      as [Hinv Hseen]; [| | | | |exact Hloop|].
    + split; [by apply atWork_register|]. split; simpl.
      * intros k Hne Hk Hk1. destruct Hne. by apply Hfresh.
      * intros i Hi. set_solver.
    + intros t3 S3 filename H3.
      eapply loopInv_grows; [exact H3| | |].
      * apply grows_modifyPkg. intros. by apply appendFile_deps.
      * apply atWork_modifyPkg; [done|done|apply H3].
      * intros k. apply lookup_modifyPkg_is_Some.
    + done.
    + intros st l st'. by apply visitImport_loopInv.
    + intros b st l st' _. apply visitImport_seen.
    + intros k Hk Hk2. destruct (decide (k = name)) as [->|Hne].
      2:{ by apply Hinv. }
      destruct Hinv as (Hw2 & _ & Hs). simpl in *.
      assert (HR : sameRoot t t2) by apply Hw2.
      intros i Hi. rewrite <- (internalImports_sameRoot fs t t2 name HR) in Hi.
      unfold internalImports in Hi. rewrite Hdir in Hi.
      apply trackedImports_inv in Hi as
          (Hpre & p & f & l & Hp & Hf & Hnt & Hl & <-).
      apply Hs. by apply (Hseen p f l).
  - injection Hrun as <- <-. split; [done|].
    intros k Hk Hk1. rewrite (Hfresh k Hk Hk1).
    apply complete_no_imports. unfold internalImports.
    by rewrite Hdir1, Hdir.
Qed.

Lemma internalImports_resolvable fs t k i :
  In i (internalImports fs t k) → resolvable fs t k.
Proof.
  unfold internalImports, resolvable.
  destruct (fs !! pkgDir t k) as [[|pkgs]|]; [done| |done].
  destruct pkgs; [done|]. intros _. split; congruence.
Qed.

(** ** Cycle safety (C1) *)

(** C1.  [Resolve] terminates on every source tree, cyclic or not: for
    every file system, tree and package path there is one outcome that
    every fuel above a bound gives (the bound counts the import paths of
    the file system that are not registered yet: a path is registered
    before its imports are followed, so no path is entered twice).  And
    when two packages [a] and [b], neither registered yet, import each
    other from non-test files, the call on [a] returns no error and leaves
    [b] in the [Dependencies] of [a] and [a] in the [Dependencies] of
    [b]. *)
Theorem Resolve_cycle_safe (fs : gmap string DirEntry) :
  (∀ t name, ∃ r t', ∀ fuel, (pending fs t + 2 ≤ fuel)%nat →
                             Resolve fs fuel t name = Some (r, t')) ∧
  (∀ t a b,
     wfTree t → Packages t !! a = None → Packages t !! b = None →
     In b (internalImports fs t a) → In a (internalImports fs t b) →
     ∃ t', (∀ fuel, (pending fs t + 2 ≤ fuel)%nat →
                    Resolve fs fuel t a = Some (None, t')) ∧
           edge t' a b ∧ edge t' b a).
Proof.
  split; [apply Resolve_terminates|].
  intros t a b Hwf Ha Hb Hab Hba.
  destruct (Resolve_terminates fs t a) as (r & t' & Hrun).
  pose proof (Hrun _ (Nat.le_refl _)) as Hrun0.
  destruct (Resolve_recSpec fs _ t a r t' Hwf Hrun0)
    as (Hext & Hreg & Hwf' & Herr & Hnew).
  assert (HR : sameRoot t t') by apply Hext.
  assert (Hra : resolvable fs t' a).
  { eapply resolvable_sameRoot; [exact HR|].
    by eapply internalImports_resolvable. }
  assert (Hrb : resolvable fs t' b).
  { eapply resolvable_sameRoot; [exact HR|].
    by eapply internalImports_resolvable. }
  assert (r = None) as ->.
  { destruct r as [e|]; [|done]. exfalso. apply Herr; [done|].
    by eapply internalImports_resolvable. }
  exists t'. split; [done|].
  rewrite (internalImports_sameRoot fs t t' a HR) in Hab.
  rewrite (internalImports_sameRoot fs t t' b HR) in Hba.
  destruct (Hnew a Ha Hreg b Hab) as [Hregb Hedge].
  split; [by apply Hedge|].
  destruct (Hnew b Hb Hregb a Hba) as [_ Hedge']. by apply Hedge'.
Qed.

Lemma Resolve_cycle_safe_witness :
  ∃ t', (∀ fuel, (pending fsCycle treeM + 2 ≤ fuel)%nat →
                 Resolve fsCycle fuel treeM "m/a" = Some (None, t')) ∧
        edge t' "m/a" "m/b" ∧ edge t' "m/b" "m/a".
Proof.
  apply (proj2 (Resolve_cycle_safe fsCycle) treeM "m/a" "m/b").
  - apply wfTree_NewTree.
  - reflexivity.
  - reflexivity.
  - vm_compute. left. reflexivity.
  - vm_compute. left. reflexivity.
Defined.

(** The cycle of [fsCycle], run: three units of fuel are enough. *)
Example Resolve_cycle_run :
  map (fun kv => (fst kv, Dependencies (snd kv)))
      (map_to_list (Packages (treeAfter (Resolve fsCycle 3 treeM "m/a")))) =
  [("m/a", ["m/b"]); ("m/b", ["m/a"])].
Proof. vm_compute. reflexivity. Qed.

(** ** The analysis: filtering (C7) and the summary lists (C8) *)

Section analysis_facts.
Variable Match : string → string → bool.
Variable c : config.Config.

(** One dependent: kept with its entry, or dropped. *)
Lemma visitRevDep_step acc (S : gset string) dep :
  visitRevDep Match c (acc, S) dep =
  if qualifies Match c dep
  then ((acc ++ [affectedOf Match c dep])%list, {[Name dep]} ∪ S)
  else (acc, S).
Proof.
  unfold visitRevDep, qualifies.
  destruct (config.ShouldIgnorePackage Match c (Name dep)); [done|].
  by destruct (config.IsHighLevelPackage Match c (Name dep)).
Qed.

(** The loop over the dependents of one changed package. *)
Lemma visitRevDep_fold (l : list Pkg) acc (S : gset string) :
  fold_left (visitRevDep Match c) l (acc, S) =
  ((acc ++ map (affectedOf Match c) (List.filter (qualifies Match c) l))%list,
   list_to_set (map Name (List.filter (qualifies Match c) l)) ∪ S).
Proof.
  revert acc S. induction l as [|dep l IH]; intros acc S.
  - simpl. rewrite app_nil_r. f_equal. set_solver.
  - cbn [fold_left List.filter]. rewrite visitRevDep_step.
    destruct (qualifies Match c dep).
    + rewrite IH. rewrite <- app_assoc. simpl. f_equal. set_solver.
    + apply IH.
Qed.

(** The names that the second pass adds to [allAffectedPkgs] for one
    changed package. *)
Lemma visitChangedPkg_eq t impacts (S : gset string) pkgName :
  visitChangedPkg Match c t (impacts, S) pkgName =
  ((impacts ++ [impactOf Match c t pkgName])%list,
   list_to_set (map Name (survivors Match c t pkgName)) ∪ S).
Proof.
  unfold visitChangedPkg. rewrite visitRevDep_fold. reflexivity.
Qed.

Lemma visitChangedPkg_fold t (l : list string) impacts (S : gset string) :
  fold_left (visitChangedPkg Match c t) l (impacts, S) =
  ((impacts ++ map (impactOf Match c t) l)%list,
   list_to_set (flat_map (fun k => map Name (survivors Match c t k)) l) ∪ S).
Proof.
  revert impacts S. induction l as [|k l IH]; intros impacts S.
  - simpl. rewrite app_nil_r. f_equal. set_solver.
  - cbn [fold_left flat_map map]. rewrite visitChangedPkg_eq, IH.
    rewrite <- app_assoc. simpl. f_equal.
    rewrite list_to_set_app_L. set_solver.
Qed.

(** The set of direct dependencies after the loop over the changed
    packages. *)
Lemma visitDirect_fold t (l : list string) (S : gset string) x :
  x ∈ fold_left (visitDirect t) l S ↔
  x ∈ S ∨ ∃ k p, In k l ∧ Packages t !! k = Some p ∧ In x (Dependencies p).
Proof.
  revert S. induction l as [|k l IH]; intros S; simpl.
  - split; [auto|]. intros [?|(k & p & H & _)]; [done|destruct H].
  - rewrite IH. unfold visitDirect.
    assert (Hin : ∀ (deps : list string) (S0 : gset string),
              x ∈ fold_left (fun acc dep => {[dep]} ∪ acc) deps S0 ↔
              x ∈ S0 ∨ In x deps).
    { clear. induction deps as [|d deps IH]; intros S0; simpl.
      - split; [auto|]. by intros [?|[]].
      - rewrite IH. rewrite elem_of_union, elem_of_singleton.
        split; [intros [[?|?]|?]|intros [?|[?|?]]]; auto. }
    destruct (Packages t !! k) as [p|] eqn:Hk.
    + rewrite Hin. split.
      * intros [[?|?]|(k' & p' & ? & ? & ?)]; [by left| |].
        -- right. exists k, p. auto.
        -- right. exists k', p'. auto.
      * intros [?|(k' & p' & [<-|?] & Hk' & ?)]; [by left; left| |].
        -- left. right. congruence.
        -- right. exists k', p'. auto.
    + split.
      * intros [?|(k' & p' & ? & ? & ?)]; [by left|].
        right. exists k', p'. auto.
      * intros [?|(k' & p' & [<-|?] & Hk' & ?)]; [by left|congruence|].
        right. exists k', p'. auto.
Qed.
End analysis_facts.

Lemma In_sort_Strings l x : In x (sort_Strings l) ↔ In x l.
Proof.
  unfold sort_Strings. rewrite <- !list_elem_of_In.
  by rewrite (merge_sort_Permutation String.le l).
Qed.

Lemma In_sort_Slice l x : In x (sort_Slice l) ↔ In x l.
Proof.
  unfold sort_Slice. rewrite <- !list_elem_of_In.
  by rewrite (merge_sort_Permutation nameLe l).
Qed.

Lemma Sorted_sort_Strings l : Sorted String.le (sort_Strings l).
Proof. apply (Sorted_merge_sort String.le). Qed.

Lemma NoDup_sort_Strings l : NoDup l → NoDup (sort_Strings l).
Proof.
  unfold sort_Strings. by rewrite (merge_sort_Permutation String.le l).
Qed.

(** The result of an analysis, in closed form: [changed] is
    [sortedChangedPkgs] and [directDeps] the set of that name. *)
Lemma AnalyzeChangedPackages_inv Match fs walk fuel a changedFiles r t' :
  AnalyzeChangedPackages Match fs walk fuel a changedFiles = Some (inr (r, t')) →
  ∃ (changed : list string) (directDeps : gset string),
    (∀ x, x ∈ directDeps ↔
          ∃ k p, In k changed ∧ Packages t' !! k = Some p ∧
                 In x (Dependencies p)) ∧
    Impacts r = map (impactOf Match (cfg a) t') changed ∧
    DirectDependencies r = sort_Strings (elements directDeps) ∧
    IndirectDependencies r =
      sort_Strings
        (List.filter (fun pkg => negb (bool_decide (pkg ∈ directDeps)))
           (elements
              (list_to_set
                 (flat_map (fun k => map Name (survivors Match (cfg a) t' k))
                           changed) ∪ (∅ : gset string)))).
Proof.
  unfold AnalyzeChangedPackages.
  destruct (tree a) as [t|]; [|discriminate].
  destruct walk as [dirs|]; [|discriminate].
  destruct (forRange _ dirs t) as [t1|]; [|discriminate].
  rewrite visitChangedPkg_fold. intros [= <- <-].
  eexists _, _. split; [|by repeat split].
  intros x. rewrite visitDirect_fold. split; [|auto].
  intros [H|H]; [set_solver|done].
Qed.

Lemma matchesAny_true Match patterns pkgPath :
  config.matchesAny Match patterns pkgPath = true ↔
  ∃ pattern, In pattern patterns ∧ Match pattern pkgPath = true.
Proof.
  induction patterns as [|q patterns IH]; simpl.
  - split; [done|]. by intros (? & [] & _).
  - destruct (Match q pkgPath) eqn:E.
    + split; [|done]. intros _. exists q. auto.
    + rewrite IH. split.
      * intros (q' & ? & ?). exists q'. auto.
      * intros (q' & [<-|?] & ?); [congruence|]. exists q'. auto.
Qed.

(** The entries of an impact are the entries of the dependents, of the
    changed package, that pass the two filters. *)
Lemma In_AffectedPackages Match c t pkgName ap :
  In ap (AffectedPackages (impactOf Match c t pkgName)) ↔
  ∃ dep, In dep (FindReverseDependencies t pkgName) ∧
         qualifies Match c dep = true ∧ ap = affectedOf Match c dep.
Proof.
  simpl. rewrite In_sort_Slice, in_map_iff. unfold survivors. split.
  - intros (dep & <- & [? ?]%filter_In). by exists dep.
  - intros (dep & ? & ? & ->). exists dep. split; [done|].
    by apply filter_In.
Qed.

Lemma matchesAny_false Match patterns pkgPath :
  config.matchesAny Match patterns pkgPath = false ↔
  ∀ pattern, In pattern patterns → Match pattern pkgPath = false.
Proof.
  split.
  - intros Hf pattern Hin. destruct (Match pattern pkgPath) eqn:E; [|done].
    rewrite <- Hf. symmetry. apply matchesAny_true. by exists pattern.
  - intros Hall. destruct (config.matchesAny Match patterns pkgPath) eqn:E;
      [|done].
    apply matchesAny_true in E as (pattern & Hin & Hm).
    by rewrite (Hall pattern Hin) in Hm.
Qed.

(** C7.  In every result of [AnalyzeChangedPackages], and for each of its
    impacts: an affected package is a dependent of the changed package,
    no ignore pattern of the configuration matches its name and, when
    high-level patterns are configured, one of them matches it; when no
    high-level pattern is configured, every dependent whose name no
    ignore pattern matches is among the affected packages; and so is,
    whatever is configured, every dependent whose name no ignore pattern
    matches and some high-level pattern matches. *)
Theorem AnalyzeChangedPackages_filtering
    Match fs walk fuel a changedFiles r t' :
  AnalyzeChangedPackages Match fs walk fuel a changedFiles = Some (inr (r, t')) →
  ∀ impact, In impact (Impacts r) →
    (∀ ap, In ap (AffectedPackages impact) →
       (∃ dep, In dep (FindReverseDependencies t' (ChangedPackage impact)) ∧
               Name dep = AffectedPackage.Name ap) ∧
       (∀ pattern,
          In pattern (config.IgnorePatterns (config.Patterns (cfg a))) →
          Match pattern (AffectedPackage.Name ap) = false) ∧
       (config.HighLevelPackages (config.Targets (cfg a)) ≠ [] →
        ∃ pattern,
          In pattern (config.HighLevelPackages (config.Targets (cfg a))) ∧
          Match pattern (AffectedPackage.Name ap) = true)) ∧
    (config.HighLevelPackages (config.Targets (cfg a)) = [] →
     ∀ dep, In dep (FindReverseDependencies t' (ChangedPackage impact)) →
       (∀ pattern,
          In pattern (config.IgnorePatterns (config.Patterns (cfg a))) →
          Match pattern (Name dep) = false) →
       ∃ ap, In ap (AffectedPackages impact) ∧
             AffectedPackage.Name ap = Name dep) ∧
    (∀ dep, In dep (FindReverseDependencies t' (ChangedPackage impact)) →
       (∀ pattern,
          In pattern (config.IgnorePatterns (config.Patterns (cfg a))) →
          Match pattern (Name dep) = false) →
       (∃ pattern,
          In pattern (config.HighLevelPackages (config.Targets (cfg a))) ∧
          Match pattern (Name dep) = true) →
       ∃ ap, In ap (AffectedPackages impact) ∧
             AffectedPackage.Name ap = Name dep).
Proof.
  intros Hrun impact Himp.
  apply AnalyzeChangedPackages_inv in Hrun as (changed & dd & _ & Hi & _).
  rewrite Hi in Himp. apply in_map_iff in Himp as (k & <- & _).
  split; [|split].
  - intros ap (dep & Hdep & Hq & ->)%In_AffectedPackages. simpl.
    unfold qualifies in Hq. apply andb_true_iff in Hq as [Hig Hhl].
    apply negb_true_iff in Hig. split; [by exists dep|]. split.
    + by apply matchesAny_false.
    + intros Hne. unfold config.IsHighLevelPackage in Hhl.
      destruct (config.HighLevelPackages (config.Targets (cfg a))); [done|].
      simpl in Hhl. by apply matchesAny_true.
  - intros Hempty dep Hdep Hig. exists (affectedOf Match (cfg a) dep).
    split; [|done]. apply In_AffectedPackages. exists dep.
    split; [done|]. split; [|done].
    apply matchesAny_false in Hig.
    unfold qualifies, config.IsHighLevelPackage, config.ShouldIgnorePackage.
    by rewrite Hig, Hempty.
  - intros dep Hdep Hig Hhl. exists (affectedOf Match (cfg a) dep).
    split; [|done]. apply In_AffectedPackages. exists dep.
    split; [done|]. split; [|done].
    apply matchesAny_false in Hig. apply matchesAny_true in Hhl.
    unfold qualifies, config.IsHighLevelPackage, config.ShouldIgnorePackage.
    rewrite Hig, Hhl. simpl. by destruct (_ =? _)%nat.
Qed.

(** C8.  In every result of [AnalyzeChangedPackages] no path is both in
    [DirectDependencies] and in [IndirectDependencies]; the indirect ones
    are exactly the names of the affected packages of the impacts that are
    not direct ones; the direct ones are the dependencies of the nodes of
    the changed packages; and both lists are sorted and without
    duplicates. *)
Theorem AnalyzeChangedPackages_partition
    Match fs walk fuel a changedFiles r t' :
  AnalyzeChangedPackages Match fs walk fuel a changedFiles = Some (inr (r, t')) →
  (∀ x, In x (DirectDependencies r) → ¬ In x (IndirectDependencies r)) ∧
  (∀ x, In x (IndirectDependencies r) ↔
        (∃ impact ap, In impact (Impacts r) ∧
                      In ap (AffectedPackages impact) ∧
                      AffectedPackage.Name ap = x) ∧
        ¬ In x (DirectDependencies r)) ∧
  (∀ x, In x (DirectDependencies r) ↔
        ∃ impact p, In impact (Impacts r) ∧
                    Packages t' !! ChangedPackage impact = Some p ∧
                    In x (Dependencies p)) ∧
  Sorted String.le (DirectDependencies r) ∧ NoDup (DirectDependencies r) ∧
  Sorted String.le (IndirectDependencies r) ∧ NoDup (IndirectDependencies r).
Proof.
  intros Hrun.
  apply AnalyzeChangedPackages_inv in Hrun
    as (changed & dd & Hdd & Hi & -> & ->).
  assert (Hdir : ∀ x, In x (sort_Strings (elements dd)) ↔ x ∈ dd).
  { intros x. by rewrite In_sort_Strings, <- list_elem_of_In, elem_of_elements. }
  assert (Haff : ∀ x,
    x ∈ (list_to_set
           (flat_map (fun k => map Name (survivors Match (cfg a) t' k)) changed)
         ∪ ∅ : gset string) ↔
    ∃ impact ap, In impact (Impacts r) ∧ In ap (AffectedPackages impact) ∧
                 AffectedPackage.Name ap = x).
  { intros x. rewrite union_empty_r_L, elem_of_list_to_set, list_elem_of_In.
    rewrite in_flat_map, Hi. split.
    - intros (k & Hk & (dep & <- & Hdep)%in_map_iff).
      exists (impactOf Match (cfg a) t' k), (affectedOf Match (cfg a) dep).
      split; [by apply in_map|]. split; [|done].
      simpl. apply In_sort_Slice. by apply in_map.
    - intros (impact & ap & (k & <- & Hk)%in_map_iff & Hap & <-).
      exists k. split; [done|]. simpl in Hap.
      apply In_sort_Slice, in_map_iff in Hap as (dep & <- & Hdep).
      simpl. by apply in_map. }
  assert (Hind : ∀ x,
    In x (sort_Strings
            (List.filter (fun pkg => negb (bool_decide (pkg ∈ dd)))
               (elements
                  (list_to_set
                     (flat_map
                        (fun k => map Name (survivors Match (cfg a) t' k))
                        changed) ∪ (∅ : gset string))))) ↔
    (∃ impact ap, In impact (Impacts r) ∧ In ap (AffectedPackages impact) ∧
                  AffectedPackage.Name ap = x) ∧ x ∉ dd).
  { intros x. rewrite In_sort_Strings, filter_In, negb_true_iff.
    rewrite bool_decide_eq_false, <- list_elem_of_In, elem_of_elements.
    by rewrite Haff. }
  split; [|split; [|split; [|split; [|split; [|split]]]]].
  - intros x Hx%Hdir [_ Hn]%Hind. done.
  - intros x. rewrite Hind, Hdir. done.
  - intros x. rewrite Hdir, Hdd, Hi. split.
    + intros (k & p & Hk & Hp & Hx).
      exists (impactOf Match (cfg a) t' k), p. split; [by apply in_map|done].
    + intros (impact & p & (k & <- & Hk)%in_map_iff & Hp & Hx).
      by exists k, p.
  - apply Sorted_sort_Strings.
  - apply NoDup_sort_Strings, NoDup_elements.
  - apply Sorted_sort_Strings.
  - apply NoDup_sort_Strings, NoDup_ListNoDup, List.NoDup_filter.
    apply NoDup_ListNoDup, NoDup_elements.
Qed.

Example chainRun_result :
  fst (resultOf chainRun) =
  {| Impacts :=
       [ {| ChangedPackage := "m/b";
            AffectedPackages :=
              [ {| AffectedPackage.Name := "m/a";
                   AffectedPackage.IsCritical := false |} ] |};
         {| ChangedPackage := "m/c";
            AffectedPackages :=
              [ {| AffectedPackage.Name := "m/b";
                   AffectedPackage.IsCritical := false |} ] |} ];
     DirectDependencies := ["m/c"];
     IndirectDependencies := ["m/a"; "m/b"] |}.
Proof. vm_compute. reflexivity. Qed.

Lemma chainRun_eq :
  chainRun = Some (inr (fst (resultOf chainRun), snd (resultOf chainRun))).
Proof. vm_compute. reflexivity. Qed.

(** The two runs that filter: with [m/q] ignored and no high-level
    pattern the change of [m/z] affects [m/p] alone; with [m/q] the one
    high-level pattern it affects [m/q] alone. *)
Lemma filterRun_eq c :
  c = cfgIgnoreQ ∨ c = cfgTargetQ →
  filterRun c
  = Some (inr (fst (resultOf (filterRun c)), snd (resultOf (filterRun c)))).
Proof. intros [->| ->]; vm_compute; reflexivity. Qed.

Example filterRun_results :
  Impacts (fst (resultOf (filterRun cfgIgnoreQ)))
  = [ {| ChangedPackage := "m/z";
         AffectedPackages :=
           [ {| AffectedPackage.Name := "m/p";
                AffectedPackage.IsCritical := false |} ] |} ] ∧
  Impacts (fst (resultOf (filterRun cfgTargetQ)))
  = [ {| ChangedPackage := "m/z";
         AffectedPackages :=
           [ {| AffectedPackage.Name := "m/q";
                AffectedPackage.IsCritical := false |} ] |} ] ∧
  sort_Strings (map Name (FindReverseDependencies
                            (snd (resultOf (filterRun cfgIgnoreQ))) "m/z"))
  = ["m/p"; "m/q"].
Proof.
  split; [vm_compute; reflexivity|]. split; [vm_compute; reflexivity|].
  vm_compute. reflexivity.
Qed.

Lemma AnalyzeChangedPackages_filtering_witness :
  ((∀ ap, In ap [ {| AffectedPackage.Name := "m/p";
                     AffectedPackage.IsCritical := false |} ] →
      (∃ dep, In dep (FindReverseDependencies
                        (snd (resultOf (filterRun cfgIgnoreQ))) "m/z") ∧
              Name dep = AffectedPackage.Name ap) ∧
      (∀ pattern,
         In pattern (config.IgnorePatterns (config.Patterns cfgIgnoreQ)) →
         matchPath pattern (AffectedPackage.Name ap) = false) ∧
      (config.HighLevelPackages (config.Targets cfgIgnoreQ) ≠ [] →
       ∃ pattern,
         In pattern (config.HighLevelPackages (config.Targets cfgIgnoreQ)) ∧
         matchPath pattern (AffectedPackage.Name ap) = true)) ∧
   (config.HighLevelPackages (config.Targets cfgIgnoreQ) = [] →
    ∀ dep, In dep (FindReverseDependencies
                     (snd (resultOf (filterRun cfgIgnoreQ))) "m/z") →
      (∀ pattern,
         In pattern (config.IgnorePatterns (config.Patterns cfgIgnoreQ)) →
         matchPath pattern (Name dep) = false) →
      ∃ ap, In ap [ {| AffectedPackage.Name := "m/p";
                       AffectedPackage.IsCritical := false |} ] ∧
            AffectedPackage.Name ap = Name dep) ∧
   (∀ dep, In dep (FindReverseDependencies
                     (snd (resultOf (filterRun cfgIgnoreQ))) "m/z") →
      (∀ pattern,
         In pattern (config.IgnorePatterns (config.Patterns cfgIgnoreQ)) →
         matchPath pattern (Name dep) = false) →
      (∃ pattern,
         In pattern (config.HighLevelPackages (config.Targets cfgIgnoreQ)) ∧
         matchPath pattern (Name dep) = true) →
      ∃ ap, In ap [ {| AffectedPackage.Name := "m/p";
                       AffectedPackage.IsCritical := false |} ] ∧
            AffectedPackage.Name ap = Name dep)) ∧
  ((∀ ap, In ap [ {| AffectedPackage.Name := "m/q";
                     AffectedPackage.IsCritical := false |} ] →
      (∃ dep, In dep (FindReverseDependencies
                        (snd (resultOf (filterRun cfgTargetQ))) "m/z") ∧
              Name dep = AffectedPackage.Name ap) ∧
      (∀ pattern,
         In pattern (config.IgnorePatterns (config.Patterns cfgTargetQ)) →
         matchPath pattern (AffectedPackage.Name ap) = false) ∧
      (config.HighLevelPackages (config.Targets cfgTargetQ) ≠ [] →
       ∃ pattern,
         In pattern (config.HighLevelPackages (config.Targets cfgTargetQ)) ∧
         matchPath pattern (AffectedPackage.Name ap) = true)) ∧
   (config.HighLevelPackages (config.Targets cfgTargetQ) = [] →
    ∀ dep, In dep (FindReverseDependencies
                     (snd (resultOf (filterRun cfgTargetQ))) "m/z") →
      (∀ pattern,
         In pattern (config.IgnorePatterns (config.Patterns cfgTargetQ)) →
         matchPath pattern (Name dep) = false) →
      ∃ ap, In ap [ {| AffectedPackage.Name := "m/q";
                       AffectedPackage.IsCritical := false |} ] ∧
            AffectedPackage.Name ap = Name dep) ∧
   (∀ dep, In dep (FindReverseDependencies
                     (snd (resultOf (filterRun cfgTargetQ))) "m/z") →
      (∀ pattern,
         In pattern (config.IgnorePatterns (config.Patterns cfgTargetQ)) →
         matchPath pattern (Name dep) = false) →
      (∃ pattern,
         In pattern (config.HighLevelPackages (config.Targets cfgTargetQ)) ∧
         matchPath pattern (Name dep) = true) →
      ∃ ap, In ap [ {| AffectedPackage.Name := "m/q";
                       AffectedPackage.IsCritical := false |} ] ∧
            AffectedPackage.Name ap = Name dep)).
Proof.
  split.
  - apply (AnalyzeChangedPackages_filtering matchPath fsWhole1
             (Some ["p"; "q"; "z"]) 5 (analyzerM cfgIgnoreQ) ["z/z.go"]
             (fst (resultOf (filterRun cfgIgnoreQ)))
             (snd (resultOf (filterRun cfgIgnoreQ)))
             (filterRun_eq cfgIgnoreQ ltac:(auto))
             {| ChangedPackage := "m/z";
                AffectedPackages :=
                  [ {| AffectedPackage.Name := "m/p";
                       AffectedPackage.IsCritical := false |} ] |}).
    vm_compute. left. reflexivity.
  - apply (AnalyzeChangedPackages_filtering matchPath fsWhole1
             (Some ["p"; "q"; "z"]) 5 (analyzerM cfgTargetQ) ["z/z.go"]
             (fst (resultOf (filterRun cfgTargetQ)))
             (snd (resultOf (filterRun cfgTargetQ)))
             (filterRun_eq cfgTargetQ ltac:(auto))
             {| ChangedPackage := "m/z";
                AffectedPackages :=
                  [ {| AffectedPackage.Name := "m/q";
                       AffectedPackage.IsCritical := false |} ] |}).
    vm_compute. left. reflexivity.
Defined.

Lemma AnalyzeChangedPackages_partition_witness :
  (∀ x, In x (DirectDependencies (fst (resultOf chainRun))) →
        ¬ In x (IndirectDependencies (fst (resultOf chainRun)))) ∧
  (∀ x, In x (IndirectDependencies (fst (resultOf chainRun))) ↔
        (∃ impact ap, In impact (Impacts (fst (resultOf chainRun))) ∧
                      In ap (AffectedPackages impact) ∧
                      AffectedPackage.Name ap = x) ∧
        ¬ In x (DirectDependencies (fst (resultOf chainRun)))) ∧
  (∀ x, In x (DirectDependencies (fst (resultOf chainRun))) ↔
        ∃ impact p, In impact (Impacts (fst (resultOf chainRun))) ∧
                    Packages (snd (resultOf chainRun)) !! ChangedPackage impact
                      = Some p ∧
                    In x (Dependencies p)) ∧
  Sorted String.le (DirectDependencies (fst (resultOf chainRun))) ∧
  NoDup (DirectDependencies (fst (resultOf chainRun))) ∧
  Sorted String.le (IndirectDependencies (fst (resultOf chainRun))) ∧
  NoDup (IndirectDependencies (fst (resultOf chainRun))).
Proof.
  apply (AnalyzeChangedPackages_partition matchDoubleStar fsChain
           (Some ["."; "a"; "b"; "c"]) 5 (analyzerM config.DefaultConfig)
           ["c/c.go"; "b/b.go"; "b/b_test.go"]
           (fst (resultOf chainRun)) (snd (resultOf chainRun))).
  exact chainRun_eq.
Defined.

(** ** Fuel and the analysis *)

Lemma walkDir_fuel_mono fs fuel fuel' root t relPath t' :
  (fuel ≤ fuel')%nat →
  walkDir fs fuel root t relPath = Some t' →
  walkDir fs fuel' root t relPath = Some t'.
Proof.
  intros Hle. unfold walkDir. destruct (String.eqb _ "."); [done|].
  destruct (Resolve fs fuel t _) as [[r t1]|] eqn:Hrun; [|discriminate].
  by rewrite (Resolve_fuel_mono fs fuel fuel' _ _ _ Hle Hrun).
Qed.

Lemma AnalyzeChangedPackages_fuel_mono Match fs walk fuel fuel' a files x :
  (fuel ≤ fuel')%nat →
  AnalyzeChangedPackages Match fs walk fuel a files = Some x →
  AnalyzeChangedPackages Match fs walk fuel' a files = Some x.
Proof.
  intros Hle. unfold AnalyzeChangedPackages.
  destruct (tree a) as [t|]; [|done]. destruct walk as [dirs|]; [|done].
  destruct (forRange (walkDir fs fuel _) dirs t) as [t1|] eqn:Hwalk;
    [|discriminate].
  erewrite forRange_mono; [done| |exact Hwalk].
  intros s d s' _. by apply walkDir_fuel_mono.
Qed.

(** The analysis terminates: some outcome is given by every fuel that
    exceeds by two the number of import paths not yet registered in the
    tree of the analyzer (any fuel when the analyzer has no tree). *)
Lemma AnalyzeChangedPackages_terminates Match fs walk a files :
  ∃ x, ∀ fuel,
    (match tree a with Some t => pending fs t + 2 | None => 0 end ≤ fuel)%nat →
    AnalyzeChangedPackages Match fs walk fuel a files = Some x.
Proof.
  unfold AnalyzeChangedPackages.
  destruct (tree a) as [t|]; [|by eexists]. destruct walk as [dirs|];
    [|by eexists].
  assert (Hwalk : ∃ t1, forRange (walkDir fs (pending fs t + 2) (rootPkgPath a))
                                 dirs t = Some t1).
  { destruct (forRange_total (fun t1 => extends t t1)
                (walkDir fs (pending fs t + 2) (rootPkgPath a)) dirs t)
      as (t1 & H1 & _); [apply extends_refl| |by exists t1].
    intros t1 d _ Hext. unfold walkDir.
    destruct (String.eqb _ "."); [by exists t1|].
    destruct (Resolve_terminates fs t1 (rootPkgPath a ++ "/" ++ filepath.ToSlash d))
      as (r & t2 & Hrun).
    pose proof (pending_le fs t t1 Hext).
    rewrite (Hrun (pending fs t + 2)%nat) by lia.
    exists t2. split; [done|]. eapply extends_trans; [done|].
    eapply Resolve_extends. apply (Hrun (pending fs t1 + 2)%nat). lia. }
  destruct Hwalk as [t1 Hwalk]. eexists. intros fuel Hle.
  erewrite forRange_mono; [|intros s d s' _; by apply walkDir_fuel_mono
                           |exact Hwalk].
  rewrite visitChangedPkg_fold. reflexivity.
Qed.

(** ** Determinism (C3) *)

Lemma fsOrder_same : sameDirectoryTree fsOrder1 fsOrder2.
Proof.
  intros dir. unfold fsOrder1, fsOrder2.
  rewrite !lookup_insert. repeat case_decide; simpl.
  - constructor; [|constructor]. split; [done|]. apply perm_swap.
  - constructor; [|constructor]. split; [done|]. apply Permutation_refl.
  - rewrite !lookup_singleton. case_decide; simpl; done.
Qed.

(** C3 does not hold of the code.  [fsOrder1] and [fsOrder2] are one and
    the same directory tree, read with the two files of package [p] met in
    the two possible orders by the [range] over [parsedPkg.Files].  Package
    [z], imported by [p] and by [q], does not parse: the first import of
    it to be followed fails and gets no edge, every later one finds the
    path registered and gets its edge.  With [z/z.go] as the changed file
    the affected package is [m/p] in one run and [m/q] in the other, and
    the two reports differ. *)
Theorem AnalyzeChangedPackages_order_dependent
    (Match : string → string → bool) :
  sameDirectoryTree fsOrder1 fsOrder2 ∧
  ∃ r1 t1 r2 t2,
    (∀ fuel, (3 ≤ fuel)%nat →
             orderRun Match fsOrder1 fuel = Some (inr (r1, t1))) ∧
    (∀ fuel, (3 ≤ fuel)%nat →
             orderRun Match fsOrder2 fuel = Some (inr (r2, t2))) ∧
    map AffectedPackages (Impacts r1) =
      [[ {| AffectedPackage.Name := "m/p";
            AffectedPackage.IsCritical := false |} ]] ∧
    map AffectedPackages (Impacts r2) =
      [[ {| AffectedPackage.Name := "m/q";
            AffectedPackage.IsCritical := false |} ]] ∧
    r1 ≠ r2 ∧
    AnalysisResult_String r1 ≠ AnalysisResult_String r2.
Proof.
  split; [apply fsOrder_same|].
  exists (fst (resultOf (orderRun Match fsOrder1 3))),
         (snd (resultOf (orderRun Match fsOrder1 3))),
         (fst (resultOf (orderRun Match fsOrder2 3))),
         (snd (resultOf (orderRun Match fsOrder2 3))).
  split; [|split; [|split; [|split; [|split]]]].
  - intros fuel Hle.
    apply (AnalyzeChangedPackages_fuel_mono Match fsOrder1 _ 3 fuel); [done|].
    vm_compute. reflexivity.
  - intros fuel Hle.
    apply (AnalyzeChangedPackages_fuel_mono Match fsOrder2 _ 3 fuel); [done|].
    vm_compute. reflexivity.
  - vm_compute. reflexivity.
  - vm_compute. reflexivity.
  - vm_compute. discriminate.
  - vm_compute. discriminate.
Qed.

(** ** What does not depend on the order of a visit *)

(** [sort.Strings] gives the same list on every arrangement of its
    input: the order in which [range] yields the keys of [changedPkgs],
    [directDeps] and [allAffectedPkgs] is immaterial. *)
Lemma sort_Strings_order_free l l' :
  l ≡ₚ l' → sort_Strings l = sort_Strings l'.
Proof.
  intros Hp. apply (Sorted_unique String.le).
  - apply Sorted_sort_Strings.
  - apply Sorted_sort_Strings.
  - unfold sort_Strings. by rewrite !merge_sort_Permutation.
Qed.

#[global] Instance nameLe_trans : Transitive nameLe.
Proof. intros x y z. unfold nameLe. apply transitivity. Qed.

#[global] Instance nameLe_total : Total nameLe.
Proof. intros x y. unfold nameLe. apply total, _. Qed.

Lemma NoDup_map_inj {A B} (f : A → B) (l : list A) x y :
  NoDup (map f l) → In x l → In y l → f x = f y → x = y.
Proof.
  induction l as [|a l IH]; simpl; [done|].
  intros [Hna Hnd]%NoDup_cons [<-|Hx] [<-|Hy] Heq; [done| | |by apply IH].
  - destruct Hna. rewrite Heq. apply list_elem_of_In. by apply in_map.
  - destruct Hna. rewrite <- Heq. apply list_elem_of_In. by apply in_map.
Qed.

(** [sort.Slice] by name gives the same list on every arrangement of
    entries whose names differ. *)
Lemma sort_Slice_order_free l l' :
  l ≡ₚ l' → NoDup (map AffectedPackage.Name l) →
  sort_Slice l = sort_Slice l'.
Proof.
  intros Hp Hnd. apply (Sorted_unique_strong nameLe).
  - intros x1 x2 H1 H2 H12 H21.
    unfold sort_Slice in H1, H2. rewrite merge_sort_Permutation in H1, H2.
    rewrite <- Hp in H2. apply list_elem_of_In in H1, H2.
    apply (NoDup_map_inj AffectedPackage.Name l); [done..|].
    by apply (anti_symm String.le).
  - apply (Sorted_merge_sort nameLe).
  - apply (Sorted_merge_sort nameLe).
  - unfold sort_Slice. by rewrite !merge_sort_Permutation.
Qed.

Lemma filter_Permutation' {A} (f : A → bool) (l l' : list A) :
  l ≡ₚ l' → List.filter f l ≡ₚ List.filter f l'.
Proof.
  induction 1 as [|x l l' _ IH|x y l|l1 l2 l3 _ IH1 _ IH2]; simpl.
  - done.
  - destruct (f x); [by constructor|done].
  - destruct (f x), (f y); try done. apply perm_swap.
  - by etrans.
Qed.

Lemma wfTree_names t :
  wfTree t →
  map Name (map snd (map_to_list (Packages t))) =
  map fst (map_to_list (Packages t)).
Proof.
  intros Hwf. rewrite map_map. apply map_ext_in. intros [k p] Hin. simpl.
  apply Hwf. apply elem_of_map_to_list. by apply list_elem_of_In.
Qed.

Lemma NoDup_map_filter {A B} (f : A → B) (g : A → bool) (l : list A) :
  NoDup (map f l) → NoDup (map f (List.filter g l)).
Proof.
  induction l as [|a l IH]; simpl; [done|].
  intros [Hna Hnd]%NoDup_cons. destruct (g a); simpl; [|auto].
  apply NoDup_cons. split; [|auto]. intros Hin. apply Hna.
  apply list_elem_of_In, in_map_iff in Hin as (x & Hx & Hin).
  apply filter_In in Hin as [Hin _].
  rewrite <- Hx. apply list_elem_of_In. by apply in_map.
Qed.

(** The affected packages of an impact do not depend on the order in
    which [FindReverseDependencies] meets the nodes of [t.Packages]: every
    arrangement [nodes] of the nodes of a well-formed tree leads to the
    list that [impactOf] has. *)
Lemma impactOf_order_free Match c t nodes pkgName :
  wfTree t → nodes ≡ₚ map snd (map_to_list (Packages t)) →
  sort_Slice (map (affectedOf Match c)
                (List.filter (qualifies Match c)
                   (FindReverseDependenciesIn nodes pkgName))) =
  AffectedPackages (impactOf Match c t pkgName).
Proof.
  intros Hwf Hp. simpl. unfold survivors, FindReverseDependencies.
  rewrite !FindReverseDependenciesIn_filter.
  assert (Hnd : NoDup (map Name nodes)).
  { rewrite (Permutation_map Name Hp).
    rewrite wfTree_names by done. apply NoDup_fst_map_to_list. }
  apply sort_Slice_order_free.
  - apply Permutation_map. by do 2 apply filter_Permutation'.
  - rewrite map_map. simpl. by do 2 apply NoDup_map_filter.
Qed.

(** * Further properties of the code *)

(** ** The shape and the provenance of the nodes *)

(** The three nested loops keep an invariant that the steps keep; each
    step knows the package, the non-test file and the literal it is at. *)
Lemma loops_inv_in (I : LoopState → Prop) rec name pkgs st st' :
  I st →
  (∀ t S (p : ParsedPkg) (f : ParsedFile),
     In p pkgs → In f (snd p) → isTestFile f = false →
     I (t, S) → I (modifyPkg name (appendFile (fst f)) t, S)) →
  (∀ st (p : ParsedPkg) (f : ParsedFile) l st',
     In p pkgs → In f (snd p) → isTestFile f = false → In l (snd f) →
     I st → visitImport rec name st l = Some st' → I st') →
  forRange (visitPackage rec name) pkgs st = Some st' → I st'.
Proof.
  intros Hst Hfile Himp. apply forRange_inv; [done|].
  intros s p s1 Hp Hs. unfold visitPackage. apply forRange_inv; [done|].
  clear s Hs s1. intros s [filename imports] s1 Hf Hs. unfold visitFile.
  destruct (strings.HasSuffix filename "_test.go") eqn:Htest;
    [by intros [= <-]|].
  destruct s as [t S]. apply forRange_inv.
  { by apply (Hfile t S p (filename, imports)). }
  intros s l s' Hl. by apply (Himp s p (filename, imports) l s').
Qed.

Lemma internalImports_setPackages fs t m k :
  internalImports fs (setPackages t m) k = internalImports fs t k.
Proof. reflexivity. Qed.

Lemma dirFiles_sameRoot fs t t' k :
  sameRoot t t' → dirFiles fs t k = dirFiles fs t' k.
Proof. intros HR. unfold dirFiles. by rewrite (sameRoot_pkgDir t t' k HR). Qed.

Lemma treeShape_modifyPkg t name f :
  treeShape t →
  (∀ p, Packages t !! name = Some p → nodeOK (RootPkgPath t) (f p)) →
  treeShape (modifyPkg name f t).
Proof.
  intros Hs Hf k p. rewrite lookup_modifyPkg. case_decide as Hk.
  - subst k. destruct (Packages t !! name) as [p0|] eqn:E; [|done].
    simpl. intros [= <-]. by apply Hf.
  - apply Hs.
Qed.

Lemma treeSound_modifyPkg fs t name f :
  treeSound fs t →
  (∀ p, Packages t !! name = Some p →
     (∀ i, In i (Imports (f p)) → In i (internalImports fs t name)) ∧
     (∀ x, In x (Files (f p)) → In x (dirFiles fs t name))) →
  treeSound fs (modifyPkg name f t).
Proof.
  intros Hs Hf k p. rewrite lookup_modifyPkg. case_decide as Hk.
  - subst k. destruct (Packages t !! name) as [p0|] eqn:E; [|done].
    simpl. intros [= <-]. by apply Hf.
  - apply Hs.
Qed.

Lemma registeredWithin_modifyPkg fs t0 name f t :
  registeredWithin fs t0 name t →
  registeredWithin fs t0 name (modifyPkg name f t).
Proof. intros H k Hk. apply H. by apply lookup_modifyPkg_is_Some in Hk. Qed.

Lemma treeShape_extends_root t t' :
  sameRoot t t' → treeShape t' → ∀ k p,
  Packages t' !! k = Some p → nodeOK (RootPkgPath t) p.
Proof. intros (_ & _ & ->) H. exact H. Qed.

(** The state of the loops when they begin. *)
Lemma shapeInv_register fs t name :
  Packages t !! name = None → treeShape t → treeSound fs t →
  shapeInv fs t name
    (setPackages t (<[name := emptyNode t name]> (Packages t)), ∅).
Proof.
  intros Hnew Hshape Hsound. split; [by apply atWork_register|].
  split; [|split; [|split]]; simpl.
  - intros k p. simpl. rewrite lookup_insert. case_decide.
    + intros [= <-]. unfold nodeOK, emptyNode. simpl.
      repeat split; constructor.
    + apply Hshape.
  - intros k p. simpl. rewrite lookup_insert. case_decide.
    + intros [= <-]. by split.
    + apply Hsound.
  - intros k [p Hk]. simpl in Hk. rewrite lookup_insert in Hk.
    case_decide; [by right; left|]. left. by exists p.
  - intros p. rewrite lookup_insert_eq. intros [= <-]. by intros i [].
Qed.

Lemma dirFiles_intro fs t name pkgs (p : ParsedPkg) (f : ParsedFile) :
  fs !! pkgDir t name = Some (Parsed pkgs) →
  In p pkgs → In f (snd p) → isTestFile f = false →
  In (fst f) (dirFiles fs t name).
Proof.
  intros Hdir Hp Hf Hnt. unfold dirFiles. rewrite Hdir.
  apply in_map, filter_In. split; [|by rewrite Hnt].
  apply in_flat_map. by exists p.
Qed.

Lemma appendFile_shapeInv fs t0 name pkgs t S (p : ParsedPkg) (f : ParsedFile) :
  Packages t0 !! name = None →
  fs !! pkgDir t0 name = Some (Parsed pkgs) →
  In p pkgs → In f (snd p) → isTestFile f = false →
  shapeInv fs t0 name (t, S) →
  shapeInv fs t0 name (modifyPkg name (appendFile (fst f)) t, S).
Proof.
  intros Hnew Hdir Hp Hf Hnt (Hw & Hsh & Hso & Hreg & Hlink).
  cbn [fst snd] in *.
  assert (HR : sameRoot t0 t) by apply Hw.
  split; [by apply atWork_modifyPkg|]. split; [|split; [|split]]; cbn [fst snd].
  - apply treeShape_modifyPkg; [done|]. intros p3 Hp3.
    destruct (Hsh name p3 Hp3) as (? & ? & ? & ? & Hfiles).
    repeat split; simpl; try done.
    apply Forall_app. split; [done|]. constructor; [|constructor]. exact Hnt.
  - apply treeSound_modifyPkg; [done|]. intros p3 Hp3.
    destruct (Hso name p3 Hp3) as [Hi Hfl]. split; [done|]. simpl.
    intros x [Hx|[<-|[]]]%in_app_or; [auto|].
    rewrite <- (dirFiles_sameRoot fs t0 t name HR).
    by eapply dirFiles_intro.
  - by apply registeredWithin_modifyPkg.
  - intros p3. rewrite lookup_modifyPkg. case_decide; [|done].
    destruct (Packages t !! name) as [p0|] eqn:E; [|done]. simpl.
    intros [= <-]. simpl. by apply Hlink.
Qed.

Lemma visitImport_shapeInv fs rec t0 name pkgs st (p : ParsedPkg)
    (f : ParsedFile) l st' :
  recShape fs rec →
  Packages t0 !! name = None → wfTree t0 →
  fs !! pkgDir t0 name = Some (Parsed pkgs) →
  In p pkgs → In f (snd p) → isTestFile f = false → In l (snd f) →
  shapeInv fs t0 name st → visitImport rec name st l = Some st' →
  shapeInv fs t0 name st'.
Proof.
  intros Hrec Hnew Hwf0 Hdir Hp Hf Hnt Hl Hinv Hstep.
  destruct st as [t3 S3].
  apply visitImport_inv in Hstep as
      [[_ ->]|(Hpre & Hfresh & r & tb & Hcall & ->)]; [done|].
  set (i := strings.Trim l dquote) in *.
  destruct Hinv as (Hw3 & Hsh3 & Hso3 & Hreg3 & Hlink3).
  cbn [fst snd] in *.
  assert (HR3 : sameRoot t0 t3) by apply Hw3.
  assert (Hroot : RootPkgPath t0 = RootPkgPath t3) by apply HR3.
  destruct Hw3 as (Hext3 & [p3 Hp3] & Hwf3).
  destruct (Hsh3 name p3 Hp3) as (Hint & Hnd & Hpref & Hsub & Hfiles).
  destruct (Hso3 name p3 Hp3) as [Himps Hfls].
  assert (Hni : ¬ In i (Imports p3)).
  { intros Hin. apply Hfresh. by apply (Hlink3 p3). }
  assert (Htracked : In i (internalImports fs t3 name)).
  { rewrite <- (internalImports_sameRoot fs t0 t3 name HR3).
    unfold internalImports. rewrite Hdir.
    apply (trackedImports_intro _ _ p f l); try done. by rewrite Hroot. }
  set (t4 := modifyPkg name (appendImport i) t3) in *.
  assert (Hw4 : atWork t0 name t4).
  { apply atWork_modifyPkg; [done|done|]. split; [done|]. split; eauto. }
  assert (Hp4 : Packages t4 !! name = Some (appendImport i p3)).
  { unfold t4. rewrite lookup_modifyPkg, Hp3. by case_decide. }
  assert (Hok4 : nodeOK (RootPkgPath t3) (appendImport i p3)).
  { repeat split; simpl; try done.
    - apply NoDup_app. split; [done|]. split; [|apply NoDup_singleton].
      intros x Hx ->%list_elem_of_singleton. apply Hni.
      by apply list_elem_of_In.
    - apply Forall_app. split; [done|]. constructor; [done|constructor].
    - by apply sublist_inserts_r. }
  assert (Hsh4 : treeShape t4).
  { apply treeShape_modifyPkg; [done|]. intros q Hq.
    rewrite Hp3 in Hq. by injection Hq as <-. }
  assert (Hso4 : treeSound fs t4).
  { apply treeSound_modifyPkg; [done|]. intros q Hq.
    rewrite Hp3 in Hq. injection Hq as <-. split; [|done]. simpl.
    intros x [Hx|[<-|[]]]%in_app_or; auto. }
  assert (Hwf4 : wfTree t4) by by apply Hw4.
  destruct (Hrec t4 i r tb Hwf4 Hsh4 Hso4 Hcall)
    as (Hext & [dep Hdep] & Hwfb & Hshb & Hsob & Hregb).
  assert (Hwb : atWork t0 name tb) by by eapply atWork_extends.
  assert (Hpb : Packages tb !! name = Some (appendImport i p3))
    by by apply Hext.
  assert (HRb : sameRoot t3 tb).
  { eapply sameRoot_trans; [apply sameRoot_setPackages|apply Hext]. }
  assert (Hregb' : registeredWithin fs t0 name tb).
  { intros k Hk. destruct (Hregb k Hk) as [Hk4|[->|[HkU Hkp]]].
    - apply Hreg3. by apply lookup_modifyPkg_is_Some in Hk4.
    - right; right. split.
      + by apply (universe_intro fs _ pkgs p f l Hdir).
      + by rewrite Hroot.
    - right; right. split; [done|]. by rewrite Hroot. }
  assert (Hlinkb : ∀ q, Packages tb !! name = Some q →
                        ∀ x, In x (Imports q) → x ∈ {[i]} ∪ S3).
  { intros q Hq. rewrite Hpb in Hq. injection Hq as <-. simpl.
    intros x [Hx|[<-|[]]]%in_app_or; [|set_solver].
    apply elem_of_union_r. by apply (Hlink3 p3). }
  unfold afterImport. destruct r as [e|].
  { split; [done|]. split; [done|]. split; [done|]. split; [done|].
    exact Hlinkb. }
  rewrite Hdep. rewrite (Hwfb i dep Hdep).
  split; [by apply atWork_modifyPkg|]. split; [|split; [|split]]; cbn [fst snd].
  - apply treeShape_modifyPkg; [done|]. intros q Hq.
    rewrite Hpb in Hq. injection Hq as <-.
    destruct HRb as (_ & _ & <-).
    destruct Hok4 as (? & ? & ? & _ & ?). repeat split; simpl; try done.
    apply sublist_app; [done|]. done.
  - apply treeSound_modifyPkg; [done|]. intros q Hq.
    rewrite Hpb in Hq. injection Hq as <-. simpl.
    destruct (Hsob name _ Hpb) as [? ?]. by split.
  - by apply registeredWithin_modifyPkg.
  - intros q. rewrite lookup_modifyPkg, Hpb. case_decide; [|done]. simpl.
    intros [= <-]. simpl. by apply (Hlinkb _ Hpb).
Qed.

(** Every call of [Resolve], at every fuel, meets [recShape]. *)
Lemma Resolve_recShape fs fuel : recShape fs (Resolve fs fuel).
Proof.
  induction fuel as [|fuel IH]; intros t name r t' Hwf Hsh Hso Hrun; [done|].
  destruct (Resolve_extends _ _ _ _ _ _ Hrun) as (Hext & Hreg & Hwf').
  split; [done|]. split; [done|]. split; [auto|].
  rewrite Resolve_S in Hrun.
  destruct (Packages t !! name) as [p|] eqn:Hnew.
  { injection Hrun as <- <-. split; [done|]. split; [done|].
    intros k Hk. by left. }
  cbv zeta in Hrun.
  change (mkPkg name [] [] [] (strings.HasPrefix name (RootPkgPath t)))
    with (emptyNode t name) in Hrun.
  set (t1 := setPackages t (<[name:=emptyNode t name]> (Packages t))) in Hrun.
  assert (H1 : shapeInv fs t name (t1, ∅)) by by apply shapeInv_register.
  assert (Hdir1 : pkgDir t1 name = pkgDir t name) by reflexivity.
  rewrite Hdir1 in Hrun.
  assert (Hfin : ∀ t2 S2, shapeInv fs t name (t2, S2) →
            treeShape t2 ∧ treeSound fs t2 ∧ registeredWithin fs t name t2).
  { intros t2 S2 (_ & ? & ? & ? & _). done. }
  destruct (fs !! pkgDir t name) as [[|pkgs]|] eqn:Hdir.
  - injection Hrun as <- <-. by apply (Hfin t1 ∅).
  - destruct pkgs as [|p0 pkgs0].
    { injection Hrun as <- <-. by apply (Hfin t1 ∅). }
    destruct (forRange _ _ _) as [[t2 S2]|] eqn:Hloop; [|discriminate].
    injection Hrun as <- <-. apply (Hfin t2 S2).
    eapply (loops_inv_in (shapeInv fs t name)); [exact H1| | |exact Hloop].
    + intros t3 S3 p f Hp Hf Hnt. by eapply appendFile_shapeInv.
    + intros st p f l st' Hp Hf Hnt Hl. by eapply visitImport_shapeInv.
  - injection Hrun as <- <-. by apply (Hfin t1 ∅).
Qed.

Lemma builtTree_NewTree fs rootDir rootPkgPath :
  builtTree fs (NewTree rootDir rootPkgPath).
Proof.
  split; [apply wfTree_NewTree|]. split; [|split].
  - intros k p Hk. simpl in Hk. by rewrite lookup_empty in Hk.
  - intros k p Hk. simpl in Hk. by rewrite lookup_empty in Hk.
  - intros k [p Hk]. simpl in Hk. by rewrite lookup_empty in Hk.
Qed.

(** A call that returns keeps a built tree built. *)
Lemma Resolve_builtTree fs fuel t name r t' :
  builtTree fs t → Resolve fs fuel t name = Some (r, t') → builtTree fs t'.
Proof.
  intros (Hwf & Hsh & Hso & Hco) Hrun.
  destruct (Resolve_recShape fs fuel t name r t' Hwf Hsh Hso Hrun)
    as (Hext & _ & Hwf' & Hsh' & Hso' & _).
  destruct (Resolve_recSpec fs fuel t name r t' Hwf Hrun)
    as (_ & _ & _ & _ & Hnew).
  split; [done|]. split; [done|]. split; [done|].
  intros k Hk. destruct (Packages t !! k) as [p|] eqn:E.
  - eapply complete_grows; [by apply extends_grows|]. apply Hco. by exists p.
  - by apply Hnew.
Qed.

(** X1.  A call of [Resolve] that returns, with or without an error, has
    changed and removed no node that was registered when it began, has
    left the root directory and the root package path as they were, has
    registered its path, and has kept every node under its own name. *)
Theorem Resolve_frame fs fuel t name r t' :
  Resolve fs fuel t name = Some (r, t') →
  RootDir t' = RootDir t ∧ RootPkgPath t' = RootPkgPath t ∧
  (∀ k p, Packages t !! k = Some p → Packages t' !! k = Some p) ∧
  is_Some (Packages t' !! name) ∧
  (wfTree t → wfTree t').
Proof.
  intros Hrun.
  apply Resolve_extends in Hrun as ([(_ & HD & HP) HF] & Hreg & Hwf).
  repeat split; auto.
Qed.

(** Resolving [m/a] after [m/c] on [fsChain]. *)
Lemma chainTree_run :
  Resolve fsChain 4 chainTreeC "m/a" =
  Some (None, treeAfter (Resolve fsChain 4 chainTreeC "m/a")).
Proof. vm_compute. reflexivity. Qed.

Lemma Resolve_frame_witness :
  RootDir (treeAfter (Resolve fsChain 4 chainTreeC "m/a")) = RootDir chainTreeC ∧
  RootPkgPath (treeAfter (Resolve fsChain 4 chainTreeC "m/a"))
    = RootPkgPath chainTreeC ∧
  (∀ k p, Packages chainTreeC !! k = Some p →
          Packages (treeAfter (Resolve fsChain 4 chainTreeC "m/a")) !! k
            = Some p) ∧
  is_Some (Packages (treeAfter (Resolve fsChain 4 chainTreeC "m/a")) !! "m/a") ∧
  (wfTree chainTreeC →
   wfTree (treeAfter (Resolve fsChain 4 chainTreeC "m/a"))).
Proof.
  exact (Resolve_frame fsChain 4 chainTreeC "m/a" None _ chainTree_run).
Defined.

(** X2.  A call of [Resolve] that returns an error has registered the
    empty node of its path and nothing else; every later call on that
    path, on the tree it left, returns no error and changes nothing: the
    failure of a package is reported to the first caller only. *)
Theorem Resolve_error_once fs fuel t name e t' :
  Resolve fs fuel t name = Some (Some e, t') →
  Packages t !! name = None ∧
  t' = setPackages t (<[name := emptyNode t name]> (Packages t)) ∧
  (e = ErrParse name (pkgDir t name) ∨ e = ErrNoPackages (pkgDir t name)) ∧
  ∀ fuel', Resolve fs (S fuel') t' name = Some (None, t').
Proof.
  destruct fuel as [|fuel]; [done|]. rewrite Resolve_S.
  destruct (Packages t !! name) as [p|] eqn:Hnew; [done|]. cbv zeta.
  rewrite pkgDir_setPackages.
  assert (Hagain : ∀ fuel',
    Resolve fs (S fuel')
      (setPackages t (<[name := emptyNode t name]> (Packages t))) name =
    Some (None, setPackages t (<[name := emptyNode t name]> (Packages t)))).
  { intros fuel'. rewrite Resolve_S. simpl. by rewrite lookup_insert_eq. }
  destruct (fs !! pkgDir t name) as [[|pkgs]|]; [| |done].
  - intros [= <- <-]. auto.
  - destruct pkgs as [|p0 pkgs0].
    + intros [= <- <-]. auto.
    + destruct (forRange _ _ _) as [[t2 S2]|]; discriminate.
Qed.

Lemma Resolve_error_once_witness :
  Packages treeM !! "m/bad" = None ∧
  setPackages treeM {[ "m/bad" := emptyNode treeM "m/bad" ]} =
    setPackages treeM (<[ "m/bad" := emptyNode treeM "m/bad" ]> (Packages treeM)) ∧
  (ErrParse "m/bad" "/r/bad" = ErrParse "m/bad" (pkgDir treeM "m/bad") ∨
   ErrParse "m/bad" "/r/bad" = ErrNoPackages (pkgDir treeM "m/bad")) ∧
  ∀ fuel', Resolve fsBroken (S fuel')
             (setPackages treeM {[ "m/bad" := emptyNode treeM "m/bad" ]}) "m/bad"
           = Some (None, setPackages treeM
                           {[ "m/bad" := emptyNode treeM "m/bad" ]}).
Proof.
  apply (Resolve_error_once fsBroken 1 treeM "m/bad"
           (ErrParse "m/bad" "/r/bad")
           (setPackages treeM {[ "m/bad" := emptyNode treeM "m/bad" ]})).
  vm_compute. reflexivity.
Defined.

(** X3.  [Resolve] keeps the shape and the provenance of the nodes.  In
    a tree whose nodes sit under their own names, if every node has
    [Internal] equal to the prefix test on its name, distinct imports that
    all have the root prefix, dependencies that form a subsequence of its
    imports, no test file among its files, and imports and files that are
    imports and non-test files of its directory, then the same holds of
    every node of the tree a call of [Resolve] leaves, the nodes that were
    being built included. *)
Theorem Resolve_node_shape fs fuel t name r t' :
  wfTree t → treeShape t → treeSound fs t →
  Resolve fs fuel t name = Some (r, t') →
  treeShape t' ∧ treeSound fs t'.
Proof.
  intros Hwf Hsh Hso Hrun.
  destruct (Resolve_recShape fs fuel t name r t' Hwf Hsh Hso Hrun)
    as (_ & _ & _ & Hsh' & Hso' & _).
  done.
Qed.

Lemma Resolve_node_shape_witness :
  treeShape (treeAfter (Resolve fsCycle 3 treeM "m/a")) ∧
  treeSound fsCycle (treeAfter (Resolve fsCycle 3 treeM "m/a")).
Proof.
  apply (Resolve_node_shape fsCycle 3 treeM "m/a" None).
  - apply wfTree_NewTree.
  - apply (builtTree_NewTree fsCycle).
  - apply (builtTree_NewTree fsCycle).
  - vm_compute. reflexivity.
Defined.

(** X4.  The nodes that a call of [Resolve] registers, the node of its
    own path apart, are nodes of import paths written in some file of the
    file system, and they are internal: nothing else enters the graph. *)
Theorem Resolve_registers_within fs fuel t name r t' :
  wfTree t → treeShape t → treeSound fs t →
  Resolve fs fuel t name = Some (r, t') →
  ∀ k p, Packages t' !! k = Some p → Packages t !! k = None → k ≠ name →
    k ∈ universe fs ∧ Internal p = true.
Proof.
  intros Hwf Hsh Hso Hrun k p Hk Hnew Hne.
  destruct (Resolve_recShape fs fuel t name r t' Hwf Hsh Hso Hrun)
    as (Hext & _ & Hwf' & Hsh' & _ & Hreg).
  destruct (Hreg k) as [[q Hq]|[->|[HU Hpre]]]; [by exists p|congruence|done|].
  split; [done|].
  destruct (Hsh' k p Hk) as (-> & _). rewrite (Hwf' k p Hk).
  destruct Hext as [(_ & _ & <-) _]. done.
Qed.

Lemma Resolve_registers_within_witness :
  "m/b" ∈ universe fsCycle ∧
  Internal {| Name := "m/b"; Files := ["/r/b/b.go"]; Imports := ["m/a"];
              Dependencies := ["m/a"]; Internal := true |} = true.
Proof.
  apply (Resolve_registers_within fsCycle 3 treeM "m/a" None
           (treeAfter (Resolve fsCycle 3 treeM "m/a"))).
  - apply wfTree_NewTree.
  - apply (builtTree_NewTree fsCycle).
  - apply (builtTree_NewTree fsCycle).
  - vm_compute. reflexivity.
  - vm_compute. reflexivity.
  - reflexivity.
  - discriminate.
Defined.

(** ** The directory of a package path *)

Lemma substring_0_length s : String.substring 0 (String.length s) s = s.
Proof. induction s as [|c s IH]; simpl; [done|]. by rewrite IH. Qed.

Lemma TrimPrefix_app a s : strings.TrimPrefix (a ++ s) a = s.
Proof.
  unfold strings.TrimPrefix, strings.HasPrefix.
  rewrite (proj2 (prefix_iff_app a (a ++ s))) by by exists s.
  induction a as [|c a IH]; simpl.
  - rewrite Nat.sub_0_r. apply substring_0_length.
  - exact IH.
Qed.

(** X5.  The package path made of the root package path, a slash and a
    relative path is mapped to the root directory joined with that
    relative path; and so is the package path made of the root package
    path and the relative path with no slash between them, which
    [IsInternal] accepts as well: two package paths, one directory. *)
Theorem pkgDir_under_root (t : Tree) (rel : string) :
  strings.HasPrefix rel "/" = false →
  pkgDir t (RootPkgPath t ++ "/" ++ rel) = filepath.Join (RootDir t) rel ∧
  pkgDir t (RootPkgPath t ++ rel) = filepath.Join (RootDir t) rel.
Proof.
  intros Hrel. unfold pkgDir. rewrite !TrimPrefix_app. split.
  - done.
  - unfold strings.TrimPrefix at 1. by rewrite Hrel.
Qed.

Lemma pkgDir_under_root_witness :
  pkgDir treeM (RootPkgPath treeM ++ "/" ++ "p/q") = filepath.Join (RootDir treeM) "p/q" ∧
  pkgDir treeM (RootPkgPath treeM ++ "p/q") = filepath.Join (RootDir treeM) "p/q".
Proof. apply (pkgDir_under_root treeM "p/q"). reflexivity. Defined.

(** ** The analysis, step by step *)

Lemma AnalyzeChangedPackages_inv2 Match fs walk fuel a changedFiles r t' :
  AnalyzeChangedPackages Match fs walk fuel a changedFiles = Some (inr (r, t')) →
  ∃ t dirs,
    tree a = Some t ∧ walk = Some dirs ∧
    forRange (walkDir fs fuel (rootPkgPath a)) dirs t = Some t' ∧
    Impacts r =
      map (impactOf Match (cfg a) t')
          (sort_Strings
             (elements (fold_left (visitChangedFile (rootPkgPath a))
                                  changedFiles ∅))).
Proof.
  unfold AnalyzeChangedPackages.
  destruct (tree a) as [t|]; [|discriminate].
  destruct walk as [dirs|]; [|discriminate].
  destruct (forRange _ dirs t) as [t1|] eqn:Hwalk; [|discriminate].
  rewrite visitChangedPkg_fold. intros [= <- <-].
  by exists t, dirs.
Qed.

Lemma visitChangedFile_eq root (S : gset string) file :
  visitChangedFile root S file =
  match changedPackageOf root file with
  | Some k => {[k]} ∪ S
  | None => S
  end.
Proof.
  unfold visitChangedFile, changedPackageOf.
  by destruct (negb _ || _).
Qed.

Lemma changedPkgs_spec root files (S : gset string) k :
  k ∈ fold_left (visitChangedFile root) files S ↔
  k ∈ S ∨ ∃ file, In file files ∧ changedPackageOf root file = Some k.
Proof.
  revert S. induction files as [|file files IH]; intros S; simpl.
  - split; [auto|]. intros [?|(? & [] & _)]. done.
  - rewrite IH, visitChangedFile_eq.
    destruct (changedPackageOf root file) as [k0|] eqn:E.
    + rewrite elem_of_union, elem_of_singleton. split.
      * intros [[->|?]|(f & ? & ?)]; [|by left|].
        -- right. exists file. auto.
        -- right. exists f. auto.
      * intros [?|(f & [<-|?] & Hf)]; [by left; right| |].
        -- left; left. congruence.
        -- right. exists f. auto.
    + split.
      * intros [?|(f & ? & ?)]; [by left|]. right. exists f. auto.
      * intros [?|(f & [<-|?] & Hf)]; [by left|congruence|].
        right. exists f. auto.
Qed.

(** X6.  The impacts of a result are one per changed package, in
    ascending order of the package path and without repetition; and the
    changed packages are those of the changed files that are Go files and
    not tests: the root package path for a file at the root, else the root
    package path, a slash and the directory of the file. *)
Theorem AnalyzeChangedPackages_impacts
    Match fs walk fuel a changedFiles r t' :
  AnalyzeChangedPackages Match fs walk fuel a changedFiles = Some (inr (r, t')) →
  Sorted String.le (map ChangedPackage (Impacts r)) ∧
  NoDup (map ChangedPackage (Impacts r)) ∧
  ∀ k, In k (map ChangedPackage (Impacts r)) ↔
       ∃ file, In file changedFiles ∧
               changedPackageOf (rootPkgPath a) file = Some k.
Proof.
  intros (t & dirs & _ & _ & _ & ->)%AnalyzeChangedPackages_inv2.
  rewrite map_map. simpl. rewrite map_id.
  split; [apply Sorted_sort_Strings|].
  split; [apply NoDup_sort_Strings, NoDup_elements|].
  intros k. rewrite In_sort_Strings, <- list_elem_of_In, elem_of_elements.
  rewrite changedPkgs_spec. split; [|auto]. intros [H|H]; [set_solver|done].
Qed.

Lemma AnalyzeChangedPackages_impacts_witness :
  Sorted String.le (map ChangedPackage (Impacts (fst (resultOf chainRun)))) ∧
  NoDup (map ChangedPackage (Impacts (fst (resultOf chainRun)))) ∧
  ∀ k, In k (map ChangedPackage (Impacts (fst (resultOf chainRun)))) ↔
       ∃ file, In file ["c/c.go"; "b/b.go"; "b/b_test.go"] ∧
               changedPackageOf
                 (rootPkgPath (analyzerM config.DefaultConfig)) file = Some k.
Proof.
  exact (AnalyzeChangedPackages_impacts matchDoubleStar fsChain
           (Some ["."; "a"; "b"; "c"]) 5 (analyzerM config.DefaultConfig)
           ["c/c.go"; "b/b.go"; "b/b_test.go"]
           (fst (resultOf chainRun)) (snd (resultOf chainRun)) chainRun_eq).
Defined.

(** The walk keeps the analyzer's tree built, and only extends it. *)
Lemma walk_builtTree fs fuel root dirs t t' :
  builtTree fs t →
  forRange (walkDir fs fuel root) dirs t = Some t' →
  builtTree fs t' ∧ extends t t'.
Proof.
  intros Hb Hrun.
  apply (forRange_inv (fun t1 => builtTree fs t1 ∧ extends t t1)
           (walkDir fs fuel root) dirs t t'); [|clear Hrun|done].
  { split; [done|apply extends_refl]. }
  intros t1 d t2 _ [Hb1 He1]. unfold walkDir.
  destruct (String.eqb _ "."); [by intros [= <-]|].
  destruct (Resolve fs fuel t1 _) as [[r t3]|] eqn:Hres; [|discriminate].
  intros [= <-]. split; [by eapply Resolve_builtTree|].
  eapply extends_trans; [done|]. by eapply Resolve_extends.
Qed.

Lemma NoDup_names_FindReverseDependencies t pkgName :
  wfTree t → NoDup (map Name (FindReverseDependencies t pkgName)).
Proof.
  intros Hwf. unfold FindReverseDependencies.
  rewrite FindReverseDependenciesIn_filter. apply NoDup_map_filter.
  rewrite wfTree_names by done. apply NoDup_fst_map_to_list.
Qed.

(** X7.  When the analyzer holds a tree whose nodes sit under their own
    names, as [SetRootPackage] leaves it, the affected packages of every
    impact of a result are in ascending order of name and no name occurs
    twice among them. *)
Theorem AnalyzeChangedPackages_affected_sorted
    Match fs walk fuel a changedFiles t r t' :
  tree a = Some t → wfTree t →
  AnalyzeChangedPackages Match fs walk fuel a changedFiles = Some (inr (r, t')) →
  ∀ impact, In impact (Impacts r) →
    Sorted nameLe (AffectedPackages impact) ∧
    NoDup (map AffectedPackage.Name (AffectedPackages impact)).
Proof.
  intros Ht Hwf (t0 & dirs & Ht0 & _ & Hwalk & ->)%AnalyzeChangedPackages_inv2.
  rewrite Ht in Ht0. injection Ht0 as <-.
  intros impact (k & <- & _)%in_map_iff. simpl.
  split; [apply (Sorted_merge_sort nameLe)|].
  assert (Hwf' : wfTree t').
  { revert Hwalk.
    apply (forRange_inv wfTree (walkDir fs fuel (rootPkgPath a))); [done|].
    intros t1 d t2 _ H1. unfold walkDir.
    destruct (String.eqb _ "."); [by intros [= <-]|].
    destruct (Resolve fs fuel t1 _) as [[r0 t3]|] eqn:Hres; [|discriminate].
    intros [= <-]. by eapply Resolve_extends. }
  unfold sort_Slice.
  rewrite (Permutation_map AffectedPackage.Name
             (merge_sort_Permutation nameLe _)).
  rewrite map_map. simpl. unfold survivors.
  by apply NoDup_map_filter, NoDup_names_FindReverseDependencies.
Qed.

(** The run on [fsWhole1]: the change of [z/z.go] affects [m/p] and
    [m/q]. *)
Lemma wholeRun1_eq :
  orderRun matchDoubleStar fsWhole1 5
  = Some (inr (fst (resultOf (orderRun matchDoubleStar fsWhole1 5)),
               snd (resultOf (orderRun matchDoubleStar fsWhole1 5)))).
Proof. vm_compute. reflexivity. Qed.

Lemma AnalyzeChangedPackages_affected_sorted_witness :
  Sorted nameLe [ {| AffectedPackage.Name := "m/p";
                     AffectedPackage.IsCritical := false |};
                  {| AffectedPackage.Name := "m/q";
                     AffectedPackage.IsCritical := false |} ] ∧
  NoDup (map AffectedPackage.Name
           [ {| AffectedPackage.Name := "m/p";
                AffectedPackage.IsCritical := false |};
             {| AffectedPackage.Name := "m/q";
                AffectedPackage.IsCritical := false |} ]).
Proof.
  apply (AnalyzeChangedPackages_affected_sorted matchDoubleStar fsWhole1
           (Some ["p"; "q"; "z"]) 5 (analyzerM cfgNoPatterns)
           ["z/z.go"] treeM
           (fst (resultOf (orderRun matchDoubleStar fsWhole1 5)))
           (snd (resultOf (orderRun matchDoubleStar fsWhole1 5)))
           eq_refl (wfTree_NewTree "/r" "m") wholeRun1_eq
           {| ChangedPackage := "m/z";
              AffectedPackages :=
                [ {| AffectedPackage.Name := "m/p";
                     AffectedPackage.IsCritical := false |};
                  {| AffectedPackage.Name := "m/q";
                     AffectedPackage.IsCritical := false |} ] |}).
  vm_compute. left. reflexivity.
Defined.

(** X8.  When no changed file is a Go file that is not a test, the
    result has no impact and no direct or indirect dependency, whatever
    the source tree holds, and the report is the heading followed by the
    line [No changed packages found.] *)
Theorem AnalyzeChangedPackages_no_source_change
    Match fs walk fuel a changedFiles r t' :
  (∀ file, In file changedFiles →
           changedPackageOf (rootPkgPath a) file = None) →
  AnalyzeChangedPackages Match fs walk fuel a changedFiles = Some (inr (r, t')) →
  r = {| Impacts := []; DirectDependencies := [];
         IndirectDependencies := [] |} ∧
  AnalysisResult_String r =
    "<!-- dependency-guardian -->" ++ newline
    ++ "## " ++ magnifier ++ " Dependency Impact Analysis" ++ newline
    ++ newline ++ "No changed packages found." ++ newline.
Proof.
  intros Hnone. unfold AnalyzeChangedPackages.
  destruct (tree a) as [t|]; [|discriminate].
  destruct walk as [dirs|]; [|discriminate].
  destruct (forRange _ dirs t) as [t1|]; [|discriminate].
  assert (Hempty : fold_left (visitChangedFile (rootPkgPath a)) changedFiles ∅
                   = (∅ : gset string)).
  { apply set_eq. intros k. rewrite changedPkgs_spec. split; [|set_solver].
    intros [?|(file & Hin & Hk)]; [done|]. rewrite Hnone in Hk; done. }
  rewrite Hempty, elements_empty. intros [= <- <-]. split; reflexivity.
Qed.

Lemma AnalyzeChangedPackages_no_source_change_witness :
  fst (resultOf (AnalyzeChangedPackages matchDoubleStar fsChain
                   (Some ["."; "a"; "b"; "c"]) 5
                   (analyzerM config.DefaultConfig)
                   ["b/b_test.go"; "README.md"])) =
    {| Impacts := []; DirectDependencies := [];
       IndirectDependencies := [] |} ∧
  AnalysisResult_String
    (fst (resultOf (AnalyzeChangedPackages matchDoubleStar fsChain
                      (Some ["."; "a"; "b"; "c"]) 5
                      (analyzerM config.DefaultConfig)
                      ["b/b_test.go"; "README.md"]))) =
    "<!-- dependency-guardian -->" ++ newline
    ++ "## " ++ magnifier ++ " Dependency Impact Analysis" ++ newline
    ++ newline ++ "No changed packages found." ++ newline.
Proof.
  apply (AnalyzeChangedPackages_no_source_change matchDoubleStar fsChain
           (Some ["."; "a"; "b"; "c"]) 5 (analyzerM config.DefaultConfig)
           ["b/b_test.go"; "README.md"] _
           (snd (resultOf (AnalyzeChangedPackages matchDoubleStar fsChain
                   (Some ["."; "a"; "b"; "c"]) 5
                   (analyzerM config.DefaultConfig)
                   ["b/b_test.go"; "README.md"])))).
  - intros file [<-|[<-|[]]]; reflexivity.
  - vm_compute. reflexivity.
Defined.

Lemma In_FindReverseDependencies (t : Tree) (pkgName : string) (p : Pkg) :
  In p (FindReverseDependencies t pkgName) ↔
  (∃ k, Packages t !! k = Some p) ∧
  In pkgName (Dependencies p) ∧ Name p ≠ pkgName.
Proof.
  unfold FindReverseDependencies. rewrite FindReverseDependenciesIn_filter.
  rewrite filter_In, in_map_iff, andb_true_iff, negb_true_iff.
  rewrite hasDependency_In, String.eqb_neq. split.
  - intros ([[k p'] [Heq Hin]] & Hne & Hdep). simpl in Heq. subst p'.
    split; [|done]. exists k.
    apply elem_of_map_to_list. by apply list_elem_of_In.
  - intros ([k Hk] & Hdep & Hne). split; [|done].
    exists (k, p). split; [done|].
    apply list_elem_of_In. by apply elem_of_map_to_list.
Qed.

(** X9.  An affected package of a result is flagged critical exactly
    when its name matches one of the critical patterns of the
    configuration. *)
Theorem AnalyzeChangedPackages_critical
    Match fs walk fuel a changedFiles r t' :
  AnalyzeChangedPackages Match fs walk fuel a changedFiles = Some (inr (r, t')) →
  ∀ impact ap, In impact (Impacts r) → In ap (AffectedPackages impact) →
    (AffectedPackage.IsCritical ap = true ↔
     ∃ pattern, In pattern (config.Packages (config.Critical (cfg a))) ∧
                Match pattern (AffectedPackage.Name ap) = true).
Proof.
  intros (t & dirs & _ & _ & _ & ->)%AnalyzeChangedPackages_inv2.
  intros impact ap (k & <- & _)%in_map_iff
         (dep & _ & _ & ->)%In_AffectedPackages.
  simpl. unfold config.IsCriticalPackage. apply matchesAny_true.
Qed.




(** The test of the repository gives what it expects: one impact, of
    [github.com/a/b/d], with [github.com/a/b/c] affected and critical. *)
Lemma testRun_eq :
  testRun = Some (inr (fst (resultOf testRun), snd (resultOf testRun))).
Proof. vm_compute. reflexivity. Qed.

Example testRun_result :
  Impacts (fst (resultOf testRun))
  = [ {| ChangedPackage := "github.com/a/b/d";
         AffectedPackages :=
           [ {| AffectedPackage.Name := "github.com/a/b/c";
                AffectedPackage.IsCritical := true |} ] |} ].
Proof. vm_compute. reflexivity. Qed.

Lemma AnalyzeChangedPackages_critical_witness :
  AffectedPackage.IsCritical
    {| AffectedPackage.Name := "github.com/a/b/c";
       AffectedPackage.IsCritical := true |}
    = true ↔
  ∃ pattern,
    In pattern ["**/c"] ∧ matchPath pattern "github.com/a/b/c" = true.
Proof.
  apply (AnalyzeChangedPackages_critical matchPath fsTest
           (Some ["c"; "d"]) 5
           (SetRootPackage (NewAnalyzer cfgCriticalC "/repo") "github.com/a/b")
           ["d/d.go"]
           (fst (resultOf testRun)) (snd (resultOf testRun)) testRun_eq
           {| ChangedPackage := "github.com/a/b/d";
              AffectedPackages :=
                [ {| AffectedPackage.Name := "github.com/a/b/c";
                     AffectedPackage.IsCritical := true |} ] |}
           {| AffectedPackage.Name := "github.com/a/b/c";
              AffectedPackage.IsCritical := true |}).
  - vm_compute. left. reflexivity.
  - left. reflexivity.
Defined.

(** ** What the walk registers *)

Lemma length_append (s1 s2 : string) :
  String.length (s1 ++ s2) = (String.length s1 + String.length s2)%nat.
Proof. induction s1 as [|c s1 IH]; simpl; [done|]. by rewrite IH. Qed.

Lemma append_ne_self (s : string) (c : ascii) (x : string) :
  s ≠ s ++ String c x.
Proof.
  intros H. apply (f_equal String.length) in H.
  rewrite length_append in H. simpl in H. lia.
Qed.

(** The packages registered along the walk. *)
Lemma walk_registeredWithin fs fuel root dirs t t' :
  builtTree fs t →
  forRange (walkDir fs fuel root) dirs t = Some t' →
  ∀ k, is_Some (Packages t' !! k) →
    is_Some (Packages t !! k) ∨
    (∃ d, In d dirs ∧ k = root ++ "/" ++ filepath.ToSlash d) ∨
    k ∈ universe fs.
Proof.
  intros Hb Hrun.
  cut (builtTree fs t' ∧
       ∀ k, is_Some (Packages t' !! k) →
            is_Some (Packages t !! k) ∨
            (∃ d, In d dirs ∧ k = root ++ "/" ++ filepath.ToSlash d) ∨
            k ∈ universe fs); [by intros [_ ?]|].
  revert Hrun.
  apply (forRange_inv
           (fun t1 => builtTree fs t1 ∧
              ∀ k, is_Some (Packages t1 !! k) →
                   is_Some (Packages t !! k) ∨
                   (∃ d, In d dirs ∧ k = root ++ "/" ++ filepath.ToSlash d) ∨
                   k ∈ universe fs)
           (walkDir fs fuel root) dirs t t'); [by auto|].
  intros t1 d t2 Hd [Hb1 Hk1]. unfold walkDir.
  destruct (String.eqb _ "."); [by intros [= <-]|].
  destruct (Resolve fs fuel t1 _) as [[r t3]|] eqn:Hres; [|discriminate].
  intros [= <-]. split; [by eapply Resolve_builtTree|].
  destruct Hb1 as (Hwf & Hsh & Hso & _).
  destruct (Resolve_recShape fs fuel t1 _ r t3 Hwf Hsh Hso Hres)
    as (_ & _ & _ & _ & _ & Hreg).
  intros k Hk. destruct (Hreg k Hk) as [Hk'|[->|[HU _]]]; [auto| |auto].
  right; left. by exists d.
Qed.

(** X12.  What the walk registers.  After an analysis a registered
    package was registered before, or is the root package path followed
    by a slash and one of the walked directories, or is an import path
    written in some file.  The root package path itself is none of the
    second kind (the walk skips [.]): if it was not registered and no file
    imports it, it is not registered afterwards, and a change of a file at
    the root finds no node whose dependencies would count as direct. *)
Theorem AnalyzeChangedPackages_registers
    Match fs dirs fuel a changedFiles t r t' :
  tree a = Some t → builtTree fs t →
  AnalyzeChangedPackages Match fs (Some dirs) fuel a changedFiles
    = Some (inr (r, t')) →
  (∀ k, is_Some (Packages t' !! k) →
     is_Some (Packages t !! k) ∨
     (∃ d, In d dirs ∧ k = rootPkgPath a ++ "/" ++ filepath.ToSlash d) ∨
     k ∈ universe fs) ∧
  (Packages t !! rootPkgPath a = None → rootPkgPath a ∉ universe fs →
   Packages t' !! rootPkgPath a = None).
Proof.
  intros Ht Hb (t0 & dirs0 & Ht0 & Hd & Hwalk & _)%AnalyzeChangedPackages_inv2.
  rewrite Ht in Ht0. injection Ht0 as <-. injection Hd as <-.
  pose proof (walk_registeredWithin fs fuel _ dirs t t' Hb Hwalk) as Hreg.
  split; [done|]. intros Hnew HU.
  destruct (Packages t' !! rootPkgPath a) as [p|] eqn:E; [|done].
  destruct (Hreg (rootPkgPath a)) as [[q Hq]|[(d & _ & Heq)|?]];
    [by exists p|congruence| |done].
  exfalso. exact (append_ne_self _ _ _ Heq).
Qed.

Lemma AnalyzeChangedPackages_registers_witness :
  (∀ k, is_Some (Packages (snd (resultOf chainRun)) !! k) →
     is_Some (Packages treeM !! k) ∨
     (∃ d, In d ["."; "a"; "b"; "c"] ∧
           k = rootPkgPath (analyzerM config.DefaultConfig) ++ "/"
               ++ filepath.ToSlash d) ∨
     k ∈ universe fsChain) ∧
  (Packages treeM !! rootPkgPath (analyzerM config.DefaultConfig) = None →
   rootPkgPath (analyzerM config.DefaultConfig) ∉ universe fsChain →
   Packages (snd (resultOf chainRun))
     !! rootPkgPath (analyzerM config.DefaultConfig) = None).
Proof.
  exact (AnalyzeChangedPackages_registers matchDoubleStar fsChain
           ["."; "a"; "b"; "c"] 5 (analyzerM config.DefaultConfig)
           ["c/c.go"; "b/b.go"; "b/b_test.go"] treeM
           (fst (resultOf chainRun)) (snd (resultOf chainRun))
           eq_refl (builtTree_NewTree fsChain "/r" "m") chainRun_eq).
Defined.

(** ** The analysis returns, and can be repeated *)

(** X13.  With a tree set and a walk without error the analysis returns
    a result, never an error, for every fuel above a bound that depends
    only on the file system and the tree: packages that are missing, do
    not parse or hold no source do not stop it. *)
Theorem AnalyzeChangedPackages_returns Match fs dirs a changedFiles t :
  tree a = Some t →
  ∃ r t', ∀ fuel, (pending fs t + 2 ≤ fuel)%nat →
    AnalyzeChangedPackages Match fs (Some dirs) fuel a changedFiles
      = Some (inr (r, t')).
Proof.
  intros Ht.
  destruct (AnalyzeChangedPackages_terminates Match fs (Some dirs) a changedFiles)
    as [x Hx].
  rewrite Ht in Hx.
  assert (∃ r t', x = inr (r, t')) as (r & t' & ->).
  { specialize (Hx _ (Nat.le_refl _)). revert Hx.
    unfold AnalyzeChangedPackages. rewrite Ht.
    destruct (forRange _ dirs t) as [t1|]; [|discriminate].
    rewrite visitChangedPkg_fold. intros [= <-]. eauto. }
  by exists r, t'.
Qed.

Lemma AnalyzeChangedPackages_returns_witness :
  ∃ r t', ∀ fuel, (pending fsBroken treeM + 2 ≤ fuel)%nat →
    AnalyzeChangedPackages matchDoubleStar fsBroken (Some ["bad"; "e"]) fuel
      (analyzerM config.DefaultConfig) ["bad/x.go"]
      = Some (inr (r, t')).
Proof.
  exact (AnalyzeChangedPackages_returns matchDoubleStar fsBroken ["bad"; "e"]
           (analyzerM config.DefaultConfig) ["bad/x.go"] treeM eq_refl).
Defined.

(** After the walk every walked directory, the root apart, has its
    package registered. *)
Lemma walk_registers_dirs fs fuel root dirs t t' :
  forRange (walkDir fs fuel root) dirs t = Some t' →
  ∀ d, In d dirs → String.eqb (filepath.ToSlash d) "." = false →
       is_Some (Packages t' !! (root ++ "/" ++ filepath.ToSlash d)).
Proof.
  intros Hrun.
  destruct (forRange_post (fun _ => True)
              (fun d t1 => String.eqb (filepath.ToSlash d) "." = false →
                 is_Some (Packages t1 !! (root ++ "/" ++ filepath.ToSlash d)))
              (walkDir fs fuel root) dirs t t') as [_ H]; [done| | |done|done].
  - intros t1 d t2 _ _. unfold walkDir. split; [done|].
    destruct (String.eqb _ "."); [done|].
    destruct (Resolve fs fuel t1 _) as [[r t3]|] eqn:Hres; [|discriminate].
    injection H as <-. intros _. by eapply Resolve_extends.
  - intros b t1 d t2 _ _. unfold walkDir. intros Hstep Hb Hne.
    destruct (String.eqb (filepath.ToSlash d) "."); [by injection Hstep as <-; auto|].
    destruct (Resolve fs fuel t1 _) as [[r t3]|] eqn:Hres; [|discriminate].
    injection Hstep as <-. destruct (Hb Hne) as [p Hp]. exists p.
    by eapply Resolve_extends.
Qed.

(** A walk over directories whose packages are registered changes
    nothing. *)
Lemma walk_noop fs fuel root dirs t :
  (∀ d, In d dirs → String.eqb (filepath.ToSlash d) "." = false →
        is_Some (Packages t !! (root ++ "/" ++ filepath.ToSlash d))) →
  forRange (walkDir fs (S fuel) root) dirs t = Some t.
Proof.
  induction dirs as [|d dirs IH]; intros Hreg; simpl; [done|].
  assert (Hd : walkDir fs (S fuel) root t d = Some t).
  { unfold walkDir. destruct (String.eqb _ ".") eqn:E; [done|].
    destruct (Hreg d (or_introl eq_refl) E) as [p Hp].
    rewrite Resolve_S. by rewrite Hp. }
  rewrite Hd. apply IH. intros d' Hd'. apply Hreg. by right.
Qed.

(** X14.  The analysis can be repeated.  A second call of
    [AnalyzeChangedPackages] on the analyzer, which then holds the tree
    that the first call left, with the same changed files, leaves that
    tree as it is and returns the same result; one unit of fuel is
    enough, every package of the walk being registered already. *)
Theorem AnalyzeChangedPackages_repeatable
    Match fs walk fuel a changedFiles r t' :
  AnalyzeChangedPackages Match fs walk fuel a changedFiles = Some (inr (r, t')) →
  ∀ fuel', AnalyzeChangedPackages Match fs walk (S fuel') (withTree a t')
             changedFiles = Some (inr (r, t')).
Proof.
  intros Hrun fuel'.
  pose proof Hrun as (t & dirs & Ht & -> & Hwalk & _)%AnalyzeChangedPackages_inv2.
  revert Hrun. unfold AnalyzeChangedPackages. rewrite Ht, Hwalk. simpl.
  rewrite (walk_noop fs fuel' (rootPkgPath a) dirs t'); [done|].
  by apply (walk_registers_dirs fs fuel (rootPkgPath a) dirs t t').
Qed.

Lemma AnalyzeChangedPackages_repeatable_witness :
  AnalyzeChangedPackages matchDoubleStar fsChain
    (Some ["."; "a"; "b"; "c"]) 1
    (withTree (analyzerM config.DefaultConfig) (snd (resultOf chainRun)))
    ["c/c.go"; "b/b.go"; "b/b_test.go"]
  = Some (inr (fst (resultOf chainRun), snd (resultOf chainRun))).
Proof.
  exact (AnalyzeChangedPackages_repeatable matchDoubleStar fsChain
           (Some ["."; "a"; "b"; "c"]) 5 (analyzerM config.DefaultConfig)
           ["c/c.go"; "b/b.go"; "b/b_test.go"]
           (fst (resultOf chainRun)) (snd (resultOf chainRun)) chainRun_eq 0).
Defined.

(** X15.  The order in which [FindReverseDependencies] meets the nodes
    of the package map does not show in a result: two visits of the same
    nodes return the same dependents up to order, and when the names of
    the nodes differ, as they do in a tree whose nodes sit under their own
    names, filtering and sorting them gives the same list of affected
    packages. *)
Theorem FindReverseDependencies_order_free Match c nodes nodes' pkgName :
  nodes ≡ₚ nodes' → NoDup (map Name nodes) →
  FindReverseDependenciesIn nodes pkgName
    ≡ₚ FindReverseDependenciesIn nodes' pkgName ∧
  sort_Slice (map (affectedOf Match c)
                (List.filter (qualifies Match c)
                   (FindReverseDependenciesIn nodes pkgName))) =
  sort_Slice (map (affectedOf Match c)
                (List.filter (qualifies Match c)
                   (FindReverseDependenciesIn nodes' pkgName))).
Proof.
  intros Hp Hnd. rewrite !FindReverseDependenciesIn_filter.
  split; [by apply filter_Permutation'|].
  apply sort_Slice_order_free.
  - apply Permutation_map. by do 2 apply filter_Permutation'.
  - rewrite map_map. simpl. by do 2 apply NoDup_map_filter.
Qed.

Lemma FindReverseDependencies_order_free_witness :
  FindReverseDependenciesIn [nodeP; nodeQ] "m/z"
    ≡ₚ FindReverseDependenciesIn [nodeQ; nodeP] "m/z" ∧
  sort_Slice (map (affectedOf matchDoubleStar config.DefaultConfig)
                (List.filter (qualifies matchDoubleStar config.DefaultConfig)
                   (FindReverseDependenciesIn [nodeP; nodeQ] "m/z"))) =
  sort_Slice (map (affectedOf matchDoubleStar config.DefaultConfig)
                (List.filter (qualifies matchDoubleStar config.DefaultConfig)
                   (FindReverseDependenciesIn [nodeQ; nodeP] "m/z"))).
Proof.
  apply (FindReverseDependencies_order_free matchDoubleStar
           config.DefaultConfig [nodeP; nodeQ] [nodeQ; nodeP] "m/z").
  - apply perm_swap.
  - vm_compute. apply NoDup_cons. split.
    + intros H. apply list_elem_of_singleton in H. discriminate.
    + apply NoDup_singleton.
Defined.

(** ** The report and the comment of the pull request *)

Lemma Contains_prefix s substr :
  String.prefix substr s = true → gostrings.Contains s substr = true.
Proof. intros H. destruct s; cbn [gostrings.Contains]; by rewrite H. Qed.

(** Every report begins with the marker. *)
Lemma AnalysisResult_String_marker r :
  ∃ rest, AnalysisResult_String r = cmd.marker ++ rest.
Proof.
  unfold AnalysisResult_String, cmd.marker.
  destruct (length (Impacts r) =? 0)%nat; eexists; simpl; reflexivity.
Qed.

Lemma Contains_report r :
  gostrings.Contains (AnalysisResult_String r) cmd.marker = true.
Proof.
  apply Contains_prefix, prefix_iff_app. apply AnalysisResult_String_marker.
Qed.

Lemma existingCommentID_skip before rest :
  Forall (fun c => gostrings.Contains (cmd.Body c) cmd.marker = false) before →
  cmd.existingCommentID (before ++ rest) = cmd.existingCommentID rest.
Proof.
  induction 1 as [|c before Hc _ IH]; simpl; [done|]. by rewrite Hc.
Qed.

(** X16.  Posting the report.  Under [--no-comment], [runAnalyze] makes
    no call at all.  Otherwise it looks at the comments that its one
    [ListComments] request returned, the first page of the comments of
    the pull request: when none of these contains the marker it creates
    a comment with the report, also when a report lies on a later page;
    when the first of them that contains the marker is a report written
    by [AnalysisResult.String], whatever result it was written for, and
    has a non-zero id, it updates that comment with the new report,
    whatever comments follow it; and when the request failed it makes no
    call. *)
Theorem postReport_idempotent :
  (∀ listed prNum result,
     cmd.postReport true listed prNum result = cmd.Skipped) ∧
  (∀ prNum result,
     cmd.postReport false None prNum result = cmd.ErrListComments) ∧
  (∀ comments prNum result,
     Forall (fun c => gostrings.Contains (cmd.Body c) cmd.marker = false)
            comments →
     cmd.postReport false (Some comments) prNum result =
     cmd.Posted (cmd.CreateComment prNum (AnalysisResult_String result))) ∧
  (∀ before earlier id after prNum result,
     Forall (fun c => gostrings.Contains (cmd.Body c) cmd.marker = false)
            before →
     id ≠ 0%Z →
     cmd.postReport false
       (Some (before
              ++ {| cmd.Body := AnalysisResult_String earlier; cmd.ID := id |}
              :: after)%list) prNum result =
     cmd.Posted (cmd.UpdateComment id (AnalysisResult_String result))).
Proof.
  split; [done|]. split; [done|]. split.
  - intros comments prNum result Hnone. unfold cmd.postReport.
    cbn [negb]. cbv zeta.
    rewrite <- (app_nil_r comments), existingCommentID_skip by done.
    reflexivity.
  - intros before earlier id after prNum result Hnone Hid.
    unfold cmd.postReport. cbn [negb]. cbv zeta.
    rewrite existingCommentID_skip by done.
    cbn [cmd.existingCommentID cmd.Body cmd.ID]. rewrite Contains_report.
    destruct (id =? 0)%Z eqn:E; [|done]. by apply Z.eqb_eq in E.
Qed.

Lemma postReport_idempotent_witness :
  cmd.postReport false (Some [ {| cmd.Body := "LGTM"; cmd.ID := 7%Z |} ]) 12%Z
    (fst (resultOf chainRun)) =
  cmd.Posted
    (cmd.CreateComment 12%Z (AnalysisResult_String (fst (resultOf chainRun))))
  ∧
  cmd.postReport false
    (Some ([ {| cmd.Body := "LGTM"; cmd.ID := 7%Z |} ]
           ++ {| cmd.Body := AnalysisResult_String
                               {| Impacts := []; DirectDependencies := [];
                                  IndirectDependencies := [] |};
                 cmd.ID := 9%Z |}
           :: [ {| cmd.Body := "thanks"; cmd.ID := 11%Z |} ])%list) 12%Z
    (fst (resultOf chainRun)) =
  cmd.Posted
    (cmd.UpdateComment 9%Z (AnalysisResult_String (fst (resultOf chainRun)))).
Proof.
  split.
  - apply (proj1 (proj2 (proj2 postReport_idempotent))).
    constructor; [reflexivity|constructor].
  - apply (proj2 (proj2 (proj2 postReport_idempotent))).
    + constructor; [reflexivity|constructor].
    + discriminate.
Defined.

(** ** Owner and repository *)

Lemma rev_app_rev_app a cur acc :
  String.rev_app (String.rev_app a cur) acc = String.rev_app cur (a ++ acc).
Proof.
  revert cur. induction a as [|c a IH]; intros cur; simpl; [done|].
  by rewrite IH.
Qed.

Lemma append_nil_r (s : string) : s ++ "" = s.
Proof.
  induction s as [|c s IH]; [done|].
  change (String c (s ++ "") = String c s). by rewrite IH.
Qed.

Lemma append_cons c (a x : string) : String c a ++ x = String c (a ++ x).
Proof. reflexivity. Qed.

Lemma rev_rev_app a : String.rev (String.rev_app a "") = a.
Proof.
  unfold String.rev. rewrite rev_app_rev_app. apply append_nil_r.
Qed.

(** A piece without separator, read from the start of a piece. *)
Lemma splitFrom_piece sep a cur :
  List.filter (fun c => Ascii.eqb c sep) (list_ascii_of_string a) = [] →
  (∀ rest, gostrings.splitFrom cur sep (a ++ String sep rest) =
           String.rev (String.rev_app a cur)
             :: gostrings.splitFrom "" sep rest) ∧
  gostrings.splitFrom cur sep a = [String.rev (String.rev_app a cur)].
Proof.
  revert cur. induction a as [|c a IH]; intros cur Hno.
  - split; [|done]. intros rest. change ("" ++ String sep rest)
      with (String sep rest). simpl. by rewrite Ascii.eqb_refl.
  - simpl in Hno. destruct (Ascii.eqb c sep) eqn:E; [done|].
    destruct (IH (String c cur) Hno) as [H1 H2]. split.
    + intros rest. rewrite append_cons. simpl. rewrite E. apply H1.
    + simpl. rewrite E. apply H2.
Qed.

Lemma length_splitFrom sep s cur :
  length (gostrings.splitFrom cur sep s) =
  S (length (List.filter (fun c => Ascii.eqb c sep) (list_ascii_of_string s))).
Proof.
  revert cur. induction s as [|c s IH]; intros cur; simpl; [done|].
  destruct (Ascii.eqb c sep); simpl; by rewrite IH.
Qed.

(** X17.  Owner and repository.  When both flags are given they are
    used and [GITHUB_REPOSITORY] is not looked at.  Otherwise a value
    [owner/repo] of [GITHUB_REPOSITORY], with no slash inside the owner
    and inside the repository, gives that owner and that repository, each
    replaced by its flag when the flag is given; and a result is obtained
    exactly when the value is not empty and has one slash: an unset or
    malformed variable is an error even when one of the two flags is
    given. *)
Theorem ownerAndRepo_spec :
  (∀ ownerFlag repoFlag repoEnv,
     ownerFlag ≠ "" → repoFlag ≠ "" →
     cmd.ownerAndRepo ownerFlag repoFlag repoEnv = inr (ownerFlag, repoFlag)) ∧
  (∀ ownerFlag repoFlag owner repo,
     ownerFlag = "" ∨ repoFlag = "" →
     cmd.slashes owner = 0%nat → cmd.slashes repo = 0%nat →
     cmd.ownerAndRepo ownerFlag repoFlag (owner ++ "/" ++ repo) =
     inr (if String.eqb ownerFlag "" then owner else ownerFlag,
          if String.eqb repoFlag "" then repo else repoFlag)) ∧
  (∀ ownerFlag repoFlag repoEnv,
     ownerFlag = "" ∨ repoFlag = "" →
     ((∃ x, cmd.ownerAndRepo ownerFlag repoFlag repoEnv = inr x) ↔
      repoEnv ≠ "" ∧ cmd.slashes repoEnv = 1%nat)).
Proof.
  split; [|split].
  - intros ownerFlag repoFlag repoEnv Ho Hr. unfold cmd.ownerAndRepo.
    apply String.eqb_neq in Ho, Hr. by rewrite Ho, Hr.
  - intros ownerFlag repoFlag owner repo Hflags Ho Hr.
    unfold cmd.ownerAndRepo.
    assert (negb (String.eqb ownerFlag "") && negb (String.eqb repoFlag "")
            = false) as ->.
    { destruct Hflags as [-> | ->]; simpl; [done|]. apply andb_false_r. }
    assert (String.eqb (owner ++ "/" ++ repo) "" = false) as ->.
    { apply String.eqb_neq. by destruct owner. }
    unfold gostrings.Split. unfold cmd.slashes in Ho, Hr.
    apply length_zero_iff_nil in Ho, Hr.
    change ("/" ++ repo) with (String "/"%char repo).
    rewrite (proj1 (splitFrom_piece "/" owner "" Ho)).
    rewrite (proj2 (splitFrom_piece "/" repo "" Hr)).
    rewrite !rev_rev_app.
    by destruct (String.eqb ownerFlag ""), (String.eqb repoFlag "").
  - intros ownerFlag repoFlag repoEnv Hflags. unfold cmd.ownerAndRepo.
    assert (negb (String.eqb ownerFlag "") && negb (String.eqb repoFlag "")
            = false) as ->.
    { destruct Hflags as [-> | ->]; simpl; [done|]. apply andb_false_r. }
    destruct (String.eqb repoEnv "") eqn:Eenv.
    { apply String.eqb_eq in Eenv. split; [by intros [x ?]|].
      by intros [? _]. }
    apply String.eqb_neq in Eenv.
    pose proof (length_splitFrom "/" repoEnv "") as Hlen.
    fold (cmd.slashes repoEnv) in Hlen. unfold gostrings.Split.
    destruct (gostrings.splitFrom "" "/" repoEnv) as [|p0 [|p1 [|p2 l]]];
      simpl in Hlen.
    + done.
    + split; [by intros [x ?]|]. intros [_ ?]. lia.
    + split; [intros _; split; [done|lia]|]. intros _. by eexists.
    + split; [by intros [x ?]|]. intros [_ ?]. lia.
Qed.

Lemma ownerAndRepo_spec_witness :
  cmd.ownerAndRepo "o" "r" "garbage/with/slashes" = inr ("o", "r") ∧
  cmd.ownerAndRepo "" "fork" ("cosmos" ++ "/" ++ "dependency-guardian") =
    inr ("cosmos", "fork") ∧
  ((∃ x, cmd.ownerAndRepo "o" "" "a/b/c" = inr x) ↔
   "a/b/c" ≠ "" ∧ cmd.slashes "a/b/c" = 1%nat).
Proof.
  split; [|split].
  - apply (proj1 ownerAndRepo_spec); discriminate.
  - apply (proj1 (proj2 ownerAndRepo_spec) "" "fork" "cosmos"
             "dependency-guardian"); [by left|reflexivity|reflexivity].
  - apply (proj2 (proj2 ownerAndRepo_spec) "o" "" "a/b/c"). by right.
Defined.

(** ** The files of a pull request, page by page *)

Lemma listFrom_servePages {File : Type} (pages : list (list File)) :
  ∀ (rest prev : list (list File)) (acc : list File) (fuel : nat),
    pages = (prev ++ rest)%list → rest ≠ [] → (length rest ≤ fuel)%nat →
    github.listFrom (github.servePages pages) fuel
                    (Z.of_nat (length prev) + 1)%Z acc =
    Some (Some (acc ++ concat rest)%list).
Proof.
  induction rest as [|x rest IH]; intros prev acc fuel Hpages Hne Hfuel;
    [done|].
  destruct fuel as [|fuel]; [simpl in Hfuel; lia|].
  cbn [github.listFrom]. unfold github.servePages at 1.
  assert ((Z.of_nat (length prev) + 1 =? 0)%Z = false) as ->
    by (apply Z.eqb_neq; lia).
  assert (Z.to_nat (Z.of_nat (length prev) + 1 - 1) = length prev) as -> by lia.
  assert (nth (length prev) pages [] = x) as ->.
  { rewrite Hpages, app_nth2 by lia. by rewrite Nat.sub_diag. }
  assert (length pages = (length prev + S (length rest))%nat) as Hlen.
  { rewrite Hpages, length_app. done. }
  destruct rest as [|y rest].
  - assert ((Z.of_nat (length prev) + 1 <? Z.of_nat (length pages))%Z = false)
      as -> by (apply Z.ltb_ge; simpl in Hlen; lia).
    simpl. by rewrite app_nil_r.
  - assert ((Z.of_nat (length prev) + 1 <? Z.of_nat (length pages))%Z = true)
      as -> by (apply Z.ltb_lt; simpl in Hlen; lia).
    assert ((Z.of_nat (length prev) + 1 + 1 =? 0)%Z = false) as ->
      by (apply Z.eqb_neq; lia).
    replace (Z.of_nat (length prev) + 1 + 1)%Z
      with (Z.of_nat (length (prev ++ [x])) + 1)%Z
      by (rewrite length_app; simpl; lia).
    rewrite (IH (prev ++ [x])%list).
    + simpl. by rewrite <- app_assoc.
    + by rewrite <- app_assoc.
    + done.
    + simpl in *. lia.
Qed.

(** X18.  Against a server that holds the files in pages and names the
    next page with each answer, [GetPullRequestFiles] returns all the
    files, in the order of the pages and of the files within each page,
    as soon as the fuel allows one request per page (one request when
    there is no page). *)
Theorem GetPullRequestFiles_all_pages {File : Type}
    (pages : list (list File)) (fuel : nat) :
  (Nat.max 1 (length pages) ≤ fuel)%nat →
  github.GetPullRequestFiles (github.servePages pages) fuel =
  Some (Some (concat pages)).
Proof.
  intros Hfuel. unfold github.GetPullRequestFiles.
  destruct fuel as [|fuel]; [lia|].
  destruct pages as [|x pages]; [reflexivity|].
  transitivity (github.listFrom (github.servePages (x :: pages)) (S fuel)
                  (Z.of_nat (length (@nil (list File))) + 1)%Z []).
  { reflexivity. }
  rewrite (listFrom_servePages (x :: pages) (x :: pages) []); try done.
  all: simpl in *; lia.
Qed.

Lemma GetPullRequestFiles_all_pages_witness :
  github.GetPullRequestFiles
    (github.servePages [["a.go"; "b.go"]; ["c.go"]; ["d.go"]]) 3 =
  Some (Some (concat [["a.go"; "b.go"]; ["c.go"]; ["d.go"]])).
Proof.
  apply (GetPullRequestFiles_all_pages [["a.go"; "b.go"]; ["c.go"]; ["d.go"]] 3).
  simpl. lia.
Defined.

(** X19.  The loop of [GetPullRequestFiles] has no bound of its own: it
    ends on an error or on an answer whose next page is [0], and against
    a server that gives neither it does not return, whatever the fuel. *)
Theorem GetPullRequestFiles_unbounded {File : Type}
    (ListFiles : Z → option (list File * Z)) :
  (∀ page, ∃ files nextPage,
     ListFiles page = Some (files, nextPage) ∧ nextPage ≠ 0%Z) →
  ∀ fuel, github.GetPullRequestFiles ListFiles fuel = None.
Proof.
  intros Hserver fuel. unfold github.GetPullRequestFiles.
  generalize 0%Z as page. generalize (@nil File) as acc.
  induction fuel as [|fuel IH]; intros acc page; [done|].
  cbn [github.listFrom].
  destruct (Hserver page) as (files & nextPage & -> & Hne).
  apply Z.eqb_neq in Hne. rewrite Hne. apply IH.
Qed.

Lemma GetPullRequestFiles_unbounded_witness :
  github.GetPullRequestFiles (fun _ : Z => Some (["a.go"], 2%Z)) 1000 = None.
Proof.
  apply (GetPullRequestFiles_unbounded (fun _ : Z => Some (["a.go"], 2%Z))).
  intros page. by exists ["a.go"], 2%Z.
Defined.

(** ** The counts of the summary *)

Lemma countAffected_fold (l : list AffectedPackage.t) (A0 : gset string) :
  fold_left
    (fun (st : gset string * nat) (pkg : AffectedPackage.t) =>
       let '(affectedSet, totalAffected) := st in
       if bool_decide (AffectedPackage.Name pkg ∈ affectedSet) then st
       else ({[AffectedPackage.Name pkg]} ∪ affectedSet, S totalAffected))
    l (A0, size A0) =
  (list_to_set (map AffectedPackage.Name l) ∪ A0,
   size (list_to_set (map AffectedPackage.Name l) ∪ A0)).
Proof.
  revert A0. induction l as [|pkg l IH]; intros S0.
  - simpl. by rewrite union_empty_l_L.
  - cbn [fold_left map list_to_set]. case_bool_decide as Hin.
    + rewrite IH.
      assert (list_to_set (map AffectedPackage.Name l) ∪ S0 =
              {[AffectedPackage.Name pkg]}
              ∪ list_to_set (map AffectedPackage.Name l) ∪ S0) as <-
        by set_solver.
      done.
    + assert (Datatypes.S (size S0) = size ({[AffectedPackage.Name pkg]} ∪ S0))
        as ->.
      { rewrite size_union by set_solver. by rewrite size_singleton. }
      rewrite IH.
      assert (list_to_set (map AffectedPackage.Name l)
              ∪ ({[AffectedPackage.Name pkg]} ∪ S0) =
              {[AffectedPackage.Name pkg]}
              ∪ list_to_set (map AffectedPackage.Name l) ∪ S0) as ->
        by set_solver.
      done.
Qed.


(** ** Determinism when no package fails *)

Lemma reachable_sameRoot fs t t' roots k :
  sameRoot t t' → reachable fs t roots k → reachable fs t' roots k.
Proof.
  intros HR. induction 1 as [k Hk|j k _ IH Hjk].
  - by apply reach_root.
  - apply (reach_step _ _ _ j); [done|].
    by rewrite <- (internalImports_sameRoot fs t t' j HR).
Qed.

Lemma reachable_trans fs t roots i k :
  reachable fs t roots i → reachable fs t [i] k → reachable fs t roots k.
Proof.
  intros Hi. induction 1 as [k [<-|[]]|j k _ IH Hjk]; [done|].
  by apply (reach_step _ _ _ j).
Qed.

Lemma reachable_mono fs t roots roots' k :
  (∀ x, In x roots → In x roots') →
  reachable fs t roots k → reachable fs t roots' k.
Proof.
  intros Hsub. induction 1 as [k Hk|j k _ IH Hjk].
  - apply reach_root. auto.
  - by apply (reach_step _ _ _ j).
Qed.

Lemma visitImport_reachInv fs rec t0 name pkgs st (p : ParsedPkg)
    (f : ParsedFile) l st' :
  recReach fs rec →
  (∀ t i r tb, rec t i = Some (r, tb) →
               extends t tb ∧ (wfTree t → wfTree tb)) →
  Packages t0 !! name = None →
  fs !! pkgDir t0 name = Some (Parsed pkgs) →
  In p pkgs → In f (snd p) → isTestFile f = false → In l (snd f) →
  reachInv fs t0 name st → visitImport rec name st l = Some st' →
  reachInv fs t0 name st'.
Proof.
  intros Hrec Hext Hnew Hdir Hp Hf Hnt Hl [Hw Hreach] Hstep.
  destruct st as [t3 S3]. cbn [fst snd] in *.
  apply visitImport_inv in Hstep as
      [[_ ->]|(Hpre & _ & r & tb & Hcall & ->)]; [done|].
  set (i := strings.Trim l dquote) in *.
  set (t4 := modifyPkg name (appendImport i) t3) in *.
  assert (Hw4 : atWork t0 name t4) by by apply atWork_modifyPkg.
  destruct (Hext _ _ _ _ Hcall) as [Hext4 Hwf4].
  assert (Hwb : atWork t0 name tb) by by eapply atWork_extends.
  assert (HR : sameRoot t0 t4) by apply Hw4.
  assert (Hi : reachable fs t0 [name] i).
  { apply (reach_step _ _ _ name); [apply reach_root; by left|].
    unfold internalImports. rewrite Hdir.
    apply (trackedImports_intro _ _ p f l); try done.
    destruct Hw as [[(_ & _ & ->) _] _]. exact Hpre. }
  split; cbn [fst snd].
  - by apply atWork_afterImport.
  - intros k Hk%afterImport_is_Some.
    destruct (Hrec _ _ _ _ Hcall k Hk) as [Hk4|Hk4].
    + apply Hreach. by apply lookup_modifyPkg_is_Some in Hk4.
    + right. eapply reachable_trans; [exact Hi|].
      eapply reachable_sameRoot; [|exact Hk4]. by apply sameRoot_sym.
Qed.

(** Every call of [Resolve], at every fuel, meets [recReach]: what it
    registers is reached from its path. *)
Lemma Resolve_recReach fs fuel : recReach fs (Resolve fs fuel).
Proof.
  induction fuel as [|fuel IH]; intros t name r t' Hrun; [done|].
  rewrite Resolve_S in Hrun.
  destruct (Packages t !! name) as [p|] eqn:Hnew.
  { injection Hrun as <- <-. by left. }
  cbv zeta in Hrun.
  change (mkPkg name [] [] [] (strings.HasPrefix name (RootPkgPath t)))
    with (emptyNode t name) in Hrun.
  set (t1 := setPackages t (<[name:=emptyNode t name]> (Packages t))) in Hrun.
  assert (H1 : reachInv fs t name (t1, ∅)).
  { split; [by apply atWork_register|]. cbn [fst].
    intros k [q Hq]. simpl in Hq. rewrite lookup_insert in Hq.
    case_decide as Hk; [|left; by exists q].
    right. apply reach_root. by left. }
  assert (Hdir1 : pkgDir t1 name = pkgDir t name) by reflexivity.
  rewrite Hdir1 in Hrun.
  destruct (fs !! pkgDir t name) as [[|pkgs]|] eqn:Hdir.
  - injection Hrun as <- <-. apply H1.
  - destruct pkgs as [|p0 pkgs0].
    { injection Hrun as <- <-. apply H1. }
    destruct (forRange _ _ _) as [[t2 S2]|] eqn:Hloop; [|discriminate].
    injection Hrun as <- <-.
    cut (reachInv fs t name (t2, S2)); [by intros [_ ?]|].
    eapply (loops_inv_in (reachInv fs t name)); [exact H1| | |exact Hloop].
    + intros t3 S3 p f _ _ _ [Hw Hr]. split; cbn [fst snd] in *.
      * by apply atWork_modifyPkg.
      * intros k Hk%lookup_modifyPkg_is_Some. by apply Hr.
    + intros st p f l st' Hp Hf Hnt Hl.
      eapply visitImport_reachInv; try done.
      intros t3 i r0 tb Hcall.
      by destruct (Resolve_extends _ _ _ _ _ _ Hcall) as (? & _ & ?).
  - injection Hrun as <- <-. apply H1.
Qed.

(** What the walk registers is reached from the packages of the walked
    directories. *)
Lemma walk_reach fs fuel root dirs t t' :
  forRange (walkDir fs fuel root) dirs t = Some t' →
  ∀ k, is_Some (Packages t' !! k) →
       is_Some (Packages t !! k) ∨ reachable fs t (walkRoots root dirs) k.
Proof.
  intros Hrun.
  cut (sameRoot t t' ∧
       ∀ k, is_Some (Packages t' !! k) →
            is_Some (Packages t !! k) ∨
            reachable fs t (walkRoots root dirs) k); [by intros [_ ?]|].
  apply (forRange_inv
           (fun t1 => sameRoot t t1 ∧
              ∀ k, is_Some (Packages t1 !! k) →
                   is_Some (Packages t !! k) ∨
                   reachable fs t (walkRoots root dirs) k)
           (walkDir fs fuel root) dirs t t'); [|clear Hrun|done].
  { split; [apply sameRoot_refl|auto]. }
  intros t1 d t2 Hd [HR H1]. unfold walkDir.
  destruct (String.eqb (filepath.ToSlash d) ".") eqn:E; [by intros [= <-]|].
  destruct (Resolve fs fuel t1 _) as [[r t3]|] eqn:Hres; [|discriminate].
  intros [= <-].
  destruct (Resolve_extends _ _ _ _ _ _ Hres) as ([HR3 _] & _).
  split; [by eapply sameRoot_trans|].
  intros k Hk. destruct (Resolve_recReach _ _ _ _ _ _ Hres k Hk) as [Hk1|Hk1].
  - by apply H1.
  - right. apply (reachable_sameRoot fs t1 t); [by apply sameRoot_sym|].
    eapply reachable_mono; [|exact Hk1].
    intros x [<-|[]]. unfold walkRoots.
    apply (in_map (fun d => root ++ "/" ++ filepath.ToSlash d)).
    apply filter_In. split; [done|]. by rewrite E.
Qed.

Lemma builtTree_empty fs t : Packages t = ∅ → builtTree fs t.
Proof.
  intros He. split; [|split; [|split]].
  - intros k p Hk. by rewrite He, lookup_empty in Hk.
  - intros k p Hk. by rewrite He, lookup_empty in Hk.
  - intros k p Hk. by rewrite He, lookup_empty in Hk.
  - intros k [p Hk]. by rewrite He, lookup_empty in Hk.
Qed.

(** After a walk that starts from an empty tree, the registered packages
    are those reached from the packages of the walked directories. *)
Lemma walk_dom fs fuel root dirs t t' :
  Packages t = ∅ →
  forRange (walkDir fs fuel root) dirs t = Some t' →
  ∀ k, is_Some (Packages t' !! k) ↔ reachable fs t (walkRoots root dirs) k.
Proof.
  intros He Hrun k. split.
  - intros Hk. destruct (walk_reach _ _ _ _ _ _ Hrun k Hk) as [[p Hp]|]; [|done].
    by rewrite He, lookup_empty in Hp.
  - destruct (walk_builtTree fs fuel root dirs t t') as [Hb [HR _]];
      [by apply builtTree_empty|done|].
    induction 1 as [k Hk|j k _ IH Hjk].
    + unfold walkRoots in Hk.
      apply in_map_iff in Hk as (d & <- & [Hd Hne]%filter_In).
      apply negb_true_iff in Hne.
      by eapply walk_registers_dirs.
    + rewrite (internalImports_sameRoot fs t t' j HR) in Hjk.
      destruct Hb as (_ & _ & _ & Hc). by destruct (Hc j IH k Hjk).
Qed.

Lemma sameDirectoryTree_sym fs1 fs2 :
  sameDirectoryTree fs1 fs2 → sameDirectoryTree fs2 fs1.
Proof.
  intros H dir. specialize (H dir).
  destruct (fs1 !! dir) as [[|pkgs1]|], (fs2 !! dir) as [[|pkgs2]|];
    try done.
  simpl in *. apply Forall2_flip. eapply Forall2_impl; [exact H|].
  intros p1 p2 [? ?]. by split.
Qed.

Lemma sameDirectoryTree_internalImports fs1 fs2 t k i :
  sameDirectoryTree fs1 fs2 →
  In i (internalImports fs1 t k) → In i (internalImports fs2 t k).
Proof.
  intros H. specialize (H (pkgDir t k)). unfold internalImports.
  destruct (fs1 !! pkgDir t k) as [[|pkgs1]|], (fs2 !! pkgDir t k) as [[|pkgs2]|];
    try done.
  simpl in H.
  intros (Hpre & p & f & l & Hp & Hf & Hnt & Hl & <-)%trackedImports_inv.
  apply list_elem_of_In, list_elem_of_lookup in Hp as [n Hn].
  destruct (Forall2_lookup_l _ _ _ _ _ H Hn) as (p2 & Hp2 & _ & Hperm).
  apply (trackedImports_intro _ _ p2 f l); try done.
  - apply list_elem_of_In. by eapply list_elem_of_lookup_2.
  - apply list_elem_of_In. rewrite <- Hperm. by apply list_elem_of_In.
Qed.

Lemma sameDirectoryTree_reachable fs1 fs2 t roots k :
  sameDirectoryTree fs1 fs2 →
  reachable fs1 t roots k → reachable fs2 t roots k.
Proof.
  intros H. induction 1 as [k Hk|j k _ IH Hjk].
  - by apply reach_root.
  - apply (reach_step _ _ _ j); [done|].
    by eapply sameDirectoryTree_internalImports.
Qed.

Lemma sameDirectoryTree_noFailure fs1 fs2 :
  sameDirectoryTree fs1 fs2 → noFailure fs1 → noFailure fs2.
Proof.
  intros H Hn dir. specialize (H dir). destruct (Hn dir) as [H1 H2].
  destruct (fs1 !! dir) as [[|pkgs1]|], (fs2 !! dir) as [[|pkgs2]|];
    try done.
  split; [done|]. intros [= ->]. simpl in H.
  apply Forall2_nil_inv_r in H. by subst.
Qed.

(** Where no directory fails, the edges of a node of a built tree are
    the internal imports of its directory. *)
Lemma builtTree_edges fs t k p i :
  builtTree fs t → noFailure fs → Packages t !! k = Some p →
  In i (Dependencies p) ↔ In i (internalImports fs t k).
Proof.
  intros (Hwf & Hsh & Hso & Hc) Hn Hk. split.
  - intros Hi. apply (Hso k p Hk).
    destruct (Hsh k p Hk) as (_ & _ & _ & Hsub & _).
    apply list_elem_of_In. eapply sublist_subseteq; [exact Hsub|].
    by apply list_elem_of_In.
  - intros Hi. destruct (Hc k (ex_intro _ p Hk) i Hi) as [_ He].
    destruct (He (Hn _)) as (p' & Hk' & Hd). congruence.
Qed.

(** Two runs of the walk, from an empty tree, over two readings of one
    directory tree in which nothing fails, leave the same graph. *)
Lemma walk_sameGraph fs1 fs2 fuel1 fuel2 root dirs t t1 t2 :
  sameDirectoryTree fs1 fs2 → noFailure fs1 → Packages t = ∅ →
  forRange (walkDir fs1 fuel1 root) dirs t = Some t1 →
  forRange (walkDir fs2 fuel2 root) dirs t = Some t2 →
  sameGraph t1 t2.
Proof.
  intros Hs Hn He H1 H2.
  assert (Hn2 := sameDirectoryTree_noFailure _ _ Hs Hn).
  assert (Hs' := sameDirectoryTree_sym _ _ Hs).
  destruct (walk_builtTree fs1 fuel1 root dirs t t1) as [Hb1 [HR1 _]];
    [by apply builtTree_empty|done|].
  destruct (walk_builtTree fs2 fuel2 root dirs t t2) as [Hb2 [HR2 _]];
    [by apply builtTree_empty|done|].
  assert (Hdom : ∀ k, is_Some (Packages t1 !! k) ↔ is_Some (Packages t2 !! k)).
  { intros k. rewrite (walk_dom _ _ _ _ _ _ He H1 k).
    rewrite (walk_dom _ _ _ _ _ _ He H2 k).
    split; by apply sameDirectoryTree_reachable. }
  intros k. specialize (Hdom k).
  destruct (Packages t1 !! k) as [p1|] eqn:Hk1,
           (Packages t2 !! k) as [p2|] eqn:Hk2.
  - intros i. rewrite (builtTree_edges fs1 t1 k p1 i Hb1 Hn Hk1).
    rewrite (builtTree_edges fs2 t2 k p2 i Hb2 Hn2 Hk2).
    rewrite <- (internalImports_sameRoot fs1 t t1 k HR1).
    rewrite <- (internalImports_sameRoot fs2 t t2 k HR2).
    split; by apply sameDirectoryTree_internalImports.
  - destruct Hdom as [Hd _]. by destruct (Hd (ex_intro _ p1 eq_refl)).
  - destruct Hdom as [_ Hd]. by destruct (Hd (ex_intro _ p2 eq_refl)).
  - done.
Qed.

Lemma sameGraph_sym t1 t2 : sameGraph t1 t2 → sameGraph t2 t1.
Proof.
  intros H k. specialize (H k).
  destruct (Packages t1 !! k), (Packages t2 !! k); try done.
  all: intros i; by rewrite H.
Qed.

(** The names of the dependents of [k] that pass the filters. *)
Lemma In_survivor_names Match c t k x :
  wfTree t →
  In x (map Name (survivors Match c t k)) ↔
  ∃ p, Packages t !! x = Some p ∧ In k (Dependencies p) ∧ x ≠ k ∧
       qualifies Match c p = true.
Proof.
  intros Hwf. rewrite in_map_iff. unfold survivors. split.
  - intros (p & <- & [Hp Hq]%filter_In).
    apply In_FindReverseDependencies in Hp as ([k' Hk'] & Hd & Hne).
    exists p. rewrite (Hwf k' p Hk'). by rewrite (Hwf k' p Hk') in Hne.
  - intros (p & Hp & Hd & Hne & Hq). exists p.
    rewrite (Hwf x p Hp). split; [done|]. apply filter_In. split; [|done].
    apply In_FindReverseDependencies. split; [by exists x|].
    by rewrite (Hwf x p Hp).
Qed.

Lemma survivors_sameGraph Match c t1 t2 k x :
  wfTree t1 → wfTree t2 → sameGraph t1 t2 →
  In x (map Name (survivors Match c t1 k)) →
  In x (map Name (survivors Match c t2 k)).
Proof.
  intros Hwf1 Hwf2 Hg. rewrite !In_survivor_names by done.
  intros (p1 & Hp1 & Hd & Hne & Hq). specialize (Hg x). rewrite Hp1 in Hg.
  destruct (Packages t2 !! x) as [p2|] eqn:Hp2; [|done].
  exists p2. split; [done|]. split; [by apply Hg|]. split; [done|].
  unfold qualifies in *. by rewrite (Hwf2 x p2 Hp2), <- (Hwf1 x p1 Hp1).
Qed.

(** The impact of a changed package depends on the tree through its
    graph only. *)
Lemma impactOf_sameGraph Match c t1 t2 k :
  wfTree t1 → wfTree t2 → sameGraph t1 t2 →
  impactOf Match c t1 k = impactOf Match c t2 k.
Proof.
  intros Hwf1 Hwf2 Hg. unfold impactOf. f_equal.
  set (g := fun n => {| AffectedPackage.Name := n;
                        AffectedPackage.IsCritical :=
                          config.IsCriticalPackage Match c n |}).
  assert (Hmap : ∀ l, map (affectedOf Match c) l = map g (map Name l)).
  { intros l. by rewrite map_map. }
  assert (Hnd : ∀ t, wfTree t → NoDup (map Name (survivors Match c t k))).
  { intros t Hwf. apply NoDup_map_filter.
    by apply NoDup_names_FindReverseDependencies. }
  apply sort_Slice_order_free.
  - rewrite !Hmap. apply Permutation_map.
    apply NoDup_Permutation; [by apply Hnd|by apply Hnd|].
    intros x. rewrite !list_elem_of_In. split.
    + by apply survivors_sameGraph.
    + apply survivors_sameGraph; [done|done|by apply sameGraph_sym].
  - rewrite map_map. simpl. by apply Hnd.
Qed.

(** The result of an analysis, with the walk and the changed packages
    spelt out. *)
Lemma AnalyzeChangedPackages_closed Match fs walk fuel a changedFiles r t' :
  AnalyzeChangedPackages Match fs walk fuel a changedFiles = Some (inr (r, t')) →
  ∃ t dirs (directDeps : gset string),
    tree a = Some t ∧ walk = Some dirs ∧
    forRange (walkDir fs fuel (rootPkgPath a)) dirs t = Some t' ∧
    let changed :=
      sort_Strings
        (elements (fold_left (visitChangedFile (rootPkgPath a))
                             changedFiles ∅)) in
    (∀ x, x ∈ directDeps ↔
          ∃ k p, In k changed ∧ Packages t' !! k = Some p ∧
                 In x (Dependencies p)) ∧
    r = {| Impacts := map (impactOf Match (cfg a) t') changed;
           DirectDependencies := sort_Strings (elements directDeps);
           IndirectDependencies :=
             sort_Strings
               (List.filter (fun pkg => negb (bool_decide (pkg ∈ directDeps)))
                  (elements
                     (list_to_set
                        (flat_map
                           (fun k => map Name (survivors Match (cfg a) t' k))
                           changed) ∪ (∅ : gset string)))) |}.
Proof.
  unfold AnalyzeChangedPackages.
  destruct (tree a) as [t|]; [|discriminate].
  destruct walk as [dirs|]; [|discriminate].
  destruct (forRange _ dirs t) as [t1|] eqn:Hwalk; [|discriminate].
  rewrite visitChangedPkg_fold. intros [= <- <-].
  eexists t, dirs, _. split; [done|]. split; [done|]. split; [done|].
  cbv zeta. split; [|reflexivity].
  intros x. rewrite visitDirect_fold. split; [|auto].
  intros [H|H]; [set_solver|done].
Qed.

(** The result of an analysis depends on the tree that the walk leaves
    through its graph only. *)
Lemma result_sameGraph Match c (t1 t2 : Tree) (changed : list string)
    (dd1 dd2 : gset string) :
  wfTree t1 → wfTree t2 → sameGraph t1 t2 →
  (∀ x, x ∈ dd1 ↔
        ∃ k p, In k changed ∧ Packages t1 !! k = Some p ∧
               In x (Dependencies p)) →
  (∀ x, x ∈ dd2 ↔
        ∃ k p, In k changed ∧ Packages t2 !! k = Some p ∧
               In x (Dependencies p)) →
  dd1 = dd2 ∧
  map (impactOf Match c t1) changed = map (impactOf Match c t2) changed ∧
  (list_to_set (flat_map (fun k => map Name (survivors Match c t1 k)) changed)
     : gset string) =
  list_to_set (flat_map (fun k => map Name (survivors Match c t2 k)) changed).
Proof.
  intros Hwf1 Hwf2 Hg H1 H2.
  assert (Hg' := sameGraph_sym _ _ Hg).
  assert (Hdd : ∀ ta tb, sameGraph ta tb → ∀ x,
            (∃ k p, In k changed ∧ Packages ta !! k = Some p ∧
                    In x (Dependencies p)) →
            ∃ k p, In k changed ∧ Packages tb !! k = Some p ∧
                   In x (Dependencies p)).
  { intros ta tb Hab x (k & p & Hk & Hp & Hx). specialize (Hab k).
    rewrite Hp in Hab. destruct (Packages tb !! k) as [q|] eqn:Hq; [|done].
    exists k, q. split; [done|]. split; [done|]. by apply Hab. }
  split; [|split].
  - apply set_eq. intros x. rewrite H1, H2. split; by apply Hdd.
  - apply map_ext. intros k. by apply impactOf_sameGraph.
  - apply set_eq. intros x. rewrite !elem_of_list_to_set, !list_elem_of_In.
    rewrite !in_flat_map. split; intros (k & Hk & Hx); exists k;
      (split; [done|]).
    + exact (survivors_sameGraph Match c t1 t2 k x Hwf1 Hwf2 Hg Hx).
    + exact (survivors_sameGraph Match c t2 t1 k x Hwf2 Hwf1 Hg' Hx).
Qed.

(** X21.  Where nothing fails, the analysis is deterministic.  Take two
    readings of one directory tree, which differ at most in the order in
    which the parser hands over the files of a package, and in which
    every directory that exists parses and holds a Go file.  Two runs of
    [AnalyzeChangedPackages], on an analyzer whose tree is empty as
    [SetRootPackage] leaves it, with the same walk and the same changed
    files, return the same result.  The order of the files shows in a
    result only through a directory that fails. *)
Theorem AnalyzeChangedPackages_deterministic
    Match fs1 fs2 dirs fuel1 fuel2 a t changedFiles r1 t1 r2 t2 :
  sameDirectoryTree fs1 fs2 → noFailure fs1 →
  tree a = Some t → Packages t = ∅ →
  AnalyzeChangedPackages Match fs1 (Some dirs) fuel1 a changedFiles
    = Some (inr (r1, t1)) →
  AnalyzeChangedPackages Match fs2 (Some dirs) fuel2 a changedFiles
    = Some (inr (r2, t2)) →
  r1 = r2 ∧ AnalysisResult_String r1 = AnalysisResult_String r2 ∧
  sameGraph t1 t2.
Proof.
  intros Hs Hn Ht He Hrun1 Hrun2.
  apply AnalyzeChangedPackages_closed in Hrun1
    as (ta & dirs1 & dd1 & Hta & [= <-] & Hw1 & Hdd1 & ->).
  apply AnalyzeChangedPackages_closed in Hrun2
    as (tb & dirs2 & dd2 & Htb & [= <-] & Hw2 & Hdd2 & ->).
  rewrite Ht in Hta, Htb. injection Hta as <-. injection Htb as <-.
  cbv zeta in Hdd1, Hdd2.
  assert (Hg : sameGraph t1 t2).
  { exact (walk_sameGraph fs1 fs2 fuel1 fuel2 (rootPkgPath a) dirs t t1 t2
             Hs Hn He Hw1 Hw2). }
  destruct (walk_builtTree fs1 fuel1 (rootPkgPath a) dirs t t1)
    as [(Hwf1 & _) _]; [by apply builtTree_empty|done|].
  destruct (walk_builtTree fs2 fuel2 (rootPkgPath a) dirs t t2)
    as [(Hwf2 & _) _]; [by apply builtTree_empty|done|].
  destruct (result_sameGraph Match (cfg a) t1 t2 _ dd1 dd2
              Hwf1 Hwf2 Hg Hdd1 Hdd2) as (-> & -> & ->).
  done.
Qed.

Lemma fsWhole_same : sameDirectoryTree fsWhole1 fsWhole2.
Proof.
  intros dir. unfold fsWhole1, fsWhole2.
  rewrite !lookup_insert. repeat case_decide; simpl.
  - constructor; [|constructor]. split; [done|]. apply perm_swap.
  - constructor; [|constructor]. split; [done|]. apply Permutation_refl.
  - rewrite !lookup_singleton. case_decide; simpl; [|done].
    constructor; [|constructor]. split; [done|]. apply Permutation_refl.
Qed.

Lemma fsWhole_noFailure : noFailure fsWhole1.
Proof.
  intros dir. unfold fsWhole1.
  rewrite !lookup_insert. repeat case_decide; [done..|].
  rewrite lookup_singleton. by case_decide.
Qed.

Lemma wholeRun_eq fs :
  fs = fsWhole1 ∨ fs = fsWhole2 →
  orderRun matchDoubleStar fs 5
  = Some (inr (fst (resultOf (orderRun matchDoubleStar fs 5)),
               snd (resultOf (orderRun matchDoubleStar fs 5)))).
Proof. intros [->| ->]; vm_compute; reflexivity. Qed.

(** The two readings of the tree of [p], [q] and [z] give one result:
    [m/p] and [m/q] are both affected by the change of [z/z.go]. *)
Lemma AnalyzeChangedPackages_deterministic_witness :
  fst (resultOf (orderRun matchDoubleStar fsWhole1 5))
  = fst (resultOf (orderRun matchDoubleStar fsWhole2 5)) ∧
  AnalysisResult_String (fst (resultOf (orderRun matchDoubleStar fsWhole1 5)))
  = AnalysisResult_String
      (fst (resultOf (orderRun matchDoubleStar fsWhole2 5))) ∧
  sameGraph (snd (resultOf (orderRun matchDoubleStar fsWhole1 5)))
            (snd (resultOf (orderRun matchDoubleStar fsWhole2 5))).
Proof.
  exact (AnalyzeChangedPackages_deterministic matchDoubleStar
           fsWhole1 fsWhole2 ["p"; "q"; "z"] 5 5 (analyzerM cfgNoPatterns)
           treeM ["z/z.go"]
           (fst (resultOf (orderRun matchDoubleStar fsWhole1 5)))
           (snd (resultOf (orderRun matchDoubleStar fsWhole1 5)))
           (fst (resultOf (orderRun matchDoubleStar fsWhole2 5)))
           (snd (resultOf (orderRun matchDoubleStar fsWhole2 5)))
           fsWhole_same fsWhole_noFailure eq_refl eq_refl
           (wholeRun_eq fsWhole1 (or_introl eq_refl))
           (wholeRun_eq fsWhole2 (or_intror eq_refl))).
Defined.

Example wholeRun_result :
  Impacts (fst (resultOf (orderRun matchDoubleStar fsWhole1 5)))
  = [ {| ChangedPackage := "m/z";
         AffectedPackages :=
           [ {| AffectedPackage.Name := "m/p";
                AffectedPackage.IsCritical := false |};
             {| AffectedPackage.Name := "m/q";
                AffectedPackage.IsCritical := false |} ] |} ].
Proof. vm_compute. reflexivity. Qed.

(** ** The graph as a closure *)


Lemma Resolve_error_inv fs fuel t name e t' :
  Resolve fs fuel t name = Some (Some e, t') →
  fs !! pkgDir t name = Some ParseFailed ∨
  fs !! pkgDir t name = Some (Parsed []).
Proof.
  destruct fuel as [|fuel]; [done|]. rewrite Resolve_S.
  destruct (Packages t !! name) as [p|] eqn:Hnew; [done|]. cbv zeta.
  rewrite pkgDir_setPackages.
  destruct (fs !! pkgDir t name) as [[|pkgs]|]; [auto| |done].
  destruct pkgs as [|p0 pkgs0]; [auto|].
  destruct (forRange _ _ _) as [[t2 S2]|]; discriminate.
Qed.


Lemma chainTreeA_run :
  Resolve fsChain 4 treeM "m/a"
  = Some (None, treeAfter (Resolve fsChain 4 treeM "m/a")).
Proof. vm_compute. reflexivity. Qed.


Lemma fsWhole_run :
  Resolve fsWhole1 4 treeM "m/p"
  = Some (None, treeAfter (Resolve fsWhole1 4 treeM "m/p")).
Proof. vm_compute. reflexivity. Qed.




(** ** The report lists what the result holds *)

Lemma append_assoc (a b c : string) : (a ++ b) ++ c = a ++ (b ++ c).
Proof.
  induction a as [|x a IH]; [reflexivity|].
  by rewrite !append_cons, IH.
Qed.

(** [strings.Contains] finds every string that occurs. *)
Lemma Contains_occurs s substr a b :
  s = a ++ substr ++ b → gostrings.Contains s substr = true.
Proof.
  revert s. induction a as [|x a IH]; intros s ->.
  - apply Contains_prefix, prefix_iff_app. by exists b.
  - rewrite append_cons. cbn [gostrings.Contains].
    destruct (String.prefix substr _); [done|]. by apply IH.
Qed.

Lemma concat_cons (x : string) (l : list string) :
  String.concat "" (x :: l) = x ++ String.concat "" l.
Proof.
  destruct l as [|y l]; [|reflexivity].
  cbn [String.concat]. symmetry. apply append_nil_r.
Qed.

Lemma concat_occurs {A} (f : A → string) (l : list A) (x : A) :
  In x l → ∃ a b, String.concat "" (map f l) = a ++ f x ++ b.
Proof.
  induction l as [|y l IH]; [done|]. intros [->|Hx].
  - exists "", (String.concat "" (map f l)).
    cbn [map]. rewrite concat_cons. reflexivity.
  - destruct (IH Hx) as (a & b & Heq). exists (f y ++ a), b.
    cbn [map]. rewrite concat_cons, Heq. symmetry. apply append_assoc.
Qed.

Lemma occurs_app_l (P s R : string) :
  (∃ a b, s = a ++ R ++ b) → ∃ a b, P ++ s = a ++ R ++ b.
Proof.
  intros (a & b & ->). exists (P ++ a), b. symmetry. apply append_assoc.
Qed.

Lemma occurs_app_r (s T R : string) :
  (∃ a b, s = a ++ R ++ b) → ∃ a b, s ++ T = a ++ R ++ b.
Proof.
  intros (a & b & ->). exists a, (b ++ T).
  rewrite (append_assoc a (R ++ b) T). f_equal. apply append_assoc.
Qed.

Lemma occurs_head (R T : string) : ∃ a b, R ++ T = a ++ R ++ b.
Proof. by exists "", T. Qed.

Lemma renderImpact_heading impact :
  ∃ a b, renderImpact impact =
         a ++ ("#### Changed Package: `" ++ ChangedPackage impact ++ "`") ++ b.
Proof.
  unfold renderImpact.
  exists "", (newline ++ newline
    ++ (if (0 <? length (AffectedPackages impact))%nat
      then "<details><summary>Affected Packages ("
           ++ fmt_d (length (AffectedPackages impact)) ++ ")</summary>"
           ++ newline ++ newline
           ++ String.concat "" (map renderAffected (AffectedPackages impact))
           ++ newline ++ "</details>" ++ newline ++ newline
      else "This change does not affect any other packages." ++ newline
           ++ newline)).
  change ("" ++ ?x) with x.
  rewrite (append_assoc "#### Changed Package: `").
  f_equal. symmetry. apply append_assoc.
Qed.

Lemma renderImpact_line impact pkg :
  In pkg (AffectedPackages impact) →
  ∃ a b, renderImpact impact = a ++ renderAffected pkg ++ b.
Proof.
  intros Hpkg. unfold renderImpact.
  destruct (concat_occurs renderAffected (AffectedPackages impact) pkg Hpkg)
    as (a' & b' & Heq).
  destruct (AffectedPackages impact) as [|p0 ps]; [done|].
  change (0 <? length (p0 :: ps))%nat with true. cbv iota.
  do 10 apply occurs_app_l. apply occurs_app_r.
  by exists a', b'.
Qed.

(** X25.  The report lists what the result holds.  For every impact of
    a result the report has the heading of its changed package, and for
    every affected package of the impact it has the line of that
    package: its name between backquotes after a dash, and for an entry
    flagged critical the siren, the name in bold and the word Critical.
    No entry of the result is left out of the comment. *)
Theorem AnalysisResult_String_lists (r : AnalysisResult)
    (impact : PackageImpact) :
  In impact (Impacts r) →
  gostrings.Contains (AnalysisResult_String r)
    ("#### Changed Package: `" ++ ChangedPackage impact ++ "`") = true ∧
  ∀ pkg, In pkg (AffectedPackages impact) →
    gostrings.Contains (AnalysisResult_String r)
      (if AffectedPackage.IsCritical pkg
       then "- " ++ siren ++ " **`" ++ AffectedPackage.Name pkg
            ++ "`** (Critical)" ++ newline
       else "- `" ++ AffectedPackage.Name pkg ++ "`" ++ newline) = true.
Proof.
  intros Hin.
  assert (Hocc : ∀ R, (∃ a b, renderImpact impact = a ++ R ++ b) →
            ∃ a b, AnalysisResult_String r = a ++ R ++ b).
  { intros R (a1 & b1 & Hr).
    destruct (concat_occurs renderImpact (Impacts r) impact Hin)
      as (a & b & Hcat).
    unfold AnalysisResult_String. cbv zeta.
    destruct (Impacts r) as [|i0 l]; [done|].
    change (length (i0 :: l) =? 0)%nat with false. cbv iota.
    rewrite Hcat, Hr.
    do 4 apply occurs_app_l. apply occurs_app_r.
    apply occurs_app_l. apply occurs_app_r. by exists a1, b1. }
  split.
  - destruct (Hocc _ (renderImpact_heading impact)) as (a & b & Heq).
    by eapply Contains_occurs.
  - intros pkg Hpkg.
    destruct (Hocc _ (renderImpact_line impact pkg Hpkg)) as (a & b & Heq).
    exact (Contains_occurs _ (renderAffected pkg) a b Heq).
Qed.

Lemma AnalysisResult_String_lists_witness :
  gostrings.Contains (AnalysisResult_String (fst (resultOf testRun)))
    ("#### Changed Package: `" ++ "github.com/a/b/d" ++ "`") = true ∧
  ∀ pkg, In pkg [ {| AffectedPackage.Name := "github.com/a/b/c";
                     AffectedPackage.IsCritical := true |} ] →
    gostrings.Contains (AnalysisResult_String (fst (resultOf testRun)))
      (if AffectedPackage.IsCritical pkg
       then "- " ++ siren ++ " **`" ++ AffectedPackage.Name pkg
            ++ "`** (Critical)" ++ newline
       else "- `" ++ AffectedPackage.Name pkg ++ "`" ++ newline) = true.
Proof.
  apply (AnalysisResult_String_lists (fst (resultOf testRun))
           {| ChangedPackage := "github.com/a/b/d";
              AffectedPackages :=
                [ {| AffectedPackage.Name := "github.com/a/b/c";
                     AffectedPackage.IsCritical := true |} ] |}).
  vm_compute. left. reflexivity.
Defined.

(** ** The summary of the report *)

Lemma suffix_app_l (P s T : string) :
  (∃ body, s = body ++ T) → ∃ body, P ++ s = body ++ T.
Proof.
  intros (body & ->). exists (P ++ body). symmetry. apply append_assoc.
Qed.

Lemma countAffected_size impacts :
  countAffected impacts =
  size (list_to_set (affectedNames impacts) : gset string).
Proof.
  unfold countAffected, affectedNames.
  change (∅ : gset string, 0%nat) with (∅ : gset string, size (∅ : gset string)).
  rewrite countAffected_fold. simpl. by rewrite union_empty_r_L.
Qed.

(** X20.  The summary that the report prints.  A report of a result
    with at least one impact ends with the summary: the number of
    impacts, the number of distinct names among the affected packages of
    all impacts (a package affected by several changed packages is
    counted once), and the lengths of the two dependency lists.  The
    loop that counts gives that number of distinct names, and in a result
    of the analysis the count of indirectly affected packages is never
    above it. *)
Theorem countAffected_distinct :
  (∀ r, Impacts r ≠ [] →
     ∃ body,
       AnalysisResult_String r =
       body ++ "### Analysis Summary:" ++ newline ++ newline
       ++ "- **Changed packages**: " ++ pretty (length (Impacts r)) ++ newline
       ++ "- **Affected packages**: "
       ++ pretty (size (list_to_set (affectedNames (Impacts r)) : gset string))
       ++ newline
       ++ "- **Direct dependencies of changed packages**: "
       ++ pretty (length (DirectDependencies r)) ++ newline
       ++ "- **Indirectly affected packages**: "
       ++ pretty (length (IndirectDependencies r)) ++ newline) ∧
  (∀ impacts,
     countAffected impacts =
     size (list_to_set (affectedNames impacts) : gset string)) ∧
  (∀ Match fs walk fuel a changedFiles r t',
     AnalyzeChangedPackages Match fs walk fuel a changedFiles
       = Some (inr (r, t')) →
     (length (IndirectDependencies r) ≤ countAffected (Impacts r))%nat).
Proof.
  split; [|split; [exact countAffected_size|]].
  - intros r Hne. unfold AnalysisResult_String. cbv zeta.
    rewrite (countAffected_size (Impacts r)). unfold fmt_d.
    destruct (Impacts r) as [|i0 l]; [done|].
    change (length (i0 :: l) =? 0)%nat with false. cbv iota.
    do 4 apply suffix_app_l.
    by exists (String.concat "" (map renderImpact (i0 :: l))).
  - intros Match fs walk fuel a changedFiles r t' Hrun.
    rewrite countAffected_size.
    apply AnalyzeChangedPackages_inv in Hrun as (changed & dd & _ & Hi & _ & ->).
    unfold sort_Strings.
    rewrite (Permutation_length (merge_sort_Permutation String.le _)).
    etrans; [apply filter_length_le|]. rewrite union_empty_r_L.
    change (length (elements ?X)) with (size X).
    apply Nat.eq_le_incl. f_equal. apply set_eq. intros x.
    rewrite !elem_of_list_to_set, !list_elem_of_In. unfold affectedNames.
    rewrite in_flat_map, in_map_iff, Hi. split.
    + intros (k & Hk & (dep & <- & Hdep)%in_map_iff).
      exists (affectedOf Match (cfg a) dep). split; [done|].
      apply in_concat. exists (AffectedPackages (impactOf Match (cfg a) t' k)).
      split; [by do 2 apply in_map|].
      simpl. apply In_sort_Slice. by apply in_map.
    + intros (ap & <- & (aps & Haps & Hap)%in_concat).
      apply in_map_iff in Haps as (impact & <- & Himp).
      apply in_map_iff in Himp as (k & <- & Hk).
      exists k. split; [done|]. simpl in Hap.
      apply In_sort_Slice, in_map_iff in Hap as (dep & <- & Hdep).
      simpl. by apply in_map.
Qed.

Lemma sharedRun_eq :
  sharedRun = Some (inr (fst (resultOf sharedRun), snd (resultOf sharedRun))).
Proof. vm_compute. reflexivity. Qed.

(** In [sharedRun] the impacts hold three entries and two names. *)
Example sharedRun_counts :
  map AffectedPackage.Name
      (concat (map AffectedPackages (Impacts (fst (resultOf sharedRun)))))
  = ["m/p"; "m/p"; "m/q"] ∧
  countAffected (Impacts (fst (resultOf sharedRun))) = 2%nat.
Proof. split; vm_compute; reflexivity. Qed.

Lemma countAffected_distinct_witness :
  (∃ body,
     AnalysisResult_String (fst (resultOf sharedRun)) =
     body ++ "### Analysis Summary:" ++ newline ++ newline
     ++ "- **Changed packages**: "
     ++ pretty (length (Impacts (fst (resultOf sharedRun)))) ++ newline
     ++ "- **Affected packages**: "
     ++ pretty (size (list_to_set
                        (affectedNames (Impacts (fst (resultOf sharedRun))))
                      : gset string))
     ++ newline
     ++ "- **Direct dependencies of changed packages**: "
     ++ pretty (length (DirectDependencies (fst (resultOf sharedRun))))
     ++ newline
     ++ "- **Indirectly affected packages**: "
     ++ pretty (length (IndirectDependencies (fst (resultOf sharedRun))))
     ++ newline) ∧
  (length (IndirectDependencies (fst (resultOf sharedRun)))
   ≤ countAffected (Impacts (fst (resultOf sharedRun))))%nat.
Proof.
  split.
  - apply (proj1 countAffected_distinct (fst (resultOf sharedRun))).
    vm_compute. discriminate.
  - apply (proj2 (proj2 countAffected_distinct) matchDoubleStar fsWhole1
             (Some ["p"; "q"; "z"]) 5 (analyzerM cfgNoPatterns)
             ["z/z.go"; "q/q.go"]
             (fst (resultOf sharedRun)) (snd (resultOf sharedRun))).
    exact sharedRun_eq.
Defined.

(** ** The prefix test and the imports of a node *)

Lemma visitImport_importsInv fs fuel t0 name st l st' :
  importsInv t0 name st →
  visitImport (Resolve fs fuel) name st l = Some st' →
  importsInv t0 name st' ∧ seen (RootPkgPath t0) l st'.
Proof.
  destruct st as [t3 S3]. intros (HR & p3 & Hp3 & Himp) Hstep.
  cbn [fst snd] in *.
  assert (Hroot : RootPkgPath t0 = RootPkgPath t3) by apply HR.
  apply visitImport_inv in Hstep as
      [[Hskip ->]|(Hpre & Hfresh & r & tb & Hcall & ->)].
  { split; [split; [done|by exists p3]|]. unfold seen. simpl. rewrite Hroot.
    destruct Hskip as [->|?]; [done|auto]. }
  set (i := strings.Trim l dquote) in *.
  set (t4 := modifyPkg name (appendImport i) t3) in *.
  destruct (Resolve_extends _ _ _ _ _ _ Hcall) as ([HR4 Hext] & _ & _).
  assert (Hp4 : Packages t4 !! name = Some (appendImport i p3)).
  { unfold t4. rewrite lookup_modifyPkg, Hp3. by case_decide. }
  assert (Hpb := Hext _ _ Hp4).
  split; [|unfold seen; simpl; set_solver].
  split; cbn [fst snd].
  - eapply sameRoot_trans; [exact HR|].
    eapply sameRoot_trans; [apply sameRoot_setPackages|].
    eapply sameRoot_trans; [exact HR4|]. apply afterImport_grows.
  - assert (Hin : ∀ j, j ∈ ({[i]} ∪ S3 : gset string) →
                       In j (Imports (appendImport i p3))).
    { intros j [Hj|Hj]%elem_of_union; simpl; apply in_or_app.
      - apply elem_of_singleton in Hj as ->. right. by left.
      - left. by apply Himp. }
    unfold afterImport. destruct r as [e|]; [by eexists|].
    destruct (Packages tb !! i) as [dep|]; [|by eexists].
    exists (appendDependency (Name dep) (appendImport i p3)). split; [|done].
    rewrite lookup_modifyPkg, Hpb. by case_decide.
Qed.

(** The node of a package that [Resolve] has resolved holds every import
    path that its loops met. *)
Lemma Resolve_imports_full fs fuel t name r t' pkgs :
  Packages t !! name = None → fs !! pkgDir t name = Some (Parsed pkgs) →
  Resolve fs fuel t name = Some (r, t') →
  ∃ p, Packages t' !! name = Some p ∧
       ∀ i, In i (trackedImports (RootPkgPath t) pkgs) → In i (Imports p).
Proof.
  intros Hnew Hdir Hrun. destruct fuel as [|fuel]; [done|].
  rewrite Resolve_S, Hnew in Hrun. cbv zeta in Hrun.
  rewrite pkgDir_setPackages, Hdir in Hrun.
  destruct pkgs as [|p0 pkgs0].
  { injection Hrun as <- <-. eexists. split; [|done].
    simpl. by rewrite lookup_insert_eq. }
  destruct (forRange _ _ _) as [[t2 S2]|] eqn:Hloop; [|discriminate].
  injection Hrun as <- <-.
  destruct (loops_post (importsInv t name) (seen (RootPkgPath t))
              (Resolve fs fuel) name (p0 :: pkgs0)
              (setPackages t (<[name:=emptyNode t name]> (Packages t)), ∅)
              (t2, S2))
    as [(_ & p & Hp & Himp) Hseen]; [| | | | |exact Hloop|].
  - split; [apply sameRoot_setPackages|]. eexists. split.
    + simpl. by rewrite lookup_insert_eq.
    + intros i Hi. set_solver.
  - intros t3 S3 filename (HR & p3 & Hp3 & Himp). split; cbn [fst snd] in *.
    + eapply sameRoot_trans; [exact HR|apply sameRoot_setPackages].
    + exists (appendFile filename p3). split; [|done].
      rewrite lookup_modifyPkg, Hp3. by case_decide.
  - done.
  - intros st l st'. apply visitImport_importsInv.
  - intros b st l st' _. apply visitImport_seen.
  - exists p. split; [done|]. intros i Hi.
    apply trackedImports_inv in Hi as
        (Hpre & pk & f & l & Hpk & Hf & Hnt & Hl & <-).
    apply Himp. by apply (Hseen pk f l).
Qed.

(** C10.  A package path is internal exactly when the root package path
    is a prefix of it as a string of bytes; segments play no part.  The
    node that [Resolve] creates for a path carries that test in
    [Internal].  The imports of the node are the import paths, read off
    the literals of the non-test files of its directory with the double
    quotes trimmed, of which the root package path is such a prefix, no
    more and no fewer; every dependency of the node is one of these
    imports, and every one of these imports whose own directory neither
    fails to parse nor lacks a Go file is a dependency.  So with root
    [example.com/repo] the path [example.com/repo-other/x], which is not
    under the module root, is internal, and a package that imports it
    gets it as a dependency, with a node flagged internal. *)
Theorem IsInternal_prefix :
  (∀ t pkgName,
     IsInternal t pkgName = true ↔ ∃ rest, pkgName = RootPkgPath t ++ rest) ∧
  (∀ fs fuel t name r t',
     builtTree fs t → Packages t !! name = None →
     Resolve fs fuel t name = Some (r, t') →
     ∃ p, Packages t' !! name = Some p ∧
       (Internal p = true ↔ ∃ rest, name = RootPkgPath t ++ rest) ∧
       (∀ pkgs, fs !! pkgDir t name = Some (Parsed pkgs) →
          ∀ i, In i (Imports p) ↔
               (∃ rest, i = RootPkgPath t ++ rest) ∧
               ∃ (pkg : ParsedPkg) (f : ParsedFile) l,
                 In pkg pkgs ∧ In f (snd pkg) ∧
                 strings.HasSuffix (fst f) "_test.go" = false ∧
                 In l (snd f) ∧ strings.Trim l dquote = i) ∧
       (∀ i, In i (Dependencies p) →
             In i (Imports p) ∧ ∃ rest, i = RootPkgPath t ++ rest) ∧
       (∀ i, In i (Imports p) →
             fs !! pkgDir t i ≠ Some ParseFailed →
             fs !! pkgDir t i ≠ Some (Parsed []) →
             In i (Dependencies p) ∧ is_Some (Packages t' !! i))) ∧
  IsInternal treeRepo "example.com/repo-other/x" = true ∧
  (∃ p x,
     Packages (treeAfter (Resolve fsRepo 3 treeRepo "example.com/repo/a"))
       !! "example.com/repo/a" = Some p ∧
     Dependencies p = ["example.com/repo-other/x"] ∧
     Packages (treeAfter (Resolve fsRepo 3 treeRepo "example.com/repo/a"))
       !! "example.com/repo-other/x" = Some x ∧
     Internal x = true).
Proof.
  split; [|split; [|split]].
  - intros t pkgName. unfold IsInternal, strings.HasPrefix.
    apply prefix_iff_app.
  - intros fs fuel t name r t' Hb Hnew Hrun.
    destruct (Resolve_builtTree fs fuel t name r t' Hb Hrun)
      as (Hwf & Hsh & Hso & Hco).
    destruct (Resolve_extends fs fuel t name r t' Hrun)
      as ([HR _] & [p Hp] & _).
    assert (Hroot : RootPkgPath t' = RootPkgPath t) by (symmetry; apply HR).
    destruct (Hsh name p Hp) as (Hint & _ & Hpre & Hsub & _).
    rewrite (Hwf name p Hp), Hroot in Hint. rewrite Hroot in Hpre.
    assert (Hpi : ∀ i, In i (Imports p) → ∃ rest, i = RootPkgPath t ++ rest).
    { intros i Hi. apply prefix_iff_app.
      rewrite Forall_forall in Hpre. apply Hpre. by apply list_elem_of_In. }
    exists p. split; [done|]. split; [|split; [|split]].
    + rewrite Hint. apply prefix_iff_app.
    + intros pkgs Hdir i. split.
      * intros Hi. split; [by apply Hpi|].
        apply (Hso name p Hp) in Hi. unfold internalImports in Hi.
        rewrite <- (sameRoot_pkgDir t t' name HR), Hdir in Hi.
        apply trackedImports_inv in Hi as
            (_ & pkg & f & l & Hpk & Hf & Hnt & Hl & Heq).
        by exists pkg, f, l.
      * intros [Hrest (pkg & f & l & Hpk & Hf & Hnt & Hl & <-)].
        destruct (Resolve_imports_full fs fuel t name r t' pkgs Hnew Hdir Hrun)
          as (p' & Hp' & Hfull).
        assert (p' = p) as -> by congruence.
        apply Hfull. apply (trackedImports_intro _ _ pkg f l); try done.
        by apply prefix_iff_app.
    + intros i Hi.
      assert (In i (Imports p)).
      { apply list_elem_of_In. eapply sublist_subseteq; [exact Hsub|].
        by apply list_elem_of_In. }
      auto.
    + intros i Hi Hnf Hne.
      apply (Hso name p Hp) in Hi.
      destruct (Hco name (ex_intro _ p Hp) i Hi) as [Hreg Hedge].
      split; [|done].
      destruct Hedge as (p' & Hp' & Hd); [|congruence].
      unfold resolvable. by rewrite <- (sameRoot_pkgDir t t' i HR).
  - reflexivity.
  - vm_compute. eexists _, _. repeat split.
Qed.

Lemma fsRepo_run :
  Resolve fsRepo 3 treeRepo "example.com/repo/a"
  = Some (None, treeAfter (Resolve fsRepo 3 treeRepo "example.com/repo/a")).
Proof. vm_compute. reflexivity. Qed.

Lemma IsInternal_prefix_witness :
  ∃ p,
    Packages (treeAfter (Resolve fsRepo 3 treeRepo "example.com/repo/a"))
      !! "example.com/repo/a" = Some p ∧
    (Internal p = true ↔
     ∃ rest, "example.com/repo/a" = RootPkgPath treeRepo ++ rest) ∧
    (∀ pkgs,
       fsRepo !! pkgDir treeRepo "example.com/repo/a" = Some (Parsed pkgs) →
       ∀ i, In i (Imports p) ↔
            (∃ rest, i = RootPkgPath treeRepo ++ rest) ∧
            ∃ (pkg : ParsedPkg) (f : ParsedFile) l,
              In pkg pkgs ∧ In f (snd pkg) ∧
              strings.HasSuffix (fst f) "_test.go" = false ∧
              In l (snd f) ∧ strings.Trim l dquote = i) ∧
    (∀ i, In i (Dependencies p) →
          In i (Imports p) ∧ ∃ rest, i = RootPkgPath treeRepo ++ rest) ∧
    (∀ i, In i (Imports p) →
          fsRepo !! pkgDir treeRepo i ≠ Some ParseFailed →
          fsRepo !! pkgDir treeRepo i ≠ Some (Parsed []) →
          In i (Dependencies p) ∧
          is_Some (Packages
                     (treeAfter (Resolve fsRepo 3 treeRepo
                                   "example.com/repo/a")) !! i)).
Proof.
  exact (proj1 (proj2 IsInternal_prefix) fsRepo 3 treeRepo
           "example.com/repo/a" None
           (treeAfter (Resolve fsRepo 3 treeRepo "example.com/repo/a"))
           (builtTree_NewTree fsRepo "/r" "example.com/repo") eq_refl
           fsRepo_run).
Defined.

(** ** A directory that does not exist *)

Lemma builtTree_missing fs t k p :
  builtTree fs t → fs !! pkgDir t k = None → Packages t !! k = Some p →
  Name p = k ∧ Files p = [] ∧ Imports p = [] ∧ Dependencies p = [].
Proof.
  intros (Hwf & Hsh & Hso & _) Hdir Hk.
  destruct (Hso k p Hk) as [Hi Hf].
  destruct (Hsh k p Hk) as (_ & _ & _ & Hsub & _).
  unfold internalImports in Hi. unfold dirFiles in Hf. rewrite Hdir in Hi, Hf.
  assert (Himp : Imports p = []).
  { destruct (Imports p) as [|i l]; [done|]. destruct (Hi i). by left. }
  split; [by apply Hwf|]. split; [|split; [done|]].
  - destruct (Files p) as [|f l]; [done|]. destruct (Hf f). by left.
  - rewrite Himp in Hsub. by apply sublist_nil_r in Hsub.
Qed.

(** X27.  A directory that [os.Stat] reports as not existing.  Take a
    package path for whose directory [os.Stat] fails with an error that
    [os.IsNotExist] recognises, and a tree as the program builds it.  A
    call of [Resolve] on the path returns no error and leaves under the
    path a node with no files, no imports and no dependencies, every
    other node and the root fields being as before.  A package that is
    resolved and has, in a non-test file, an import of the path gets the
    path among its imports and among its dependencies, returns no error
    itself, and has every other import of its files treated as well: the
    missing directory does not stop the enclosing resolution.  And an
    analysis on that tree returns its result, in which every walked
    package that imports the path has it as a dependency. *)
Theorem Resolve_missing_directory fs t pkgName :
  fs !! pkgDir t pkgName = None → builtTree fs t →
  (∀ fuel,
     ∃ t', Resolve fs (S fuel) t pkgName = Some (None, t') ∧
       (∃ p, Packages t' !! pkgName = Some p ∧ Name p = pkgName ∧
             Files p = [] ∧ Imports p = [] ∧ Dependencies p = []) ∧
       (∀ k, k ≠ pkgName → Packages t' !! k = Packages t !! k) ∧
       RootDir t' = RootDir t ∧ RootPkgPath t' = RootPkgPath t) ∧
  (∀ parent pkgs (pkg : ParsedPkg) (f : ParsedFile) l,
     Packages t !! parent = None →
     fs !! pkgDir t parent = Some (Parsed pkgs) →
     In pkg pkgs → In f (snd pkg) →
     strings.HasSuffix (fst f) "_test.go" = false → In l (snd f) →
     strings.Trim l dquote = pkgName →
     strings.HasPrefix pkgName (RootPkgPath t) = true →
     ∃ t',
       (∀ fuel, (pending fs t + 2 ≤ fuel)%nat →
                Resolve fs fuel t parent = Some (None, t')) ∧
       (∃ p, Packages t' !! pkgName = Some p ∧ Name p = pkgName ∧
             Files p = [] ∧ Imports p = [] ∧ Dependencies p = []) ∧
       ∃ q, Packages t' !! parent = Some q ∧
            In pkgName (Imports q) ∧ In pkgName (Dependencies q) ∧
            ∀ (pkg' : ParsedPkg) (f' : ParsedFile) l',
              In pkg' pkgs → In f' (snd pkg') →
              strings.HasSuffix (fst f') "_test.go" = false →
              In l' (snd f') →
              strings.HasPrefix (strings.Trim l' dquote) (RootPkgPath t)
                = true →
              In (strings.Trim l' dquote) (Imports q) ∧
              is_Some (Packages t' !! strings.Trim l' dquote)) ∧
  (∀ Match dirs a changedFiles,
     tree a = Some t →
     ∃ r t',
       (∀ fuel, (pending fs t + 2 ≤ fuel)%nat →
          AnalyzeChangedPackages Match fs (Some dirs) fuel a changedFiles
            = Some (inr (r, t'))) ∧
       ∀ d pkgs (pkg : ParsedPkg) (f : ParsedFile) l,
         In d dirs → String.eqb (filepath.ToSlash d) "." = false →
         fs !! pkgDir t (rootPkgPath a ++ "/" ++ filepath.ToSlash d)
           = Some (Parsed pkgs) →
         In pkg pkgs → In f (snd pkg) →
         strings.HasSuffix (fst f) "_test.go" = false → In l (snd f) →
         strings.Trim l dquote = pkgName →
         strings.HasPrefix pkgName (RootPkgPath t) = true →
         (∃ p, Packages t' !! pkgName = Some p ∧ Name p = pkgName ∧
               Files p = [] ∧ Imports p = [] ∧ Dependencies p = []) ∧
         ∃ q, Packages t' !! (rootPkgPath a ++ "/" ++ filepath.ToSlash d)
                = Some q ∧
              In pkgName (Dependencies q)).
Proof.
  intros Hdir Hb.
  assert (Hres : ∀ t', sameRoot t t' → resolvable fs t' pkgName).
  { intros t' HR. unfold resolvable.
    rewrite <- (sameRoot_pkgDir t t' pkgName HR), Hdir. by split. }
  assert (Hempty : ∀ t', sameRoot t t' → builtTree fs t' →
            is_Some (Packages t' !! pkgName) →
            ∃ p, Packages t' !! pkgName = Some p ∧ Name p = pkgName ∧
                 Files p = [] ∧ Imports p = [] ∧ Dependencies p = []).
  { intros t' HR Hb' [p Hp]. exists p. split; [done|].
    apply (builtTree_missing fs t' pkgName p Hb'); [|done].
    by rewrite <- (sameRoot_pkgDir t t' pkgName HR). }
  assert (Hedge : ∀ t' parent pkgs (pkg : ParsedPkg) (f : ParsedFile) l,
            sameRoot t t' → builtTree fs t' →
            is_Some (Packages t' !! parent) →
            fs !! pkgDir t parent = Some (Parsed pkgs) →
            In pkg pkgs → In f (snd pkg) →
            strings.HasSuffix (fst f) "_test.go" = false → In l (snd f) →
            strings.HasPrefix (strings.Trim l dquote) (RootPkgPath t) = true →
            is_Some (Packages t' !! strings.Trim l dquote) ∧
            (resolvable fs t' (strings.Trim l dquote) →
             edge t' parent (strings.Trim l dquote))).
  { intros t' parent pkgs pkg f l HR (_ & _ & _ & Hco) Hreg Hpd Hpk Hf Hnt Hl
           Hpre.
    apply (Hco parent Hreg). unfold internalImports.
    rewrite <- (sameRoot_pkgDir t t' parent HR), Hpd.
    destruct HR as (_ & _ & <-).
    by apply (trackedImports_intro _ _ pkg f l). }
  split; [|split].
  - intros fuel. rewrite Resolve_S.
    destruct (Packages t !! pkgName) as [p|] eqn:Hp.
    + exists t. split; [done|]. split; [|done].
      apply Hempty; [apply sameRoot_refl|done|by exists p].
    + cbv zeta. rewrite pkgDir_setPackages, Hdir.
      eexists. split; [done|]. split; [|split; [|done]].
      * eexists. split; [simpl; by rewrite lookup_insert_eq|done].
      * intros k Hk. simpl. by rewrite lookup_insert_ne.
  - intros parent pkgs pkg f l Hnew Hpd Hpk Hf Hnt Hl Heq Hpre.
    destruct (Resolve_terminates fs t parent) as (r & t' & Hrun).
    pose proof (Hrun _ (Nat.le_refl _)) as Hrun0.
    assert (r = None) as ->.
    { destruct r as [e|]; [|done].
      destruct (Resolve_error_inv _ _ _ _ _ _ Hrun0) as [H|H];
        rewrite Hpd in H; [done|]. injection H as ->. destruct Hpk. }
    exists t'. split; [done|].
    destruct (Resolve_extends _ _ _ _ _ _ Hrun0) as ([HR _] & Hreg & _).
    assert (Hb' := Resolve_builtTree _ _ _ _ _ _ Hb Hrun0).
    destruct (Resolve_imports_full _ _ _ _ _ _ pkgs Hnew Hpd Hrun0)
      as (q & Hq & Hfull).
    assert (Hall : ∀ (pkg' : ParsedPkg) (f' : ParsedFile) l',
              In pkg' pkgs → In f' (snd pkg') →
              strings.HasSuffix (fst f') "_test.go" = false →
              In l' (snd f') →
              strings.HasPrefix (strings.Trim l' dquote) (RootPkgPath t)
                = true →
              In (strings.Trim l' dquote) (Imports q) ∧
              is_Some (Packages t' !! strings.Trim l' dquote)).
    { intros pkg' f' l' Hpk' Hf' Hnt' Hl' Hpre'. split.
      - apply Hfull. by apply (trackedImports_intro _ _ pkg' f' l').
      - by apply (Hedge t' parent pkgs pkg' f' l'). }
    rewrite <- Heq in Hpre.
    destruct (Hall pkg f l Hpk Hf Hnt Hl Hpre) as [Hi Hr].
    destruct (Hedge t' parent pkgs pkg f l HR Hb' Hreg Hpd Hpk Hf Hnt Hl Hpre)
      as [_ He].
    rewrite Heq in Hi, Hr, He.
    split; [by apply Hempty|].
    exists q. split; [done|]. split; [done|]. split; [|done].
    destruct (He (Hres t' HR)) as (q' & Hq' & Hd). congruence.
  - intros Match dirs a changedFiles Ht.
    destruct (AnalyzeChangedPackages_terminates Match fs (Some dirs) a
                changedFiles) as [x Hx].
    rewrite Ht in Hx.
    pose proof (Hx _ (Nat.le_refl _)) as Hx0.
    assert (∃ r t', x = inr (r, t')) as (r & t' & ->).
    { revert Hx0. unfold AnalyzeChangedPackages. rewrite Ht.
      destruct (forRange _ dirs t) as [t1|]; [|discriminate].
      rewrite visitChangedPkg_fold. intros [= <-]. eauto. }
    exists r, t'. split; [done|].
    apply AnalyzeChangedPackages_inv2 in Hx0
      as (t0 & dirs0 & Ht0 & [= <-] & Hwalk & _).
    rewrite Ht in Ht0. injection Ht0 as <-.
    destruct (walk_builtTree _ _ _ _ _ _ Hb Hwalk) as [Hb' [HR _]].
    intros d pkgs pkg f l Hd Hne Hpd Hpk Hf Hnt Hl Heq Hpre.
    assert (Hreg := walk_registers_dirs _ _ _ _ _ _ Hwalk d Hd Hne).
    rewrite <- Heq in Hpre.
    destruct (Hedge t' _ pkgs pkg f l HR Hb' Hreg Hpd Hpk Hf Hnt Hl Hpre)
      as [Hr He].
    rewrite Heq in Hr, He. split; [by apply Hempty|].
    destruct (He (Hres t' HR)) as (q & Hq & Hdq). by exists q.
Qed.

(** C5 does not hold of the code.  [Resolve] means to skip a package
    whose directory does not exist, and tests for it with
    [os.IsNotExist] on the error of [os.Stat].  In [fsUnderFile] package
    [p] imports [m/p/a.go/x], which maps to [/r/p/a.go/x], and
    [/r/p/a.go] is a regular file of [p]: no such directory exists, but
    [os.Stat] fails with [ENOTDIR], of which [os.IsNotExist] is false.
    So [Resolve] goes on to [ParseDir], which fails, and returns the
    parse error instead of nil.  The resolution of [p] goes on, but
    leaves [p] without the dependency that a directory missing in the
    other way gives ([fsGone], where [m/gone] becomes a dependency of
    [a]). *)
Theorem Resolve_missing_directory_under_file :
  underRegularFile fsUnderFile (pkgDir treeM "m/p/a.go/x") ∧
  (∀ fuel, ∃ t',
     Resolve fsUnderFile (S fuel) treeM "m/p/a.go/x"
     = Some (Some (ErrParse "m/p/a.go/x" "/r/p/a.go/x"), t') ∧
     ∃ x, Packages t' !! "m/p/a.go/x" = Some x ∧
          Files x = [] ∧ Imports x = [] ∧ Dependencies x = []) ∧
  (∃ t' q,
     (∀ fuel, (2 ≤ fuel)%nat →
              Resolve fsUnderFile fuel treeM "m/p" = Some (None, t')) ∧
     Packages t' !! "m/p" = Some q ∧
     Imports q = ["m/p/a.go/x"] ∧ Dependencies q = []) ∧
  (∃ t' a,
     (∀ fuel, (2 ≤ fuel)%nat →
              Resolve fsGone fuel treeM "m/a" = Some (None, t')) ∧
     Packages t' !! "m/a" = Some a ∧
     Imports a = ["m/gone"; "m/b"] ∧ Dependencies a = ["m/gone"; "m/b"]).
Proof.
  split; [|split; [|split]].
  - exists "/r/p/a.go", "x". split; [|reflexivity].
    exists "/r/p", [("p", [("/r/p/a.go", [quoted "m/p/a.go/x"])])],
           ("p", [("/r/p/a.go", [quoted "m/p/a.go/x"])]),
           ("/r/p/a.go", [quoted "m/p/a.go/x"]).
    split; [reflexivity|]. split; [by left|]. split; [by left|done].
  - intros fuel. eexists. split.
    + apply (Resolve_fuel_mono fsUnderFile 1 (S fuel)); [lia|].
      vm_compute. reflexivity.
    + eexists. vm_compute. repeat split.
  - exists (treeAfter (Resolve fsUnderFile 2 treeM "m/p")). eexists.
    split; [|vm_compute; repeat split].
    intros fuel Hle.
    apply (Resolve_fuel_mono fsUnderFile 2 fuel); [done|].
    vm_compute. reflexivity.
  - exists (treeAfter (Resolve fsGone 2 treeM "m/a")). eexists.
    split; [|vm_compute; repeat split].
    intros fuel Hle.
    apply (Resolve_fuel_mono fsGone 2 fuel); [done|].
    vm_compute. reflexivity.
Qed.

Lemma Resolve_missing_directory_witness :
  (∃ t', Resolve fsGone 1 treeM "m/gone" = Some (None, t') ∧
     (∃ p, Packages t' !! "m/gone" = Some p ∧ Name p = "m/gone" ∧
           Files p = [] ∧ Imports p = [] ∧ Dependencies p = []) ∧
     (∀ k, k ≠ "m/gone" → Packages t' !! k = Packages treeM !! k) ∧
     RootDir t' = RootDir treeM ∧ RootPkgPath t' = RootPkgPath treeM) ∧
  (∃ t',
     (∀ fuel, (pending fsGone treeM + 2 ≤ fuel)%nat →
              Resolve fsGone fuel treeM "m/a" = Some (None, t')) ∧
     (∃ p, Packages t' !! "m/gone" = Some p ∧ Name p = "m/gone" ∧
           Files p = [] ∧ Imports p = [] ∧ Dependencies p = []) ∧
     ∃ q, Packages t' !! "m/a" = Some q ∧
          In "m/gone" (Imports q) ∧ In "m/gone" (Dependencies q) ∧
          ∀ (pkg' : ParsedPkg) (f' : ParsedFile) l',
            In pkg' [("a", [("/r/a/a.go", [quoted "m/gone"; quoted "m/b"])])] →
            In f' (snd pkg') →
            strings.HasSuffix (fst f') "_test.go" = false →
            In l' (snd f') →
            strings.HasPrefix (strings.Trim l' dquote) (RootPkgPath treeM)
              = true →
            In (strings.Trim l' dquote) (Imports q) ∧
            is_Some (Packages t' !! strings.Trim l' dquote)) ∧
  (∃ r t',
     (∀ fuel, (pending fsGone treeM + 2 ≤ fuel)%nat →
        AnalyzeChangedPackages matchDoubleStar fsGone (Some ["a"; "b"]) fuel
          (analyzerM cfgNoPatterns) ["b/b.go"] = Some (inr (r, t'))) ∧
     ∀ d pkgs (pkg : ParsedPkg) (f : ParsedFile) l,
       In d ["a"; "b"] → String.eqb (filepath.ToSlash d) "." = false →
       fsGone !! pkgDir treeM
                   (rootPkgPath (analyzerM cfgNoPatterns) ++ "/"
                    ++ filepath.ToSlash d)
         = Some (Parsed pkgs) →
       In pkg pkgs → In f (snd pkg) →
       strings.HasSuffix (fst f) "_test.go" = false → In l (snd f) →
       strings.Trim l dquote = "m/gone" →
       strings.HasPrefix "m/gone" (RootPkgPath treeM) = true →
       (∃ p, Packages t' !! "m/gone" = Some p ∧ Name p = "m/gone" ∧
             Files p = [] ∧ Imports p = [] ∧ Dependencies p = []) ∧
       ∃ q, Packages t' !! (rootPkgPath (analyzerM cfgNoPatterns) ++ "/"
                            ++ filepath.ToSlash d) = Some q ∧
            In "m/gone" (Dependencies q)).
Proof.
  destruct (Resolve_missing_directory fsGone treeM "m/gone" eq_refl
              (builtTree_NewTree fsGone "/r" "m")) as (H1 & H2 & H3).
  split; [exact (H1 0%nat)|].
  split; [|exact (H3 matchDoubleStar ["a"; "b"] (analyzerM cfgNoPatterns)
                     ["b/b.go"] eq_refl)].
  apply (H2 "m/a" [("a", [("/r/a/a.go", [quoted "m/gone"; quoted "m/b"])])]
            ("a", [("/r/a/a.go", [quoted "m/gone"; quoted "m/b"])])
            ("/r/a/a.go", [quoted "m/gone"; quoted "m/b"])
            (quoted "m/gone")).
  - reflexivity.
  - reflexivity.
  - by left.
  - by left.
  - reflexivity.
  - by left.
  - reflexivity.
  - reflexivity.
Defined.

Example fsGone_run :
  ∃ t' a gone,
    Resolve fsGone 3 treeM "m/a" = Some (None, t') ∧
    Packages t' !! "m/a" = Some a ∧
    Imports a = ["m/gone"; "m/b"] ∧ Dependencies a = ["m/gone"; "m/b"] ∧
    Packages t' !! "m/gone" = Some gone ∧ Files gone = [].
Proof. eexists _, _, _. vm_compute. repeat split. Qed.

(** ** Imports as the code reads them *)

Lemma rev_app_app a b acc :
  String.rev_app (a ++ b) acc = String.rev_app b (String.rev_app a acc).
Proof.
  revert acc. induction a as [|c a IH]; intros acc; [done|].
  rewrite append_cons. simpl. apply IH.
Qed.


Lemma TrimLeft_head c s cutset :
  strings.inCutset c cutset = false →
  strings.TrimLeft (String c s) cutset = String c s.
Proof. intros H. simpl. by rewrite H. Qed.

Lemma plainPath_cons c s :
  plainPath (String c s) = true →
  strings.inCutset c dquote = false ∧ plainPath s = true.
Proof.
  unfold plainPath. simpl. intros [[Hq _]%andb_true_iff Hs]%andb_true_iff.
  split; [|done]. unfold strings.inCutset. simpl.
  apply negb_true_iff in Hq. by rewrite Hq.
Qed.

Lemma rev_app_head s c acc :
  plainPath s = true → strings.inCutset c dquote = false →
  ∃ c' rest, String.rev_app s (String c acc) = String c' rest ∧
             strings.inCutset c' dquote = false.
Proof.
  revert c acc. induction s as [|x s IH]; intros c acc Hs Hc.
  - by exists c, acc.
  - apply plainPath_cons in Hs as [Hx Hs]. simpl. by apply IH.
Qed.

(** [strings.Trim] by the double quote gives the path of an interpreted
    literal. *)
Lemma Trim_quoted path :
  plainPath path = true → strings.Trim (quoted path) dquote = path.
Proof.
  intros Hp. unfold strings.Trim, strings.TrimRight, quoted.
  change (dquote ++ path ++ dquote)
    with (String "034"%char (path ++ dquote)).
  unfold String.rev at 2. cbn [String.rev_app].
  rewrite rev_app_app. cbn [String.rev_app dquote].
  change (strings.TrimLeft (String "034" ?x) dquote)
    with (strings.TrimLeft x dquote).
  destruct path as [|c s]; [reflexivity|].
  apply plainPath_cons in Hp as [Hc Hs].
  cbn [String.rev_app].
  destruct (rev_app_head s c (String "034"%char "") Hs Hc)
    as (c' & rest & Heq & Hc').
  rewrite Heq, (TrimLeft_head c' rest dquote Hc'), <- Heq.
  unfold String.rev.
  change (String.rev_app s (String c (String "034" "")))
    with (String.rev_app (String c s) dquote).
  rewrite rev_app_rev_app.
  change (String.rev_app dquote (String c s ++ ""))
    with (String "034"%char (String c s ++ "")).
  rewrite append_nil_r.
  change (strings.TrimLeft (String "034" (String c s)) dquote)
    with (strings.TrimLeft (String c s) dquote).
  by apply TrimLeft_head.
Qed.


Lemma append_inv_tail (a b c : string) : a ++ c = b ++ c → a = b.
Proof.
  revert b. induction a as [|x a IH]; intros [|y b] H.
  - done.
  - apply (f_equal String.length) in H.
    change (String.length c = S (String.length (b ++ c))) in H.
    rewrite length_append in H. lia.
  - apply (f_equal String.length) in H.
    change (S (String.length (a ++ c)) = String.length c) in H.
    rewrite length_append in H. lia.
  - rewrite !append_cons in H. injection H as -> H. f_equal. by apply IH.
Qed.

Lemma quoted_inj a b : quoted a = quoted b → a = b.
Proof.
  unfold quoted.
  change (dquote ++ ?x ++ dquote) with (String "034"%char (x ++ dquote)).
  intros [= H]. by apply append_inv_tail in H.
Qed.

(** What the loops of [Resolve] read as the imports of a package, when
    every import is an interpreted literal: the paths with the root
    prefix that a non-test file of the directory imports. *)
Lemma internalImports_interpreted fs t k i :
  interpretedImports fs →
  In i (internalImports fs t k) ↔
  (∃ rest, i = RootPkgPath t ++ rest) ∧
  ∃ pkgs (pkg : ParsedPkg) (f : ParsedFile),
    fs !! pkgDir t k = Some (Parsed pkgs) ∧ In pkg pkgs ∧ In f (snd pkg) ∧
    strings.HasSuffix (fst f) "_test.go" = false ∧ In (quoted i) (snd f).
Proof.
  intros Hint. unfold internalImports. split.
  - destruct (fs !! pkgDir t k) as [[|pkgs]|] eqn:Hdir; [done| |done].
    intros (Hpre & pkg & f & l & Hpk & Hf & Hnt & Hl & Heq)%trackedImports_inv.
    split; [by apply prefix_iff_app|]. exists pkgs, pkg, f.
    destruct (Hint _ _ _ _ _ Hdir Hpk Hf Hl) as (path & -> & Hplain).
    rewrite Trim_quoted in Heq by done. by subst.
  - intros [Hpre (pkgs & pkg & f & Hdir & Hpk & Hf & Hnt & Hl)].
    rewrite Hdir.
    destruct (Hint _ _ _ _ _ Hdir Hpk Hf Hl) as (path & Heq & Hplain).
    apply quoted_inj in Heq as ->.
    rewrite <- (Trim_quoted path Hplain).
    apply (trackedImports_intro _ _ pkg f (quoted path)); try done.
    rewrite Trim_quoted by done. by apply prefix_iff_app.
Qed.

(** X23.  Where nothing fails and every import is written between
    double quotes, the graph is the import graph.  When every directory
    that exists parses and holds a Go file, and every import of every
    file is an interpreted string literal without escape, a call of
    [Resolve] on a tree as the program builds it returns no error, and
    in the tree it leaves the dependencies of every node are the paths
    that have the root package path as prefix and that a non-test file
    of the node's directory imports: an edge for each, and no other
    edge; and its imports are its dependencies. *)
Theorem Resolve_import_graph fs fuel t name r t' :
  builtTree fs t → noFailure fs → interpretedImports fs →
  Resolve fs fuel t name = Some (r, t') →
  r = None ∧
  ∀ k p, Packages t' !! k = Some p →
    ∀ i, (In i (Dependencies p) ↔
          (∃ rest, i = RootPkgPath t ++ rest) ∧
          ∃ pkgs (pkg : ParsedPkg) (f : ParsedFile),
            fs !! pkgDir t k = Some (Parsed pkgs) ∧
            In pkg pkgs ∧ In f (snd pkg) ∧
            strings.HasSuffix (fst f) "_test.go" = false ∧
            In (quoted i) (snd f)) ∧
         (In i (Imports p) ↔ In i (Dependencies p)).
Proof.
  intros Hb Hn Hint Hrun. split.
  - destruct r as [e|]; [|done].
    destruct (Resolve_error_inv _ _ _ _ _ _ Hrun) as [H|H];
      by destruct (Hn (pkgDir t name)).
  - assert (Hb' := Resolve_builtTree fs fuel t name r t' Hb Hrun).
    destruct (Resolve_extends fs fuel t name r t' Hrun) as ([HR _] & _).
    intros k p Hk i.
    assert (He := builtTree_edges fs t' k p i Hb' Hn Hk).
    rewrite <- (internalImports_sameRoot fs t t' k HR) in He.
    split.
    + rewrite He. by apply internalImports_interpreted.
    + destruct Hb' as (_ & Hsh & Hso & _). split.
      * intros Hi. apply He.
        rewrite (internalImports_sameRoot fs t t' k HR).
        by apply (Hso k p Hk).
      * intros Hi. destruct (Hsh k p Hk) as (_ & _ & _ & Hsub & _).
        apply list_elem_of_In. eapply sublist_subseteq; [exact Hsub|].
        by apply list_elem_of_In.
Qed.

Lemma fsWhole_interpreted : interpretedImports fsWhole1.
Proof.
  intros dir pkgs pkg f l. unfold fsWhole1.
  rewrite !lookup_insert. repeat case_decide.
  - intros [= <-] [<-|[]] [<-|[<-|[]]] [<-|[]];
      by eexists; split; [reflexivity|].
  - intros [= <-] [<-|[]] [<-|[]] [<-|[]];
      by eexists; split; [reflexivity|].
  - rewrite lookup_singleton. case_decide; [|done].
    intros [= <-] [<-|[]] [<-|[]] [].
Qed.

Lemma Resolve_import_graph_witness :
  (None : option error) = None ∧
  ∀ k p, Packages (treeAfter (Resolve fsWhole1 4 treeM "m/p")) !! k = Some p →
    ∀ i, (In i (Dependencies p) ↔
          (∃ rest, i = RootPkgPath treeM ++ rest) ∧
          ∃ pkgs (pkg : ParsedPkg) (f : ParsedFile),
            fsWhole1 !! pkgDir treeM k = Some (Parsed pkgs) ∧
            In pkg pkgs ∧ In f (snd pkg) ∧
            strings.HasSuffix (fst f) "_test.go" = false ∧
            In (quoted i) (snd f)) ∧
         (In i (Imports p) ↔ In i (Dependencies p)).
Proof.
  exact (Resolve_import_graph fsWhole1 4 treeM "m/p" None
           (treeAfter (Resolve fsWhole1 4 treeM "m/p"))
           (builtTree_NewTree fsWhole1 "/r" "m") fsWhole_noFailure
           fsWhole_interpreted fsWhole_run).
Defined.



(** X22.  A call of [Resolve] registers what it reaches, and that only.
    On a tree as the program builds it, the packages registered after a
    call that returned are those registered before, the path of the
    call, and every path reached from it by steps of one kind: from a
    package whose directory parses, to a path that has the root package
    path as prefix and is what an import literal of one of its non-test
    files reads as once double quotes are trimmed off it.  A package
    reached is registered also when its own resolution returns an error.
    No step leaves a package whose directory is missing or fails to
    parse, and a literal between backquotes gives none: what lies only
    behind these is not registered. *)
Theorem Resolve_closure fs fuel t name r t' :
  builtTree fs t → Resolve fs fuel t name = Some (r, t') →
  (∀ k, is_Some (Packages t' !! k) ↔
        is_Some (Packages t !! k) ∨ reachable fs t [name] k) ∧
  (∀ j k, In k (internalImports fs t j) ↔
     strings.HasPrefix k (RootPkgPath t) = true ∧
     ∃ pkgs (pkg : ParsedPkg) (f : ParsedFile) l,
       fs !! pkgDir t j = Some (Parsed pkgs) ∧ In pkg pkgs ∧
       In f (snd pkg) ∧ strings.HasSuffix (fst f) "_test.go" = false ∧
       In l (snd f) ∧ strings.Trim l dquote = k).
Proof.
  intros Hb Hrun. split.
  - intros k. split; [by apply (Resolve_recReach fs fuel t name r t')|].
    destruct (Resolve_extends fs fuel t name r t' Hrun) as ([HR Hext] & Hn & _).
    intros [[p Hp]|Hk]; [exists p; by apply Hext|].
    assert (Hc : treeComplete fs t').
    { by destruct (Resolve_builtTree fs fuel t name r t' Hb Hrun) as (_&_&_&?). }
    induction Hk as [k [<-|[]]|j k _ IH Hjk]; [done|].
    rewrite (internalImports_sameRoot fs t t' j HR) in Hjk.
    by destruct (Hc j IH k Hjk).
  - intros j k. unfold internalImports. split.
    + destruct (fs !! pkgDir t j) as [[|pkgs]|]; [done| |done].
      intros (Hpre & pkg & f & l & ?)%trackedImports_inv.
      split; [done|]. by exists pkgs, pkg, f, l.
    + intros [Hpre (pkgs & pkg & f & l & Hdir & Hpk & Hf & Hnt & Hl & <-)].
      rewrite Hdir. by apply (trackedImports_intro _ _ pkg f l).
Qed.

Lemma fsOrder1_run :
  Resolve fsOrder1 4 treeM "m/p"
  = Some (None, treeAfter (Resolve fsOrder1 4 treeM "m/p")).
Proof. vm_compute. reflexivity. Qed.

(** [m/z], whose directory does not parse, is reached from [m/p] and is
    registered. *)
Lemma Resolve_closure_witness :
  is_Some (Packages (treeAfter (Resolve fsOrder1 4 treeM "m/p")) !! "m/z") ↔
  is_Some (Packages treeM !! "m/z") ∨ reachable fsOrder1 treeM ["m/p"] "m/z".
Proof.
  exact (proj1 (Resolve_closure fsOrder1 4 treeM "m/p" None
                  (treeAfter (Resolve fsOrder1 4 treeM "m/p"))
                  (builtTree_NewTree fsOrder1 "/r" "m") fsOrder1_run) "m/z").
Defined.

(** ** Importers that the analysis reports *)

Lemma changedPackageOf_prefix root file k :
  changedPackageOf root file = Some k → strings.HasPrefix k root = true.
Proof.
  unfold changedPackageOf. destruct (_ || _); [done|].
  intros [= <-]. apply prefix_iff_app.
  destruct (String.eqb (filepath.Dir file) ".").
  - exists "". symmetry. apply append_nil_r.
  - by eexists.
Qed.

(** X11.  No missed report, among the importers that the code reads.
    Take an analyzer whose tree is as the program builds it and has the
    analyzer's root package path, and a changed package whose directory
    is absent or parses to at least one package.  Every registered
    package, other than the changed one, whose own directory parses and
    has a non-test file with an import literal that reads as the path of
    the changed package once double quotes are trimmed off it, and whose
    name no ignore pattern matches and, if high-level patterns are
    configured, one of them matches, is among the affected packages of
    the impact, with its critical flag.  An importer whose directory
    fails to parse, and an import written between backquotes, are not
    read by the code and not covered. *)
Theorem AnalyzeChangedPackages_complete
    Match fs walk fuel a changedFiles t r t' :
  tree a = Some t → builtTree fs t → RootPkgPath t = rootPkgPath a →
  AnalyzeChangedPackages Match fs walk fuel a changedFiles = Some (inr (r, t')) →
  ∀ impact, In impact (Impacts r) →
    fs !! pkgDir t' (ChangedPackage impact) ≠ Some ParseFailed →
    fs !! pkgDir t' (ChangedPackage impact) ≠ Some (Parsed []) →
    ∀ k pkgs (pkg : ParsedPkg) (f : ParsedFile) l,
      is_Some (Packages t' !! k) → k ≠ ChangedPackage impact →
      fs !! pkgDir t' k = Some (Parsed pkgs) →
      In pkg pkgs → In f (snd pkg) →
      strings.HasSuffix (fst f) "_test.go" = false → In l (snd f) →
      strings.Trim l dquote = ChangedPackage impact →
      (∀ pattern,
         In pattern (config.IgnorePatterns (config.Patterns (cfg a))) →
         Match pattern k = false) →
      (config.HighLevelPackages (config.Targets (cfg a)) = [] ∨
       ∃ pattern,
         In pattern (config.HighLevelPackages (config.Targets (cfg a))) ∧
         Match pattern k = true) →
      In {| AffectedPackage.Name := k;
            AffectedPackage.IsCritical :=
              config.matchesAny Match
                (config.Packages (config.Critical (cfg a))) k |}
         (AffectedPackages impact).
Proof.
  intros Ht Hb Hroot Hrun.
  apply AnalyzeChangedPackages_inv2 in Hrun
    as (t0 & dirs & Ht0 & _ & Hwalk & ->).
  rewrite Ht in Ht0. injection Ht0 as <-.
  destruct (walk_builtTree fs fuel _ dirs t t' Hb Hwalk)
    as [(Hwf & _ & _ & Hco) [HR _]].
  intros impact (c & <- & Hc)%in_map_iff Hnf Hne k pkgs pkg f l
         [p Hk] Hkc Hdir Hpk Hf Hnt Hl Heq Hig Hhl.
  change (ChangedPackage (impactOf Match (cfg a) t' c)) with c in *.
  assert (Hpre : strings.HasPrefix c (RootPkgPath t') = true).
  { apply In_sort_Strings, list_elem_of_In, elem_of_elements in Hc.
    apply changedPkgs_spec in Hc as [Hc|(file & _ & Hc)]; [set_solver|].
    destruct HR as (_ & _ & <-). rewrite Hroot.
    by eapply changedPackageOf_prefix. }
  assert (Himp : In c (internalImports fs t' k)).
  { unfold internalImports. rewrite Hdir. rewrite <- Heq.
    apply (trackedImports_intro _ _ pkg f l); try done. by rewrite Heq. }
  apply In_AffectedPackages. exists p. split; [|split].
  - apply In_FindReverseDependencies. split; [by exists k|].
    rewrite (Hwf k p Hk). split; [|done].
    destruct (Hco k (ex_intro _ p Hk) c Himp) as [_ Hedge].
    destruct (Hedge (conj Hnf Hne)) as (p' & Hk' & Hin). congruence.
  - unfold qualifies, config.IsHighLevelPackage, config.ShouldIgnorePackage.
    rewrite (Hwf k p Hk). apply matchesAny_false in Hig. rewrite Hig.
    destruct Hhl as [->|Hhl%matchesAny_true]; [done|].
    rewrite Hhl. simpl. by destruct (_ =? _)%nat.
  - unfold affectedOf, config.IsCriticalPackage. by rewrite (Hwf k p Hk).
Qed.

Lemma AnalyzeChangedPackages_complete_witness :
  In {| AffectedPackage.Name := "github.com/a/b/c";
        AffectedPackage.IsCritical :=
          config.matchesAny matchPath ["**/c"] "github.com/a/b/c" |}
     [ {| AffectedPackage.Name := "github.com/a/b/c";
          AffectedPackage.IsCritical := true |} ].
Proof.
  apply (AnalyzeChangedPackages_complete matchPath fsTest
           (Some ["c"; "d"]) 5
           (SetRootPackage (NewAnalyzer cfgCriticalC "/repo") "github.com/a/b")
           ["d/d.go"] (NewTree "/repo" "github.com/a/b")
           (fst (resultOf testRun)) (snd (resultOf testRun))
           eq_refl (builtTree_NewTree fsTest "/repo" "github.com/a/b")
           eq_refl testRun_eq
           {| ChangedPackage := "github.com/a/b/d";
              AffectedPackages :=
                [ {| AffectedPackage.Name := "github.com/a/b/c";
                     AffectedPackage.IsCritical := true |} ] |})
    with (k := "github.com/a/b/c")
         (pkgs := [("c", [("/repo/c/c.go", [quoted "github.com/a/b/d"])])])
         (pkg := ("c", [("/repo/c/c.go", [quoted "github.com/a/b/d"])]))
         (f := ("/repo/c/c.go", [quoted "github.com/a/b/d"]))
         (l := quoted "github.com/a/b/d").
  - vm_compute. left. reflexivity.
  - vm_compute. discriminate.
  - vm_compute. discriminate.
  - vm_compute. eexists. reflexivity.
  - discriminate.
  - vm_compute. reflexivity.
  - by left.
  - by left.
  - reflexivity.
  - by left.
  - reflexivity.
  - intros pattern [<-|[]]. reflexivity.
  - right. exists "**". split; [by left|reflexivity].
Defined.
